(** * decap: session registry, request interpreter and HTML preprocessor

    A shallow embedding of the Go sources
      - [session.go] (registry actor, tab ids, window creation),
      - [query.go] (request parsing and the repeat/while execution loop),
      - [readability/normalize.go] (DOM clean-up before readability),
    together with the properties the specification states about them.

    Conventions.
      - A Go [string] is a byte string: Rocq's [string] of [ascii].
        [len(s)] is [String.length s].
      - [time.Duration] and [time.Time] are [Z] (nanoseconds).
      - Go maps are stdpp [gmap]s.
      - A nil [error] is [None]; a non-nil one is [Some msg].
      - Functions of Go's libraries whose results rest on tables or grammars
        of their own ([time.ParseDuration], [url.ParseRequestURI],
        [strconv.ParseFloat], [strings.Fields], [strings.TrimSpace],
        [strings.ToLower]) are parameters: section variables or the class
        [Strings]. *)

From Stdlib Require Import ZArith Ascii String List Bool Lia Floats Uint63.
From stdpp Require Import base option list gmap strings pretty.

Set Warnings "-register-all".

Local Open Scope string_scope.
Local Open Scope Z_scope.

Definition error := option string.

(** ** Byte strings *)

Definition chars (s : string) : list ascii := list_ascii_of_string s.
Definition str (l : list ascii) : string := string_of_list_ascii l.

Lemma str_chars s : str (chars s) = s.
Proof. apply string_of_list_ascii_of_string. Qed.

Lemma chars_str l : chars (str l) = l.
Proof. apply list_ascii_of_string_of_list_ascii. Qed.

Lemma chars_app s t : chars (s ++ t) = (chars s ++ chars t)%list.
Proof. induction s as [|c s IH]; simpl; [reflexivity | now rewrite IH]. Qed.

Lemma chars_length s : List.length (chars s) = String.length s.
Proof. induction s as [|c s IH]; simpl; [reflexivity | now rewrite IH]. Qed.

Lemma chars_inj s t : chars s = chars t -> s = t.
Proof. intros H. rewrite <- (str_chars s), <- (str_chars t). now rewrite H. Qed.

(** The double quote byte, and [fmt]'s rendering of a quoted %s. *)
Definition dquote : string := String (ascii_of_nat 34) EmptyString.
Definition quoted (s : string) : string := dquote ++ s ++ dquote.

(** [[:xdigit:]] : the bytes [0-9A-Fa-f]. *)
Definition is_xdigit (c : ascii) : bool :=
  let n := nat_of_ascii c in
  ((48 <=? n) && (n <=? 57) || (65 <=? n) && (n <=? 70) || (97 <=? n) && (n <=? 102))%nat.

Definition all_xdigit (s : string) : bool := forallb is_xdigit (chars s).

(** ** Regular expressions (the fragment [tabRegexp] is written in) *)

Module Regexp.

Inductive re : Type :=
| Class (P : ascii -> bool)                 (* a bracket expression *)
| Lit (c : ascii)                           (* a literal byte *)
| Cat (r1 r2 : re)                          (* r1 r2 *)
| Rep (lo : nat) (hi : option nat) (r : re) (* r{lo,hi}; r{lo,} when hi = None *).

(** [matches r l]: the whole of [l] is a match of [r]. *)
Inductive matches : re -> list ascii -> Prop :=
| m_class P c : P c = true -> matches (Class P) [c]
| m_lit c : matches (Lit c) [c]
| m_cat r1 r2 l1 l2 :
    matches r1 l1 -> matches r2 l2 -> matches (Cat r1 r2) (l1 ++ l2)
| m_rep lo hi r ls :
    (lo <= List.length ls)%nat ->
    (forall h, hi = Some h -> (List.length ls <= h)%nat) ->
    Forall (matches r) ls ->
    matches (Rep lo hi r) (concat ls).

(** The longest prefix of bytes satisfying [P], and the rest: how a greedy
    repetition of a class consumes its input. *)
Fixpoint span (P : ascii -> bool) (l : list ascii) : list ascii * list ascii :=
  match l with
  | [] => ([], [])
  | c :: l' => if P c then let '(a, b) := span P l' in (c :: a, b) else ([], l)
  end.

End Regexp.

Import Regexp.

(** [tabRegexp = regexp.MustCompile(`^([[:xdigit:]]{8,})_([[:xdigit:]]{8})$`)].
    The anchors make a match a match of the whole string; the two groups are
    kept apart because [FindStringSubmatch] reports them. *)
Definition tabRegexp_group1 : re := Rep 8 None (Class is_xdigit).
Definition tabRegexp_group2 : re := Rep 8 (Some 8%nat) (Class is_xdigit).
Definition tabRegexp : re :=
  Cat tabRegexp_group1 (Cat (Lit "_") tabRegexp_group2).

(** [tabRegexp.FindStringSubmatch(id)]: nil when [id] does not match, else
    the whole match followed by the two groups.  The first group is greedy
    and "_" is no hex digit, so it takes the longest run of hex digits. *)
Definition tabRegexp_FindStringSubmatch (id : string) : list string :=
  let '(g1, rest) := span is_xdigit (chars id) in
  match rest with
  | "_"%char :: g2 =>
      if (8 <=? List.length g1)%nat && (List.length g2 =? 8)%nat && forallb is_xdigit g2
      then [id; str g1; str g2]
      else []
  | _ => []
  end.

(** [parseTabID]: the named results [(prefix, suffix, err)]. *)
Definition parseTabID (id : string) : string * string * error :=
  let m := tabRegexp_FindStringSubmatch id in
  if (List.length m <? 3)%nat
  then ("", "", Some ("illegal tab ID format " ++ quoted id))
  else (nth 1 m "", nth 2 m "", None).

(** ** Properties of [tabRegexp] and [parseTabID] *)

Section TabRegexp.

Lemma span_app P l a b : span P l = (a, b) -> l = (a ++ b)%list /\ forallb P a = true.
Proof.
  revert a b. induction l as [|c l IH]; intros a b; simpl.
  - intros [= <- <-]. split; reflexivity.
  - destruct (P c) eqn:Pc.
    + destruct (span P l) as [a' b'] eqn:E. intros [= <- <-].
      destruct (IH a' b' eq_refl) as [-> Ha]. simpl. rewrite Pc. split; [reflexivity | exact Ha].
    + intros [= <- <-]. split; reflexivity.
Qed.

Lemma span_stop P p c q :
  forallb P p = true -> P c = false -> span P (p ++ c :: q) = (p, c :: q).
Proof.
  induction p as [|x p IH]; simpl; intros Hp Hc.
  - now rewrite Hc.
  - apply andb_prop in Hp as [Hx Hp]. rewrite Hx, (IH Hp Hc). reflexivity.
Qed.

(** A bounded repetition of a class matches exactly the strings of an
    allowed length whose bytes are all in the class. *)
Lemma matches_rep_class lo hi P l :
  matches (Rep lo hi (Class P)) l <->
  (lo <= List.length l)%nat /\ (forall h, hi = Some h -> (List.length l <= h)%nat) /\ forallb P l = true.
Proof.
  split.
  - intros H. inversion H as [| | |lo' hi' r' ls Hlo Hhi Hall]; subst.
    assert (Hs : List.length (concat ls) = List.length ls /\ forallb P (concat ls) = true).
    { clear -Hall. induction Hall as [|x ls Hx _ [IHl IHp]]; simpl; [split; reflexivity|].
      inversion Hx as [P' c Pc| | |]; subst. simpl. rewrite IHl, Pc, IHp. split; reflexivity. }
    destruct Hs as [Hlen Hp]. rewrite Hlen. auto.
  - intros (Hlo & Hhi & Hp).
    assert (Hc : concat (List.map (fun c => [c]) l) = l).
    { clear. induction l as [|c l IH]; simpl; [reflexivity | now rewrite IH]. }
    rewrite <- Hc. constructor.
    + now rewrite length_map.
    + intros h Hh. rewrite length_map. now apply Hhi.
    + clear -Hp. induction l as [|c l IH]; simpl in *; constructor.
      * apply andb_prop in Hp as [Hc _]. now constructor.
      * apply andb_prop in Hp as [_ Hp]. now apply IH.
Qed.

(** What it means for a string to match [tabRegexp] with groups [p], [q]. *)
Definition tab_shape (id p q : string) : Prop :=
  id = p ++ "_" ++ q /\
  (8 <= String.length p)%nat /\ all_xdigit p = true /\
  String.length q = 8%nat /\ all_xdigit q = true.

(** The grammar of the specification, in its words:
    [WindowID := 8 HEX], [TabID := WindowID "_" 8 HEX]. *)
Definition spec_WindowID (w : string) : Prop :=
  String.length w = 8%nat /\ all_xdigit w = true.
Definition spec_TabID (id : string) : Prop :=
  exists w t, id = w ++ "_" ++ t /\ spec_WindowID w /\
              String.length t = 8%nat /\ all_xdigit t = true.

Lemma tabRegexp_matches id :
  matches tabRegexp (chars id) <-> exists p q, tab_shape id p q.
Proof.
  unfold tabRegexp, tabRegexp_group1, tabRegexp_group2, tab_shape. split.
  - intros H. inversion H as [| |r1 r2 l1 l23 Hm1 Hm23 Heq|]; subst.
    inversion Hm23 as [| |r1' r2' l2 l3 Hm2 Hm3 Heq'|]; subst.
    inversion Hm2; subst.
    apply matches_rep_class in Hm1 as (Hlo & _ & Hp).
    apply matches_rep_class in Hm3 as (Hlo3 & Hhi3 & Hq).
    specialize (Hhi3 8%nat eq_refl).
    exists (str l1), (str l3). unfold all_xdigit. rewrite !chars_str.
    rewrite <- !chars_length, !chars_str. repeat split; try assumption; try lia; try discriminate.
    apply chars_inj. rewrite !chars_app, !chars_str.
    match goal with E : _ = chars id |- _ => now rewrite <- E end.
  - intros (p & q & -> & Hlo & Hp & Hlen & Hq).
    rewrite !chars_app. constructor; [|constructor; [constructor|]].
    + apply matches_rep_class. rewrite chars_length. repeat split; try assumption; discriminate.
    + apply matches_rep_class. rewrite chars_length. repeat split; try assumption; try lia.
      intros h [= <-]. lia.
Qed.

(** The executable [FindStringSubmatch] agrees with the regular expression. *)
Lemma FindStringSubmatch_some id p q :
  tab_shape id p q -> tabRegexp_FindStringSubmatch id = [id; p; q].
Proof.
  intros (E & Hlo & Hp & Hlen & Hq). unfold tabRegexp_FindStringSubmatch.
  rewrite E at 1. rewrite !chars_app. change (chars "_") with ["_"%char]. cbn [app].
  rewrite (span_stop is_xdigit (chars p) "_"%char (chars q) Hp eq_refl).
  rewrite !chars_length, Hlen. unfold all_xdigit in Hq. rewrite Hq.
  apply Nat.leb_le in Hlo. rewrite Hlo. cbn [andb Nat.eqb]. now rewrite !str_chars.
Qed.

Lemma FindStringSubmatch_inv id :
  tabRegexp_FindStringSubmatch id = [] \/
  exists p q, tabRegexp_FindStringSubmatch id = [id; p; q] /\ tab_shape id p q.
Proof.
  unfold tabRegexp_FindStringSubmatch.
  destruct (span is_xdigit (chars id)) as [g1 rest] eqn:E.
  apply span_app in E as [E Hp].
  destruct rest as [|c g2]; [now left|].
  destruct (Ascii.eqb_spec c "_"%char) as [->|Hne].
  2:{ left. destruct c as [[] [] [] [] [] [] [] []]; try reflexivity. now contradict Hne. }
  destruct ((8 <=? List.length g1)%nat && (List.length g2 =? 8)%nat && forallb is_xdigit g2) eqn:C;
    [right | now left].
  apply andb_prop in C as [C Hq]. apply andb_prop in C as [Hlo Hlen].
  apply Nat.leb_le in Hlo. apply Nat.eqb_eq in Hlen.
  exists (str g1), (str g2). split; [reflexivity|].
  unfold tab_shape, all_xdigit. rewrite <- !chars_length, !chars_str.
  repeat split; try assumption; try discriminate.
  apply chars_inj. rewrite !chars_app, !chars_str. exact E.
Qed.

Lemma string_length_app (s t : string) :
  String.length (s ++ t) = (String.length s + String.length t)%nat.
Proof. induction s as [|c s IH]; simpl; [reflexivity | now rewrite IH]. Qed.

Lemma spec_TabID_length id : spec_TabID id -> String.length id = 17%nat.
Proof.
  intros (w & t & -> & [Hw _] & Ht & _).
  rewrite !string_length_app, Hw, Ht. reflexivity.
Qed.

Lemma spec_TabID_shape id : spec_TabID id -> exists p q, tab_shape id p q.
Proof.
  intros (w & t & E & [Hw Xw] & Ht & Xt). exists w, t.
  unfold tab_shape. rewrite Hw. auto.
Qed.

Lemma parseTabID_cases id :
  (exists p q, tab_shape id p q /\ parseTabID id = (p, q, None)) \/
  ((forall p q, ~ tab_shape id p q) /\
   parseTabID id = ("", "", Some ("illegal tab ID format " ++ quoted id))).
Proof.
  unfold parseTabID. destruct (FindStringSubmatch_inv id) as [E | (p & q & E & Hs)].
  - right. rewrite E. split; [|reflexivity].
    intros p q Hs. apply FindStringSubmatch_some in Hs. congruence.
  - left. exists p, q. rewrite E. split; [exact Hs | reflexivity].
Qed.

End TabRegexp.

(** C1 (amended): [parseTabID] succeeds exactly on the strings made of a
    window group of eight OR MORE hex digits, one underscore and a tab group
    of exactly eight hex digits, and then returns the two groups; every
    other string is rejected with the format error. *)
Theorem parseTabID_accepts_iff (id : string) :
  (snd (parseTabID id) = None <-> exists p q, tab_shape id p q) /\
  (forall p q, tab_shape id p q -> parseTabID id = (p, q, None)) /\
  ((forall p q, ~ tab_shape id p q) ->
   parseTabID id = ("", "", Some ("illegal tab ID format " ++ quoted id))).
Proof.
  destruct (parseTabID_cases id) as [(p & q & Hs & E) | [Hn E]].
  - split; [|split].
    + rewrite E. split; [eauto | reflexivity].
    + intros p' q' Hs'. unfold parseTabID.
      now rewrite (FindStringSubmatch_some _ _ _ Hs').
    + intros Hn. now destruct (Hn p q).
  - split; [|split].
    + rewrite E. split; [discriminate | intros (p & q & Hs); now destruct (Hn p q)].
    + intros p q Hs. now destruct (Hn p q).
    + intros _. exact E.
Qed.

(** C1 as stated fails: a ten-digit window group is accepted although the
    string is no [TabID] of the grammar. *)
Lemma parseTabID_accepts_long_window :
  parseTabID "0123456789_abcdef01" = ("0123456789", "abcdef01", None) /\
  ~ spec_TabID "0123456789_abcdef01".
Proof.
  split; [reflexivity|].
  intros H. apply spec_TabID_length in H. discriminate H.
Qed.

(** ** Sessions *)

Definition Duration := Z.
Definition Second : Duration := 1000000000.

(** What a session's [cancel] does when called: a window's cancel function
    tears its browser context down, a tab's closes the page only. *)
Inductive cancelFunc : Type :=
| CancelContext (h : nat)
| ClosePage (h : nat).

(** [type session struct { ctx; cancel; id; last; timeout }].
    Contexts are handles handed out by the browser driver; [None] is nil. *)
Record session : Type := mkSession {
  ses_ctx : option nat;
  ses_cancel : option cancelFunc;
  ses_id : string;
  ses_last : Z;
  ses_timeout : Duration
}.

(** The zero value [session{}]. *)
Definition session_zero : session := mkSession None None "" 0 0.

Definition set_timeout (t : Duration) (s : session) : session :=
  mkSession (ses_ctx s) (ses_cancel s) (ses_id s) (ses_last s) t.
Definition set_last (now : Z) (s : session) : session :=
  mkSession (ses_ctx s) (ses_cancel s) (ses_id s) now (ses_timeout s).

(** The state owned by the [AllocateSessions] goroutine, with the parts of
    the outside world its handlers touch: the global random source (an
    oracle and the number of draws made), the driver's context allocator,
    the lines written to stderr and the cancel functions already called. *)
Record registry : Type := mkRegistry {
  windows : gmap string session;
  tabs : gmap string session;
  rand_source : nat -> Z;
  rand_draws : nat;
  next_ctx : nat;
  stderr : list string;
  cancelled : list cancelFunc
}.

Definition with_windows (m : gmap string session) (st : registry) : registry :=
  mkRegistry m (tabs st) (rand_source st) (rand_draws st) (next_ctx st) (stderr st) (cancelled st).
Definition with_tabs (m : gmap string session) (st : registry) : registry :=
  mkRegistry (windows st) m (rand_source st) (rand_draws st) (next_ctx st) (stderr st) (cancelled st).
Definition eprint (line : string) (st : registry) : registry :=
  mkRegistry (windows st) (tabs st) (rand_source st) (rand_draws st) (next_ctx st)
             (stderr st ++ [line]) (cancelled st).

(** [rand.Int63()]. *)
Definition rand_Int63 (st : registry) : Z * registry :=
  (rand_source st (rand_draws st),
   mkRegistry (windows st) (tabs st) (rand_source st) (S (rand_draws st)) (next_ctx st)
              (stderr st) (cancelled st)).

(** [chromedp.NewContext]: a fresh context handle. *)
Definition NewContext (st : registry) : nat * registry :=
  (next_ctx st,
   mkRegistry (windows st) (tabs st) (rand_source st) (rand_draws st) (S (next_ctx st))
              (stderr st) (cancelled st)).

(** One lower-case hexadecimal digit. *)
Definition hex_digit (n : Z) : ascii :=
  if n <? 10 then ascii_of_nat (48 + Z.to_nat n) else ascii_of_nat (87 + Z.to_nat n).

(** [fmt.Sprintf("%08x", z)] for [0 <= z < 2^32]: the eight nibbles of [z],
    most significant first. *)
Definition fmt_08x (z : Z) : string :=
  str (List.map (fun i => hex_digit (Z.land (Z.shiftr z (4 * i)) 15)) [7; 6; 5; 4; 3; 2; 1; 0]).

(** The number that a string of lower-case hexadecimal digits writes: what
    an id printed with [%08x] reads back as. *)
Definition hex_digit_value (c : ascii) : Z :=
  let n := Z.of_nat (nat_of_ascii c) in
  if (48 <=? n) && (n <=? 57) then n - 48 else n - 87.
Definition hex_value (s : string) : Z :=
  fold_left (fun acc c => 16 * acc + hex_digit_value c) (chars s) 0.

(** [createSessionID]. *)
Definition createSessionID (st : registry) : string * registry :=
  let '(r, st) := rand_Int63 st in
  (fmt_08x (Z.land r 0xffffffff), st).

(** [createWindow(id)].  Both branches of the [debugMode] test allocate one
    context whose cancel function the window keeps; the persistent dummy tab
    is a second context. *)
Definition createWindow (id : string) (st : registry) : session * registry :=
  let '(h, st) := NewContext st in
  let '(wid, st) :=
    if (String.length id <? 8)%nat then createSessionID st else (id, st) in
  let '(h', st) := NewContext st in
  (mkSession (Some h') (Some (CancelContext h)) wid 0 0, st).

(** [(ses *session) shutdown()]. *)
Definition shutdown (ses : session) (st : registry) : registry :=
  match ses_cancel ses with
  | None =>
      eprint ("Expected non-nil cancelFunc when shutting down tab/window (session "
              ++ ses_id ses ++ ")") st
  | Some c =>
      mkRegistry (windows st) (tabs st) (rand_source st) (rand_draws st) (next_ctx st)
                 (stderr st) (cancelled st ++ [c])
  end.

(** *** The message handlers of [AllocateSessions]

    Each handler is one iteration of the actor's [select] loop; [now] is
    what [time.Now()] returns during it.  A handler that replies returns
    the reply with the new state. *)

(** [case q := <-windowQuery]. *)
Definition on_windowQuery (now : Z) (q : session) (st : registry) : session * registry :=
  let '(w, st) :=
    match windows st !! ses_id q with
    | Some w => (w, st)
    | None =>
        let '(w, st) := createWindow (ses_id q) st in
        (set_timeout (30 * Second) w, st)
    end in
  let w := if ses_timeout q >? ses_timeout w then set_timeout (ses_timeout q) w else w in
  let w := set_last now w in
  (w, with_windows (<[ses_id w := w]> (windows st)) st).

(** [case id := <-windowClose]. *)
Definition on_windowClose (id : string) (st : registry) : registry :=
  match windows st !! id with
  | Some w => let st := shutdown w st in with_windows (delete id (windows st)) st
  | None => st
  end.

(** [case t := <-tabSave]. *)
Definition on_tabSave (t : session) (st : registry) : registry :=
  with_tabs (<[ses_id t := t]> (tabs st)) st.

(** [case id := <-tabLoadQuery]. *)
Definition on_tabLoadQuery (now : Z) (id : string) (st : registry) : session * registry :=
  let reply := default session_zero (tabs st !! id) in
  let st := with_tabs (delete id (tabs st)) st in
  let '(prefix, _, err) := parseTabID id in
  match err with
  | Some e => (reply, eprint ("Tab ID parse error: " ++ e) st)
  | None =>
      match windows st !! prefix with
      | Some w => (reply, with_windows (<[prefix := set_last now w]> (windows st)) st)
      | None => (reply, eprint ("Tab ID (" ++ id ++ ") didn't match any window") st)
      end
  end.

(** The client side of the channels: a send followed by the receive of the
    reply is one handler run. *)
Definition loadWindow (now : Z) (id : string) (timeout : Duration) (st : registry)
  : session * registry :=
  on_windowQuery now (mkSession None None id 0 timeout) st.

Definition loadTab (now : Z) (id : string) (st : registry) : session * registry :=
  on_tabLoadQuery now id st.

Definition saveTab (ses : session) (st : registry) : registry := on_tabSave ses st.

(** The first statement of [createSiblingTabWithTimeout]: the window the
    sibling is created under, reloaded through the registry when the
    requested timeout exceeds the one the caller holds. *)
Definition sibling_owner (now : Z) (ses : session) (timeout : Duration) (st : registry)
  : session * registry :=
  if timeout >? ses_timeout ses then loadWindow now (ses_id ses) timeout st else (ses, st).

(** [(ses session) createSiblingTabWithTimeout(timeout)]. *)
Definition createSiblingTabWithTimeout
  (now : Z) (ses : session) (timeout : Duration) (st : registry) : session * registry :=
  let '(ses, st) := sibling_owner now ses timeout st in
  let '(sid, st) := createSessionID st in
  let id := ses_id ses ++ "_" ++ sid in
  let '(h, st) := NewContext st in
  (mkSession (Some h) (Some (ClosePage h)) id 0 timeout, st).

(** ** Properties of the registry *)

Section RegistryFacts.

Lemma hex_digit_xdigit n : 0 <= n < 16 -> is_xdigit (hex_digit n) = true.
Proof.
  intros H.
  assert (A : forallb (fun k => is_xdigit (hex_digit (Z.of_nat k))) (seq 0 16) = true)
    by reflexivity.
  rewrite forallb_forall in A. specialize (A (Z.to_nat n)).
  rewrite Z2Nat.id in A by lia. apply A. apply in_seq. lia.
Qed.

Lemma nibble_range z i : 0 <= Z.land (Z.shiftr z i) 15 < 16.
Proof.
  change 15 with (Z.ones 4). rewrite Z.land_ones by lia.
  apply Z.mod_pos_bound. reflexivity.
Qed.

(** [%08x] of a masked draw is a window id of the grammar. *)
Lemma fmt_08x_WindowID z : spec_WindowID (fmt_08x z).
Proof.
  unfold spec_WindowID, fmt_08x, all_xdigit. rewrite <- chars_length, chars_str.
  split; [reflexivity|]. cbn [List.map forallb].
  rewrite !hex_digit_xdigit by apply nibble_range. reflexivity.
Qed.

Lemma createSessionID_WindowID st : spec_WindowID (fst (createSessionID st)).
Proof. unfold createSessionID, rand_Int63. cbn. apply fmt_08x_WindowID. Qed.

Lemma hex_digit_value_digit n : 0 <= n < 16 -> hex_digit_value (hex_digit n) = n.
Proof.
  intros H.
  assert (A : forallb (fun k => hex_digit_value (hex_digit (Z.of_nat k)) =? Z.of_nat k)
                      (seq 0 16) = true) by reflexivity.
  rewrite forallb_forall in A. specialize (A (Z.to_nat n)).
  rewrite Z2Nat.id in A by lia. apply Z.eqb_eq, A. apply in_seq. lia.
Qed.

Lemma nibble_div z i : 0 <= i -> Z.land (Z.shiftr z (4 * i)) 15 = (z / 16 ^ i) mod 16.
Proof.
  intros Hi. change 15 with (Z.ones 4). rewrite Z.land_ones by lia.
  rewrite Z.shiftr_div_pow2 by lia. rewrite Z.pow_mul_r by lia. reflexivity.
Qed.

(** [%08x] loses nothing of a 32-bit number: the id reads back as the number
    it was printed from, so two draws that differ in their low 32 bits give
    two ids. *)
Lemma hex_value_fmt_08x z : 0 <= z < 2 ^ 32 -> hex_value (fmt_08x z) = z.
Proof.
  intros Hz. unfold hex_value, fmt_08x. rewrite chars_str. cbn [List.map fold_left].
  rewrite !hex_digit_value_digit by apply nibble_range.
  rewrite !nibble_div by lia.
  change (16 ^ 0) with 1. change (16 ^ 1) with 16. change (16 ^ 2) with 256.
  change (16 ^ 3) with 4096. change (16 ^ 4) with 65536. change (16 ^ 5) with 1048576.
  change (16 ^ 6) with 16777216. change (16 ^ 7) with 268435456.
  change (2 ^ 32) with 4294967296 in Hz.
  Z.div_mod_to_equations. lia.
Qed.

Lemma low_32_bits r : Z.land r 0xffffffff = r mod 2 ^ 32.
Proof. change 0xffffffff with (Z.ones 32). apply Z.land_ones. lia. Qed.

(** What one call of [createSessionID] is: the low 32 bits of the next draw
    of the random source, printed as eight hexadecimal digits; the draw is
    used up. *)
Lemma createSessionID_draw st :
  spec_WindowID (fst (createSessionID st)) /\
  hex_value (fst (createSessionID st)) = (rand_source st (rand_draws st) mod 2 ^ 32) /\
  rand_draws (snd (createSessionID st)) = S (rand_draws st) /\
  rand_source (snd (createSessionID st)) = rand_source st /\
  next_ctx (snd (createSessionID st)) = next_ctx st /\
  cancelled (snd (createSessionID st)) = cancelled st.
Proof.
  split; [apply createSessionID_WindowID|].
  unfold createSessionID, rand_Int63. cbn [fst snd rand_draws rand_source next_ctx cancelled].
  split; [|repeat split].
  rewrite low_32_bits. apply hex_value_fmt_08x. apply Z.mod_pos_bound. reflexivity.
Qed.

Lemma createSessionID_maps st :
  windows (snd (createSessionID st)) = windows st /\
  tabs (snd (createSessionID st)) = tabs st /\
  stderr (snd (createSessionID st)) = stderr st.
Proof. repeat split. Qed.

Lemma raise_timeout (t0 t : Z) : (if t >? t0 then t else t0) = Z.max t0 t.
Proof. rewrite Z.gtb_ltb. destruct (Z.ltb_spec t0 t); lia. Qed.

Lemma createWindow_id id st :
  ses_id (fst (createWindow id st)) =
  if (String.length id <? 8)%nat
  then fmt_08x (Z.land (rand_source st (rand_draws st)) 0xffffffff)
  else id.
Proof.
  unfold createWindow, NewContext, createSessionID, rand_Int63.
  destruct (String.length id <? 8)%nat; reflexivity.
Qed.

Lemma createWindow_maps id st :
  windows (snd (createWindow id st)) = windows st /\
  tabs (snd (createWindow id st)) = tabs st /\
  stderr (snd (createWindow id st)) = stderr st.
Proof.
  unfold createWindow, NewContext, createSessionID, rand_Int63.
  destruct (String.length id <? 8)%nat; repeat split.
Qed.

(** The window [createWindow] hands back and what it uses up: two context
    handles, and one draw of the random source exactly when it generates the
    id. *)
Lemma createWindow_new id st :
  let w := fst (createWindow id st) in
  let st' := snd (createWindow id st) in
  ses_cancel w = Some (CancelContext (next_ctx st)) /\
  ses_ctx w = Some (S (next_ctx st)) /\
  next_ctx st' = S (S (next_ctx st)) /\
  rand_source st' = rand_source st /\
  cancelled st' = cancelled st /\
  ((String.length id < 8)%nat ->
     ses_id w = fst (createSessionID st) /\
     spec_WindowID (ses_id w) /\
     hex_value (ses_id w) = (rand_source st (rand_draws st) mod 2 ^ 32) /\
     rand_draws st' = S (rand_draws st)) /\
  ((8 <= String.length id)%nat -> ses_id w = id /\ rand_draws st' = rand_draws st).
Proof.
  cbn zeta. unfold createWindow, NewContext.
  destruct (Nat.ltb_spec (String.length id) 8) as [Hlt | Hge].
  - pose proof (createSessionID_draw
                  (mkRegistry (windows st) (tabs st) (rand_source st) (rand_draws st)
                              (S (next_ctx st)) (stderr st) (cancelled st)))
      as (Hx & Hv & Hd & Hs & Hn & Hc).
    unfold createSessionID, rand_Int63 in *.
    cbn [fst snd ses_cancel ses_ctx ses_id next_ctx rand_source rand_draws cancelled] in *.
    repeat split; try assumption; try lia; try (apply Hx).
  - cbn [fst snd ses_cancel ses_ctx ses_id next_ctx rand_source rand_draws cancelled].
    repeat split; lia.
Qed.

(** A window query leaves the tabs, the log and the cancel functions alone. *)
Lemma on_windowQuery_frame now q st :
  tabs (snd (on_windowQuery now q st)) = tabs st /\
  stderr (snd (on_windowQuery now q st)) = stderr st /\
  cancelled (snd (on_windowQuery now q st)) = cancelled st /\
  rand_source (snd (on_windowQuery now q st)) = rand_source st /\
  match windows st !! ses_id q with
  | Some _ =>
      rand_draws (snd (on_windowQuery now q st)) = rand_draws st /\
      next_ctx (snd (on_windowQuery now q st)) = next_ctx st
  | None =>
      rand_draws (snd (on_windowQuery now q st)) = rand_draws (snd (createWindow (ses_id q) st)) /\
      next_ctx (snd (on_windowQuery now q st)) = next_ctx (snd (createWindow (ses_id q) st))
  end.
Proof.
  unfold on_windowQuery. destruct (windows st !! ses_id q) as [w0|].
  - repeat split.
  - pose proof (createWindow_maps (ses_id q) st) as (_ & Ht & He).
    pose proof (createWindow_new (ses_id q) st) as (_ & _ & _ & Hs & Hc & _).
    destruct (createWindow (ses_id q) st) as [w0 st1]. cbn in *. repeat split; assumption.
Qed.

(** The reply of a window query, computed in one piece. *)
Lemma on_windowQuery_reply now q st :
  fst (on_windowQuery now q st) =
  match windows st !! ses_id q with
  | Some w0 => set_last now (set_timeout (Z.max (ses_timeout w0) (ses_timeout q)) w0)
  | None =>
      let w0 := fst (createWindow (ses_id q) st) in
      set_last now (set_timeout (Z.max (30 * Second) (ses_timeout q)) w0)
  end.
Proof.
  unfold on_windowQuery. destruct (windows st !! ses_id q) as [w0|].
  - cbn. rewrite <- raise_timeout.
    destruct (ses_timeout q >? ses_timeout w0); destruct w0; reflexivity.
  - destruct (createWindow (ses_id q) st) as [w0 st1]. cbn.
    rewrite <- raise_timeout. change (30 * Second) with 30000000000.
    destruct (ses_timeout q >? 30000000000); reflexivity.
Qed.

Lemma on_windowQuery_windows now q st :
  let w := fst (on_windowQuery now q st) in
  windows (snd (on_windowQuery now q st)) = <[ses_id w := w]> (windows st).
Proof.
  unfold on_windowQuery. destruct (windows st !! ses_id q) as [w0|].
  - reflexivity.
  - pose proof (createWindow_maps (ses_id q) st) as (Hw & _).
    destruct (createWindow (ses_id q) st) as [w0 st1]. cbn in *. now rewrite Hw.
Qed.

End RegistryFacts.

(** C2 (amended): a window query whose id is in the window map raises that
    window's timeout to the larger of the two and leaves its context, its
    cancel function and its id as they are; one whose id is not in the map
    (the empty id among them) creates a window on two new context handles
    whose timeout is the larger of 30 s and the requested one.  The new
    window's id is the supplied id when that has 8 bytes or more; otherwise
    it is generated: the low 32 bits of the next draw of the random source
    written as eight hexadecimal digits, which uses that draw up.  In both
    cases [last] becomes [now], the window is the reply and it is stored
    under its id; nothing else in the registry changes. *)
Theorem windowQuery_creates_or_raises (now : Z) (q : session) (st : registry) :
  let w := fst (on_windowQuery now q st) in
  let st' := snd (on_windowQuery now q st) in
  ses_last w = now /\
  windows st' !! ses_id w = Some w /\
  windows st' = <[ses_id w := w]> (windows st) /\
  tabs st' = tabs st /\ stderr st' = stderr st /\ cancelled st' = cancelled st /\
  rand_source st' = rand_source st /\
  (forall w0, windows st !! ses_id q = Some w0 ->
     ses_id w = ses_id w0 /\ ses_timeout w = Z.max (ses_timeout w0) (ses_timeout q) /\
     ses_ctx w = ses_ctx w0 /\ ses_cancel w = ses_cancel w0 /\
     rand_draws st' = rand_draws st /\ next_ctx st' = next_ctx st) /\
  (windows st !! ses_id q = None ->
     ses_timeout w = Z.max (30 * Second) (ses_timeout q) /\
     ses_cancel w = Some (CancelContext (next_ctx st)) /\
     ses_ctx w = Some (S (next_ctx st)) /\
     next_ctx st' = S (S (next_ctx st)) /\
     ((String.length (ses_id q) < 8)%nat ->
        ses_id w = fst (createSessionID st) /\ spec_WindowID (ses_id w) /\
        hex_value (ses_id w) = (rand_source st (rand_draws st) mod 2 ^ 32) /\
        rand_draws st' = S (rand_draws st)) /\
     ((8 <= String.length (ses_id q))%nat ->
        ses_id w = ses_id q /\ rand_draws st' = rand_draws st)).
Proof.
  intros w st'. subst w st'.
  pose proof (on_windowQuery_frame now q st) as (Ft & Fe & Fc & Fs & Fd).
  rewrite on_windowQuery_windows. cbn zeta. rewrite lookup_insert_eq.
  rewrite on_windowQuery_reply.
  split; [destruct (windows st !! ses_id q); reflexivity|].
  split; [reflexivity|]. split; [reflexivity|].
  split; [exact Ft|]. split; [exact Fe|]. split; [exact Fc|]. split; [exact Fs|]. split.
  - intros w0 Hw0. rewrite Hw0 in Fd |- *. destruct Fd as [Fd Fn].
    cbn [ses_id ses_timeout ses_ctx ses_cancel set_last set_timeout]. repeat split; assumption.
  - intros Hnone. rewrite Hnone in Fd |- *. destruct Fd as [Fd Fn]. cbn zeta.
    cbn [ses_id ses_timeout ses_ctx ses_cancel set_last set_timeout].
    pose proof (createWindow_new (ses_id q) st) as (Hcan & Hctx & Hnext & _ & _ & Hgen & Hkeep).
    cbn zeta in *.
    split; [reflexivity|]. split; [exact Hcan|]. split; [exact Hctx|].
    split; [now rewrite Fn|]. split.
    + intros Hlt. destruct (Hgen Hlt) as (H1 & H2 & H3 & H4).
      repeat split; try assumption; try (apply H2). now rewrite Fd.
    + intros Hge. destruct (Hkeep Hge) as [H1 H2]. split; [exact H1 | now rewrite Fd].
Qed.

(** The empty registry with a given random source. *)
Definition registry_init (src : nat -> Z) : registry :=
  mkRegistry ∅ ∅ src 0 0 [] [].

(** C2 as stated fails: an unknown id of eight bytes is adopted as it is (it
    need not be hexadecimal), and a requested timeout above 30 s replaces the
    default at once. *)
Lemma windowQuery_adopts_unknown_id :
  let q := mkSession None None "zzzzzzzz" 0 (60 * Second) in
  let st := registry_init (fun _ => 0) in
  windows st !! ses_id q = None /\
  ses_id (fst (on_windowQuery 5 q st)) = "zzzzzzzz" /\
  all_xdigit (ses_id (fst (on_windowQuery 5 q st))) = false /\
  ses_timeout (fst (on_windowQuery 5 q st)) = 60 * Second.
Proof. cbn zeta. split; [reflexivity|]. rewrite on_windowQuery_reply. repeat split. Qed.

(** C4 (amended): only TAB_LOAD looks the window prefix up.  Loading a
    well-formed tab id whose window prefix is not in the window map writes
    the warning to stderr, removes the tab from the tab map and still
    delivers the stored tab (or the empty session) as the reply.  TAB_SAVE
    makes no check at all: it stores the tab under its id, writes nothing and
    leaves the windows alone. *)
Theorem tab_messages_window_check (now : Z) (st : registry) :
  (forall t,
     tabs (on_tabSave t st) = <[ses_id t := t]> (tabs st) /\
     windows (on_tabSave t st) = windows st /\
     stderr (on_tabSave t st) = stderr st) /\
  (forall id prefix suffix,
     parseTabID id = (prefix, suffix, None) ->
     windows st !! prefix = None ->
     fst (on_tabLoadQuery now id st) = default session_zero (tabs st !! id) /\
     tabs (snd (on_tabLoadQuery now id st)) = delete id (tabs st) /\
     windows (snd (on_tabLoadQuery now id st)) = windows st /\
     stderr (snd (on_tabLoadQuery now id st)) =
       (stderr st ++ [("Tab ID (" ++ id ++ ") didn't match any window")%string])%list).
Proof.
  split.
  - intros t. repeat split.
  - intros id prefix suffix Hp Hw. unfold on_tabLoadQuery. rewrite Hp.
    cbn [windows with_tabs]. rewrite Hw. repeat split.
Qed.

(** C4 as stated fails for TAB_SAVE: a tab whose window is unknown is stored
    and no warning is written. *)
Lemma tabSave_unknown_window_is_stored :
  let t := mkSession (Some 7%nat) (Some (ClosePage 7)) "aaaaaaaa_bbbbbbbb" 0 Second in
  let st := registry_init (fun _ => 0) in
  parseTabID (ses_id t) = ("aaaaaaaa", "bbbbbbbb", None) /\
  windows st !! "aaaaaaaa" = None /\
  stderr (on_tabSave t st) = [] /\
  tabs (on_tabSave t st) !! ses_id t = Some t.
Proof. cbn zeta. repeat split. Qed.

(** C5: the tab made by [createSiblingTabWithTimeout] carries the requested
    timeout, and that never exceeds the timeout of the window it is created
    under.  When the requested timeout is within the one the caller holds,
    the tab is made under the caller's window and the window map is left as
    it is.  When it is larger, the window is first reloaded through the
    registry: the registry that [createSiblingTabWithTimeout] leaves behind
    holds the owning window, under its id, with a timeout of at least the
    requested one.  So whenever the caller's copy of a stored window is not
    ahead of the stored one, the window stored under the tab's prefix
    afterwards allows at least the tab's timeout. *)
Theorem sibling_timeout_within_window (now : Z) (ses : session) (t : Duration) (st : registry) :
  let tab := fst (createSiblingTabWithTimeout now ses t st) in
  let st' := snd (createSiblingTabWithTimeout now ses t st) in
  ses_timeout tab = t /\
  (t <= ses_timeout ses ->
     ses_timeout tab <= ses_timeout ses /\
     ses_id tab = ses_id ses ++ "_" ++ fst (createSessionID st) /\
     windows st' = windows st /\ tabs st' = tabs st) /\
  (t > ses_timeout ses ->
     let reply := on_windowQuery now (mkSession None None (ses_id ses) 0 t) st in
     let owner := fst reply in
     ses_timeout tab <= ses_timeout owner /\
     ses_id tab = ses_id owner ++ "_" ++ fst (createSessionID (snd reply)) /\
     windows st' !! ses_id owner = Some owner /\
     windows st' = <[ses_id owner := owner]> (windows st) /\
     tabs st' = tabs st /\
     (forall w0, windows st !! ses_id ses = Some w0 ->
        ses_id owner = ses_id w0 /\ ses_timeout owner = Z.max (ses_timeout w0) t)) /\
  (forall w0,
     windows st !! ses_id ses = Some w0 -> ses_id w0 = ses_id ses ->
     ses_timeout ses <= ses_timeout w0 ->
     exists w sid,
       windows st' !! ses_id ses = Some w /\ ses_id w = ses_id ses /\
       ses_id tab = ses_id w ++ "_" ++ sid /\
       ses_timeout tab <= ses_timeout w).
Proof.
  intros tab st'. subst tab st'.
  unfold createSiblingTabWithTimeout, sibling_owner, loadWindow.
  pose proof (on_windowQuery_reply now (mkSession None None (ses_id ses) 0 t) st) as Hr.
  pose proof (on_windowQuery_windows now (mkSession None None (ses_id ses) 0 t) st) as Hw.
  pose proof (on_windowQuery_frame now (mkSession None None (ses_id ses) 0 t) st) as (Ht & _).
  cbn zeta in Hw. cbn [ses_id ses_timeout] in Hr, Hw.
  rewrite Z.gtb_ltb.
  destruct (Z.ltb_spec (ses_timeout ses) t) as [Hlt | Hge].
  - destruct (on_windowQuery now (mkSession None None (ses_id ses) 0 t) st) as [owner st1].
    cbn [fst snd] in *.
    unfold createSessionID, rand_Int63, NewContext.
    cbn [fst snd ses_timeout ses_id windows tabs].
    assert (Hle : t <= ses_timeout owner).
    { rewrite Hr. destruct (windows st !! ses_id ses);
        cbn [ses_timeout set_last set_timeout]; lia. }
    split; [reflexivity|]. split; [lia|]. split.
    + intros _. cbn zeta. cbn [fst snd].
      split; [exact Hle|]. split; [reflexivity|].
      split; [rewrite Hw; apply lookup_insert_eq|]. split; [exact Hw|]. split; [exact Ht|].
      intros w0 Hw0. rewrite Hw0 in Hr. rewrite Hr.
      cbn [ses_id ses_timeout set_last set_timeout]. split; reflexivity.
    + intros w0 Hw0 Hid _. rewrite Hw0 in Hr.
      assert (Ho : ses_id owner = ses_id ses).
      { rewrite Hr. cbn [ses_id set_last set_timeout]. exact Hid. }
      exists owner. eexists. split; [rewrite Hw, Ho; apply lookup_insert_eq|].
      split; [exact Ho|]. split; [reflexivity | exact Hle].
  - unfold createSessionID, rand_Int63, NewContext.
    cbn [fst snd ses_timeout ses_id windows tabs].
    split; [reflexivity|]. split.
    + intros _. repeat split. exact Hge.
    + split; [lia|]. intros w0 Hw0 Hid Hle.
      exists w0. eexists. split; [exact Hw0|]. split; [exact Hid|].
      split; [rewrite Hid; reflexivity | lia].
Qed.

(** ** The request interpreter: data *)

(** [type Action []string]. *)
Definition Action := list string.

(** The chromedp actions a request compiles to.  In the source they are
    closures; here each closure is a constructor holding what it captured.
    A captured pointer into the request is the index it points at: [blk] is
    the query block whose [cont] flag or output slot the closure writes. *)
Inductive cdpAction : Type :=
| act_click (sel : string)
| act_elementExists (sel : string) (blk : nat)
| act_elementVisible (sel : string) (blk : nat)
| act_evaluate (cmd : string) (blk : nat)
| act_defaultWhile (blk : nat)
| act_enableLifecycleEvents
| act_hideElements (sel : string)
| act_navigate (url : string)
| act_outerHTML (blk : nat)
| act_printToPDF (margins : list float)
| act_removeElements (sel : string)
| act_screenshot (args : gmap string string)
| act_scrollToBottom
| act_listen (events : list string)
| act_ScrollIntoView (sel : string)
| act_Sleep (d : Duration)
| act_EmulateViewport (width height : Z) (landscape portrait mobile : bool) (scale : option float)
| act_networkEnable.

(** [type Result struct]. *)
Record Result : Type := mkResult {
  res_Err : list string;
  res_Out : list (list string);
  res_TabID : string;
  res_WindowID : string;
  res_img : string;
  res_pdf : string
}.

Definition Result_zero : Result := mkResult [] [] "" "" "" "".

(** [type QueryBlock struct]. *)
Record QueryBlock : Type := mkQueryBlock {
  qb_Actions : list Action;
  qb_Repeat : option Z;
  qb_While : option Action;
  qb_cdpActions : list cdpAction;
  qb_cdpWhile : option cdpAction;
  qb_cont : bool;
  qb_pos : nat
}.

(** [type ViewportBlock struct]. *)
Record ViewportBlock : Type := mkViewportBlock {
  vp_Width : Z;
  vp_Height : Z;
  vp_Orientation : option string;
  vp_Mobile : bool;
  vp_Scale : option float
}.

(** [type Request struct]: the decoded JSON body and the unexported fields
    the parser fills in.  [Query] holds the blocks themselves (the source
    holds non-nil pointers to them). *)
Record Request : Type := mkRequest {
  Query : list QueryBlock;
  EmulateViewport : option ViewportBlock;
  ForwardUserAgent : bool;
  RenderDelay : string;
  ReuseTab : bool;
  ReuseWindow : bool;
  SessionID : string;
  Timeout : string;
  oldTabID : string;
  pos : nat;
  renderDelay : Duration;
  res : Result;
  timeout : Duration
}.

Definition set_Query (q : list QueryBlock) (r : Request) : Request :=
  mkRequest q (EmulateViewport r) (ForwardUserAgent r) (RenderDelay r) (ReuseTab r)
            (ReuseWindow r) (SessionID r) (Timeout r) (oldTabID r) (pos r) (renderDelay r)
            (res r) (timeout r).
Definition set_SessionID (s : string) (r : Request) : Request :=
  mkRequest (Query r) (EmulateViewport r) (ForwardUserAgent r) (RenderDelay r) (ReuseTab r)
            (ReuseWindow r) s (Timeout r) (oldTabID r) (pos r) (renderDelay r)
            (res r) (timeout r).
Definition set_oldTabID (s : string) (r : Request) : Request :=
  mkRequest (Query r) (EmulateViewport r) (ForwardUserAgent r) (RenderDelay r) (ReuseTab r)
            (ReuseWindow r) (SessionID r) (Timeout r) s (pos r) (renderDelay r)
            (res r) (timeout r).
Definition set_pos (i : nat) (r : Request) : Request :=
  mkRequest (Query r) (EmulateViewport r) (ForwardUserAgent r) (RenderDelay r) (ReuseTab r)
            (ReuseWindow r) (SessionID r) (Timeout r) (oldTabID r) i (renderDelay r)
            (res r) (timeout r).
Definition set_renderDelay (d : Duration) (r : Request) : Request :=
  mkRequest (Query r) (EmulateViewport r) (ForwardUserAgent r) (RenderDelay r) (ReuseTab r)
            (ReuseWindow r) (SessionID r) (Timeout r) (oldTabID r) (pos r) d
            (res r) (timeout r).
Definition set_res (x : Result) (r : Request) : Request :=
  mkRequest (Query r) (EmulateViewport r) (ForwardUserAgent r) (RenderDelay r) (ReuseTab r)
            (ReuseWindow r) (SessionID r) (Timeout r) (oldTabID r) (pos r) (renderDelay r)
            x (timeout r).
Definition set_req_timeout (d : Duration) (r : Request) : Request :=
  mkRequest (Query r) (EmulateViewport r) (ForwardUserAgent r) (RenderDelay r) (ReuseTab r)
            (ReuseWindow r) (SessionID r) (Timeout r) (oldTabID r) (pos r) (renderDelay r)
            (res r) d.

Definition set_Actions (a : list Action) (b : QueryBlock) : QueryBlock :=
  mkQueryBlock a (qb_Repeat b) (qb_While b) (qb_cdpActions b) (qb_cdpWhile b) (qb_cont b) (qb_pos b).
Definition set_Repeat (n : option Z) (b : QueryBlock) : QueryBlock :=
  mkQueryBlock (qb_Actions b) n (qb_While b) (qb_cdpActions b) (qb_cdpWhile b) (qb_cont b) (qb_pos b).
Definition set_cdpActions (a : list cdpAction) (b : QueryBlock) : QueryBlock :=
  mkQueryBlock (qb_Actions b) (qb_Repeat b) (qb_While b) a (qb_cdpWhile b) (qb_cont b) (qb_pos b).
Definition set_cdpWhile (a : option cdpAction) (b : QueryBlock) : QueryBlock :=
  mkQueryBlock (qb_Actions b) (qb_Repeat b) (qb_While b) (qb_cdpActions b) a (qb_cont b) (qb_pos b).
Definition set_cont (c : bool) (b : QueryBlock) : QueryBlock :=
  mkQueryBlock (qb_Actions b) (qb_Repeat b) (qb_While b) (qb_cdpActions b) (qb_cdpWhile b) c (qb_pos b).
Definition set_block_pos (i : nat) (b : QueryBlock) : QueryBlock :=
  mkQueryBlock (qb_Actions b) (qb_Repeat b) (qb_While b) (qb_cdpActions b) (qb_cdpWhile b) (qb_cont b) i.

Definition set_Err (x : list string) (s : Result) : Result :=
  mkResult x (res_Out s) (res_TabID s) (res_WindowID s) (res_img s) (res_pdf s).
Definition set_Out (x : list (list string)) (s : Result) : Result :=
  mkResult (res_Err s) x (res_TabID s) (res_WindowID s) (res_img s) (res_pdf s).
Definition set_TabID (x : string) (s : Result) : Result :=
  mkResult (res_Err s) (res_Out s) x (res_WindowID s) (res_img s) (res_pdf s).
Definition set_WindowID (x : string) (s : Result) : Result :=
  mkResult (res_Err s) (res_Out s) (res_TabID s) x (res_img s) (res_pdf s).
Definition set_img (x : string) (s : Result) : Result :=
  mkResult (res_Err s) (res_Out s) (res_TabID s) (res_WindowID s) x (res_pdf s).
Definition set_pdf (x : string) (s : Result) : Result :=
  mkResult (res_Err s) (res_Out s) (res_TabID s) (res_WindowID s) (res_img s) x.

Definition MaxRenderDelay : Duration := 10 * Second.
Definition MaxTimeout : Duration := 120 * Second.

Definition DefaultPageloadEvents : list string :=
  ["DOMContentLoaded"; "firstMeaningfulPaint"; "load"; "networkAlmostIdle"].

(** [(res *Result) Type()]. *)
Definition Result_Type (s : Result) : string :=
  if negb (String.length (res_pdf s) =? 0)%nat then "pdf"
  else if negb (String.length (res_img s) =? 0)%nat then "png"
  else "json".

(** *** Methods of [Action] *)

Definition Arg (xa : Action) (n : nat) : string := nth n xa "".
Definition Args (xa : Action) : list string := tl xa.
Definition Name (xa : Action) : string := Arg xa 0.

(** [strings.Contains(s, "'")]. *)
Definition has_apostrophe (s : string) : bool :=
  existsb (Ascii.eqb "'"%char) (chars s).

(** [strings.Join]. *)
Fixpoint Join (l : list string) (sep : string) : string :=
  match l with
  | [] => ""
  | [x] => x
  | x :: rest => x ++ sep ++ Join rest sep
  end.

(** [(xa Action) MustBeNonEmpty()]. *)
Definition MustBeNonEmpty (xa : Action) : error :=
  if String.eqb (Name xa) "" then Some "[0] must contain the name of an action"
  else
    match List.find (fun p => String.eqb (snd p) "") (imap (fun i a => (i, a)) (Args xa)) with
    | Some (i, _) =>
        Some ("[" ++ pretty (Z.of_nat i + 1) ++ "] must contain a non-empty argument")
    | None => None
    end.

(** [(xa Action) MustArgCount(ns ...int)]. *)
Definition MustArgCount (xa : Action) (ns : list nat) : error :=
  match ns with
  | [] =>
      if (List.length xa =? 0)%nat then Some (Name xa ++ ": not enough arguments") else None
  | [n] =>
      if (List.length (Args xa) <? n)%nat then Some (Name xa ++ ": not enough arguments")
      else if (n <? List.length (Args xa))%nat
           then Some (Name xa ++ ": too many arguments (" ++ quoted (Arg xa (n + 1)) ++ ")")
           else None
  | _ =>
      if existsb (fun n => (n =? List.length (Args xa))%nat) ns then None
      else Some (Name xa ++ ": needs " ++ Join (List.map (fun n => pretty (Z.of_nat n)) (removelast ns)) ", "
                 ++ " or " ++ pretty (Z.of_nat (List.last ns 0%nat)) ++ " arguments")
  end.

(** The body of the loop of [NamedArgs]: later pairs overwrite earlier ones. *)
Fixpoint named_pairs (xb : list string) (args : gmap string string) : gmap string string :=
  match xb with
  | k :: v :: rest => named_pairs rest (<[k := v]> args)
  | _ => args
  end.

(** [(xa Action) NamedArgs(offset)]; the nil map of the error returns is the
    empty map. *)
Definition NamedArgs (xa : Action) (offset : nat) : gmap string string * error :=
  if (List.length xa <? offset)%nat then (∅, Some (Name xa ++ ": offset larger than arg list"))
  else
    let xb := drop offset xa in
    if negb (List.length xb mod 2 =? 0)%nat
    then (∅, Some (Name xa ++ ": expected even number of args"))
    else (named_pairs xb ∅, None).

(** [validEvent]. *)
Definition validEvent (event : string) : bool :=
  existsb (String.eqb event)
    ["DOMContentLoaded"; "firstContentfulPaint"; "firstImagePaint"; "firstMeaningfulPaint";
     "firstMeaningfulPaintCandidate"; "firstPaint"; "init"; "load"; "networkAlmostIdle";
     "networkIdle"].

(** [parseEvents]. *)
Definition parseEvents (events : list string) : list string * error :=
  if (List.length events =? 0)%nat then (DefaultPageloadEvents, None)
  else
    match List.find (fun p => negb (validEvent (snd p))) (imap (fun i e => (i, e)) events) with
    | Some (i, event) =>
        (events, Some ("arg " ++ pretty (Z.of_nat i) ++ " contains unknown event " ++ quoted event))
    | None => (events, None)
    end.

(** ** The request interpreter: parsing

    The parse methods have the request as their receiver and mutate it.
    They are state transformers on [Request]; a method returning [error]
    returns it next to the new request.  Indexing a slice out of range is a
    run-time panic, which is an outcome of its own. *)

Inductive result (A : Type) : Type :=
| Ret (a : A) (r : Request)
| Panicked (why : string).
Arguments Ret {A} a r.
Arguments Panicked {A} why.

Definition M (A : Type) : Type := Request -> result A.

Definition ret {A} (a : A) : M A := fun r => Ret a r.
Definition bind {A B} (m : M A) (k : A -> M B) : M B :=
  fun r => match m r with Ret a r' => k a r' | Panicked why => Panicked why end.
Definition get : M Request := fun r => Ret r r.
Definition modify (f : Request -> Request) : M unit := fun r => Ret tt (f r).
Definition panic {A} (why : string) : M A := fun _ => Panicked why.

Notation "'letM' x ':=' m 'in' k" := (bind m (fun x => k))
  (at level 10, x name, m at level 100, k at level 200, only parsing).
Notation "'doM' m 'in' k" := (bind m (fun _ => k))
  (at level 10, m at level 100, k at level 200, only parsing).
(** [err = m; if err != nil { return err }; k]. *)
Notation "'checkM' m 'in' k" :=
  (bind m (fun e : error => match e with Some _ => ret e | None => k end))
  (at level 10, m at level 100, k at level 200, only parsing).

(** [r.Query[r.pos]], panicking when the index is out of range. *)
Definition current_block : M QueryBlock :=
  letM r := get in
  match Query r !! pos r with
  | Some block => ret block
  | None => panic "index out of range"
  end.

(** Assignment through the pointer [r.Query[i]]. *)
Definition update_block (i : nat) (f : QueryBlock -> QueryBlock) : M unit :=
  modify (fun r => set_Query (alter f i (Query r)) r).

(** [(r *Request) appendActions(actions...)]. *)
Definition appendActions (actions : list cdpAction) : M unit :=
  letM _ := current_block in
  letM r := get in
  update_block (pos r) (fun block => set_cdpActions (qb_cdpActions block ++ actions) block).

(** [(r *Request) newTab()]. *)
Definition newTab (r : Request) : bool := String.eqb (oldTabID r) "".

(** [(r *Request) hasListeningEvents()]. *)
Definition hasListeningEvents (r : Request) : bool :=
  existsb (fun block => existsb (fun xa => String.eqb (Name xa) "listen") (qb_Actions block))
          (Query r).

Section Parsing.

(** Library functions the parser calls, as it finds them:
    [time.ParseDuration], [url.ParseRequestURI] (its error only) and
    [strconv.ParseFloat(_, 64)]. *)
Variable ParseDuration : string -> Duration * error.
Variable ParseRequestURI : string -> error.
Variable ParseFloat : string -> float * error.

(** The four built-in selector lists, joined with ", " by [init]. *)
Variable infoBoxSelector infoSectionSelector navButtonSelector navSectionSelector : string.

(** [(r *Request) parseEmulateViewport()]. *)
Definition parseEmulateViewport : M error :=
  letM r := get in
  match EmulateViewport r with
  | None => ret None
  | Some vp =>
      if vp_Width vp =? 0 then ret (Some "emulate_viewport.width: field must be non-zero")
      else if vp_Height vp =? 0 then ret (Some "emulate_viewport.height: field must be non-zero")
      else
        let orientation_err :=
          match vp_Orientation vp with
          | None => None
          | Some orient =>
              if String.eqb orient "landscape" then None
              else if String.eqb orient "portrait" then None
              else Some ("emulate_viewport: unknown orientation " ++ quoted orient)
          end in
        match orientation_err with
        | Some e => ret (Some e)
        | None =>
            let landscape := bool_decide (vp_Orientation vp = Some "landscape") in
            let portrait := bool_decide (vp_Orientation vp = Some "portrait") in
            doM appendActions [act_EmulateViewport (vp_Width vp) (vp_Height vp)
                                 landscape portrait (vp_Mobile vp) (vp_Scale vp)] in
            ret None
        end
  end.

(** [(r *Request) parseRenderDelay()]. *)
Definition parseRenderDelay : M error :=
  letM r := get in
  if String.eqb (RenderDelay r) "" then ret (Some "global_render_delay is empty or missing")
  else
    let '(delay, err) := ParseDuration (RenderDelay r) in
    match err with
    | Some e => ret (Some ("invalid global_render_delay: " ++ e))
    | None =>
        let delay := if delay >? MaxRenderDelay then MaxRenderDelay else delay in
        doM modify (set_renderDelay delay) in
        ret None
    end.

(** [(r *Request) parseTimeout()]. *)
Definition parseTimeout : M error :=
  letM r := get in
  if String.eqb (Timeout r) "" then
    doM modify (set_req_timeout (20 * Second)) in
    ret None
  else
    let '(timeout, err) := ParseDuration (Timeout r) in
    match err with
    | Some e => ret (Some ("invalid timeout: " ++ e))
    | None =>
        let timeout := if timeout >? MaxTimeout then MaxTimeout else timeout in
        doM modify (set_req_timeout timeout) in
        ret None
    end.

(** [(r *Request) parseRepeat()]. *)
Definition parseRepeat : M error :=
  letM block := current_block in
  letM r := get in
  doM (match qb_Repeat block with
       | None => update_block (pos r) (set_Repeat (Some 1))
       | Some _ => ret tt
       end) in
  letM block := current_block in
  match qb_Repeat block with
  | None => panic "nil pointer dereference"
  | Some n =>
      if n <? 0 then ret (Some ("negative value (" ++ pretty n ++ ") not allowed"))
      else ret None
  end.

(** [(r *Request) parseWhile(xa)]. *)
Definition parseWhile (xa : option Action) : M error :=
  letM _ := current_block in
  letM r := get in
  match xa with
  | None =>
      doM update_block (pos r) (set_cdpWhile (Some (act_defaultWhile (pos r)))) in
      ret None
  | Some xa =>
      match MustBeNonEmpty xa with
      | Some e => ret (Some e)
      | None =>
          if String.eqb (Name xa) "element_exists" then
            match MustArgCount xa [1%nat] with
            | Some e => ret (Some e)
            | None =>
                doM update_block (pos r)
                      (set_cdpWhile (Some (act_elementExists (Arg xa 1) (pos r)))) in
                ret None
            end
          else if String.eqb (Name xa) "element_visible" then
            match MustArgCount xa [1%nat] with
            | Some e => ret (Some e)
            | None =>
                if has_apostrophe (Arg xa 1)
                then ret (Some ("element_visible selector contains " ++ quoted "'"))
                else
                  doM update_block (pos r)
                        (set_cdpWhile (Some (act_elementVisible (Arg xa 1) (pos r)))) in
                  ret None
            end
          else ret (Some ("unknown while action " ++ quoted (Name xa)))
      end
  end.

(** [&r.res.Out[r.pos]]: the output slot of the current block. *)
Definition out_slot : M nat :=
  letM r := get in
  if (pos r <? List.length (res_Out (res r)))%nat then ret (pos r)
  else panic "index out of range".

(** The loop of [print_to_pdf] over its arguments: [margins[i]] is filled
    until a value fails to parse. *)
Fixpoint parse_margins (i : nat) (vs : list string) (margins : list float)
  : list float * error :=
  match vs with
  | [] => (margins, None)
  | v :: rest =>
      let '(x, err) := ParseFloat v in
      let margins := <[i := x]> margins in
      match err with
      | Some e => (margins, Some ("print_to_pdf: expected floating point margins: " ++ e))
      | None => parse_margins (S i) rest margins
      end
  end.

(** [(r *Request) parseAction(xa)]. *)
Definition parseAction (xa : Action) : M error :=
  match MustBeNonEmpty xa with
  | Some e => ret (Some e)
  | None =>
      let name := Name xa in
      let arity (ns : list nat) (k : M error) : M error :=
        match MustArgCount xa ns with Some e => ret (Some e) | None => k end in
      if String.eqb name "click" then
        arity [1%nat] (doM appendActions [act_click (Arg xa 1)] in ret None)
      else if String.eqb name "eval" then
        arity [1%nat] (letM slot := out_slot in
                       doM appendActions [act_evaluate (Arg xa 1) slot] in ret None)
      else if String.eqb name "hide_nav_buttons" then
        arity [0%nat] (doM appendActions [act_hideElements navButtonSelector] in ret None)
      else if String.eqb name "listen" then
        let '(events, err) := parseEvents (Args xa) in
        match err with
        | Some e => ret (Some ("listen: " ++ e))
        | None => doM appendActions [act_listen events] in ret None
        end
      else if String.eqb name "load_tab" then
        arity [1%nat]
          (ret (Some "load_tab must be the first action of the first action block"))
      else if String.eqb name "navigate" then
        arity [1%nat]
          (match ParseRequestURI (Arg xa 1) with
           | Some e => ret (Some ("navigate: non-URL argument: " ++ e))
           | None => doM appendActions [act_navigate (Arg xa 1)] in ret None
           end)
      else if String.eqb name "outer_html" then
        arity [0%nat] (letM slot := out_slot in
                       doM appendActions [act_outerHTML slot] in ret None)
      else if String.eqb name "print_to_pdf" then
        arity [0%nat; 4%nat]
          (let '(margins, err) := parse_margins 0 (Args xa) (replicate 4 0%float) in
           match err with
           | Some e => ret (Some e)
           | None => doM appendActions [act_printToPDF margins] in ret None
           end)
      else if String.eqb name "remove" then
        if (List.length (Args xa) =? 0)%nat
        then ret (Some "remove: expected at least one argument")
        else
          match List.find (fun p => has_apostrophe (snd p)) (imap (fun i a => (i, a)) (Args xa)) with
          | Some (i, _) =>
              ret (Some ("remove[" ++ pretty (Z.of_nat i) ++ "]: selector contains " ++ quoted "'"))
          | None => doM appendActions [act_removeElements (Join (Args xa) ", ")] in ret None
          end
      else if String.eqb name "remove_info_boxes" then
        arity [0%nat] (doM appendActions [act_removeElements infoBoxSelector] in ret None)
      else if String.eqb name "remove_info_sections" then
        arity [0%nat] (doM appendActions [act_removeElements infoSectionSelector] in ret None)
      else if String.eqb name "remove_nav_sections" then
        arity [0%nat] (doM appendActions [act_removeElements navSectionSelector] in ret None)
      else if String.eqb name "screenshot" then
        match NamedArgs xa 1 with
        | (_, Some e) => ret (Some e)
        | (args, None) =>
            if match args !! "element" with Some element => has_apostrophe element | None => false end
            then ret (Some ("element contains " ++ quoted "'"))
            else if match args !! "padding" with Some padding => has_apostrophe padding | None => false end
            then ret (Some ("padding contains " ++ quoted "'"))
            else doM appendActions [act_screenshot args] in ret None
        end
      else if String.eqb name "scroll" then
        arity [0%nat; 1%nat]
          (if (List.length (Args xa) =? 0)%nat
           then doM appendActions [act_scrollToBottom] in ret None
           else doM appendActions [act_ScrollIntoView (Arg xa 1)] in ret None)
      else if String.eqb name "sleep" then
        arity [0%nat; 1%nat]
          (letM r := get in
           if (List.length (Args xa) =? 0)%nat
           then doM appendActions [act_Sleep (renderDelay r)] in ret None
           else
             let '(delay, err) := ParseDuration (Arg xa 1) in
             match err with
             | Some e => ret (Some ("sleep: invalid duration: " ++ e))
             | None => doM appendActions [act_Sleep delay] in ret None
             end)
      else ret (Some ("unknown action name " ++ quoted name))
  end.

(** The inner loop of [parseQueryBlocks]:
    [for block.pos, xa = range block.Actions]. *)
Fixpoint parse_actions (i j : nat) (xas : list Action) : M error :=
  match xas with
  | [] => ret None
  | xa :: rest =>
      doM update_block i (set_block_pos j) in
      letM err := parseAction xa in
      match err with
      | Some e =>
          ret (Some ("query[" ++ pretty (Z.of_nat i) ++ "].actions[" ++ pretty (Z.of_nat j)
                     ++ "]: " ++ e))
      | None => parse_actions i (S j) rest
      end
  end.

(** The outer loop of [parseQueryBlocks]: [for r.pos, block = range r.Query],
    over the indices [idx] still to visit. *)
Fixpoint parse_blocks (idx : list nat) : M error :=
  match idx with
  | [] => ret None
  | i :: rest =>
      doM modify (set_pos i) in
      letM block := current_block in
      doM modify (fun r => set_res (set_Out (<[i := []]> (res_Out (res r))) (res r)) r) in
      letM r := get in
      if (List.length (qb_Actions block) =? 0)%nat && newTab r
      then ret (Some ("query[" ++ pretty (Z.of_nat i) ++ "].actions can't be empty"))
      else
        checkM parse_actions i 0 (qb_Actions block) in
        letM err := parseRepeat in
        match err with
        | Some e => ret (Some ("query[" ++ pretty (Z.of_nat i) ++ "].repeat: " ++ e))
        | None =>
            letM err := parseWhile (qb_While block) in
            match err with
            | Some e => ret (Some ("query[" ++ pretty (Z.of_nat i) ++ "].while: " ++ e))
            | None => parse_blocks rest
            end
        end
  end.

(** [(r *Request) parseQueryBlocks()].  The lines it logs to stderr are left
    out. *)
Definition parseQueryBlocks : M error :=
  letM r := get in
  match Query r with
  | [] => ret (Some "query[0] must contain at least one action block")
  | block0 :: _ =>
      match qb_Actions block0 with
      | [] => ret (Some "query[0].actions must contain at least one action")
      | xa0 :: actions =>
          checkM
            (if String.eqb (Name xa0) "load_tab" then
               doM modify (set_oldTabID (Arg xa0 1)) in
               doM update_block 0 (set_Actions actions) in
               let '(prefix, _, err) := parseTabID (Arg xa0 1) in
               match err with
               | Some e => ret (Some ("load_tab: " ++ e))
               | None =>
                   if String.eqb (SessionID r) "" then
                     doM modify (set_SessionID prefix) in ret None
                   else if String.eqb (SessionID r) prefix then ret None
                   else ret (Some ("tab " ++ Arg xa0 1 ++ " is not part of window session "
                                   ++ SessionID r))
               end
             else if String.eqb (Name xa0) "navigate" then
               if (List.length (qb_Actions block0) <? 2)%nat
               then ret (Some ("query[0].actions must contain at least one other action besides "
                               ++ quoted "navigate"))
               else ret None
             else ret (Some ("query[0].actions[0] must begin with either " ++ quoted "load_tab"
                             ++ " or " ++ quoted "navigate"))) in
          letM r := get in
          doM (if hasListeningEvents r
               then appendActions [act_networkEnable; act_enableLifecycleEvents]
               else ret tt) in
          doM modify (fun r =>
                set_res (set_Out (replicate (List.length (Query r)) [])
                           (set_Err (replicate (List.length (Query r)) "") (res r))) r) in
          letM r := get in
          parse_blocks (seq 0 (List.length (Query r)))
      end
  end.

(** [(r *Request) ParseRequest(body)], from the point where the JSON decoder
    has filled the request in; [decode_err] is the decoder's error. *)
Definition ParseRequest (decode_err : error) : M error :=
  match decode_err with
  | Some e => ret (Some ("JSON parsing error: " ++ e))
  | None =>
      letM r := get in
      if ForwardUserAgent r
      then ret (Some ("value " ++ quoted "true" ++ " is not supported for init.forward_user_agent"))
      else
        checkM parseEmulateViewport in
        checkM parseRenderDelay in
        checkM parseTimeout in
        checkM parseQueryBlocks in
        ret None
  end.

End Parsing.

(** ** The request interpreter: execution *)

(** The calls made on the browser through chromedp and cdproto. *)
Inductive drvCall : Type :=
| drv_Click (sel : string)
| drv_Nodes (sel : string)
| drv_Evaluate (cmd : string)
| drv_PageEnable
| drv_SetLifecycleEventsEnabled
| drv_Navigate (url : string)
| drv_NodeIDsDocument
| drv_GetOuterHTML
| drv_PrintToPDF (mtop mright mbottom mleft : float)
| drv_Screenshot (sel : string)
| drv_FullScreenshot
| drv_Listen (events : list string)
| drv_ScrollIntoView (sel : string)
| drv_Sleep (d : Duration)
| drv_EmulateViewport (width height : Z) (landscape portrait mobile : bool) (scale : option float)
| drv_NetworkEnable.

(** What a call hands back: its error, the number of nodes found, the value
    written through a [*bool] result (if any) and the bytes produced. *)
Record drvReply : Type := mkReply {
  rep_err : error;
  rep_count : nat;
  rep_bool : option bool;
  rep_data : string
}.

(** Ghost events: each evaluation of a block's while guard, with the error
    it returned and the block's continue flag as the loop reads it next, and
    each run of its action list, with the error [chromedp.Run] returned.
    They exist to state what the loop did, in which order, and why it
    ended. *)
Inductive event : Type :=
| ev_while (blk : nat) (err : error) (cont : bool)
| ev_run (blk : nat) (err : error).

Definition tryScroll (target : string) : string :=
  target ++ ".style.overflow = " ++ dquote ++ dquote ++ "; " ++ target
  ++ ".scrollTo(0,document.body.scrollHeight);".
Definition scrollCmd : string := tryScroll "document.documentElement" ++ tryScroll "document.body".

Section Execution.

(** The browser is whatever the driver says it is. *)
Variable Browser : Type.
Variable drive : option nat -> drvCall -> Browser -> Browser * drvReply.

Record exec : Type := mkExec {
  ex_req : Request;
  ex_browser : Browser;
  ex_trace : list event
}.

Definition call (ctx : option nat) (c : drvCall) (s : exec) : exec * drvReply :=
  let '(b, rep) := drive ctx c (ex_browser s) in
  (mkExec (ex_req s) b (ex_trace s), rep).

Definition on_req (f : Request -> Request) (s : exec) : exec :=
  mkExec (f (ex_req s)) (ex_browser s) (ex_trace s).

Definition log (e : event) (s : exec) : exec :=
  mkExec (ex_req s) (ex_browser s) (ex_trace s ++ [e]).

(** [*res = v] for [res = &r.Query[blk].cont]. *)
Definition write_cont (blk : nat) (v : bool) : exec -> exec :=
  on_req (fun r => set_Query (alter (set_cont v) blk (Query r)) r).

(** [block.cont] of block [blk]. *)
Definition read_cont (blk : nat) (s : exec) : bool :=
  match Query (ex_req s) !! blk with Some block => qb_cont block | None => false end.

(** [*out = append( *out, x)] for [out = &r.res.Out[blk]]. *)
Definition append_out (blk : nat) (x : string) : exec -> exec :=
  on_req (fun r => set_res (set_Out (alter (fun o : list string => (o ++ [x])%list) blk (res_Out (res r))) (res r)) r).

(** [a.Do(ctx)] for each of the actions above. *)
Definition Do (ctx : option nat) (a : cdpAction) (s : exec) : exec * error :=
  match a with
  | act_click sel => let '(s, rep) := call ctx (drv_Click sel) s in (s, rep_err rep)
  | act_elementExists sel blk =>
      let '(s, rep) := call ctx (drv_Nodes sel) s in
      (write_cont blk (0 <? rep_count rep)%nat s, rep_err rep)
  | act_elementVisible sel blk =>
      let findElem := "var e = document.querySelector('" ++ sel ++ "')" in
      let isVisible := "!!(e.offsetWidth || e.offsetHeight || e.getClientRects().length)" in
      let cmd := findElem ++ "; e ? " ++ isVisible ++ " : false;" in
      let '(s, rep) := call ctx (drv_Evaluate cmd) s in
      (match rep_bool rep with Some v => write_cont blk v s | None => s end, rep_err rep)
  | act_evaluate cmd blk =>
      let '(s, rep) := call ctx (drv_Evaluate cmd) s in
      (append_out blk (rep_data rep) s, rep_err rep)
  | act_defaultWhile blk => (write_cont blk true s, None)
  | act_enableLifecycleEvents =>
      let '(s, rep) := call ctx drv_PageEnable s in
      match rep_err rep with
      | Some e => (s, Some e)
      | None => let '(s, rep) := call ctx drv_SetLifecycleEventsEnabled s in (s, rep_err rep)
      end
  | act_hideElements sel =>
      let cmd := "document.querySelectorAll('" ++ sel ++ "').forEach(e => e.style.visibility = "
                 ++ quoted "hidden" ++ ");" in
      let '(s, rep) := call ctx (drv_Evaluate cmd) s in (s, rep_err rep)
  | act_navigate url => let '(s, rep) := call ctx (drv_Navigate url) s in (s, rep_err rep)
  | act_outerHTML blk =>
      let '(s, rep) := call ctx drv_NodeIDsDocument s in
      if (rep_count rep =? 0)%nat
      then (s, Some ("couldn't locate " ++ quoted "document" ++ " node"))
      else
        let '(s, rep) := call ctx drv_GetOuterHTML s in
        (append_out blk (rep_data rep) s, rep_err rep)
  | act_printToPDF margins =>
      match margins with
      | [mtop; mright; mbottom; mleft] =>
          let '(s, rep) := call ctx (drv_PrintToPDF mtop mright mbottom mleft) s in
          (on_req (fun r => set_res (set_pdf (rep_data rep) (res r)) r) s, rep_err rep)
      | _ => (s, Some "expected four margins (top, right, bottom, left)")
      end
  | act_removeElements sel =>
      let cmd := "document.querySelectorAll('" ++ sel ++ "').forEach(e => e.remove());" in
      let '(s, rep) := call ctx (drv_Evaluate cmd) s in (s, rep_err rep)
  | act_screenshot args =>
      let shoot (c : drvCall) (s : exec) : exec * error :=
        let '(s, rep) := call ctx c s in
        (on_req (fun r => set_res (set_img (rep_data rep) (res r)) r) s,
         match rep_err rep with
         | Some e => Some ("failed to capture screenshot: " ++ e)
         | None => None
         end) in
      match args !! "element" with
      | Some sel =>
          match args !! "padding" with
          | Some padding =>
              let cmd := "document.querySelector('" ++ sel ++ "').setAttribute('style', 'padding:"
                         ++ padding ++ "')" in
              let '(s, rep) := call ctx (drv_Evaluate cmd) s in
              match rep_err rep with
              | Some e => (s, Some ("failed to add padding: " ++ e))
              | None => shoot (drv_Screenshot sel) s
              end
          | None => shoot (drv_Screenshot sel) s
          end
      | None => shoot drv_FullScreenshot s
      end
  | act_scrollToBottom => let '(s, rep) := call ctx (drv_Evaluate scrollCmd) s in (s, rep_err rep)
  | act_listen events => let '(s, rep) := call ctx (drv_Listen events) s in (s, rep_err rep)
  | act_ScrollIntoView sel =>
      let '(s, rep) := call ctx (drv_ScrollIntoView sel) s in (s, rep_err rep)
  | act_Sleep d => let '(s, rep) := call ctx (drv_Sleep d) s in (s, rep_err rep)
  | act_EmulateViewport w h l p m sc =>
      let '(s, rep) := call ctx (drv_EmulateViewport w h l p m sc) s in (s, rep_err rep)
  | act_networkEnable => let '(s, rep) := call ctx drv_NetworkEnable s in (s, rep_err rep)
  end.

(** [chromedp.Run(ctx, actions...)]: the actions in order, up to the first
    error. *)
Fixpoint Run (ctx : option nat) (actions : list cdpAction) (s : exec) : exec * error :=
  match actions with
  | [] => (s, None)
  | a :: rest =>
      let '(s, err) := Do ctx a s in
      match err with
      | Some e => (s, Some e)
      | None => Run ctx rest s
      end
  end.

(** How a loop of [Execute] is left. *)
Inductive flow : Type :=
| fl_next                      (* the loop ended or hit [break] *)
| fl_return (err : string)     (* [return nil, err] *)
| fl_panic (why : string).

(** [for i := 0; i < *block.Repeat; i++ { ... }] with [n] iterations left. *)
Fixpoint repeat_loop (ctx : option nat) (blk : nat) (cdpWhile : option cdpAction)
  (cdpActions : list cdpAction) (n : nat) (s : exec) : exec * flow :=
  match n with
  | O => (s, fl_next)
  | S n' =>
      match cdpWhile with
      | None => (s, fl_panic "nil pointer dereference")
      | Some guard =>
          let '(s, err) := Do ctx guard s in
          let s := log (ev_while blk err (read_cont blk s)) s in
          match err with
          | Some e => (s, fl_return e)
          | None =>
              if negb (read_cont blk s) then (s, fl_next)
              else
                let '(s, err) := Run ctx cdpActions s in
                let s := log (ev_run blk err) s in
                match err with
                | Some e => (s, fl_return e)
                | None => repeat_loop ctx blk cdpWhile cdpActions n' s
                end
          end
      end
  end.

(** One block of the outer loop: the repeat loop of block [blk]. *)
Definition exec_block (ctx : option nat) (blk : nat) (block : QueryBlock) (s : exec)
  : exec * flow :=
  match qb_Repeat block with
  | None => (s, fl_panic "nil pointer dereference")
  | Some n => repeat_loop ctx blk (qb_cdpWhile block) (qb_cdpActions block) (Z.to_nat n) s
  end.

(** [for r.pos, block = range r.Query { ... }] over the blocks still to
    run; each is read when its turn comes. *)
Fixpoint exec_blocks (ctx : option nat) (idx : list nat) (s : exec) : exec * flow :=
  match idx with
  | [] => (s, fl_next)
  | i :: rest =>
      let s := on_req (set_pos i) s in
      match Query (ex_req s) !! i with
      | None => (s, fl_panic "index out of range")
      | Some block =>
          let '(s, f) := exec_block ctx i block s in
          match f with
          | fl_next => exec_blocks ctx rest s
          | _ => (s, f)
          end
      end
  end.

(** What [Execute] leaves behind: its two results (or the panic), the
    request, the registry, the browser and the ghost trace. *)
Record executed : Type := mkExecuted {
  ret_res : option Result;
  ret_err : error;
  ret_panic : option string;
  end_req : Request;
  end_reg : registry;
  end_browser : Browser;
  end_trace : list event
}.

(** The first part of [Execute]: the tab the request runs in.  [None] is the
    early return for a tab that does not exist. *)
Definition acquire_tab (now : Z) (r : Request) (st : registry)
  : option session * Request * registry :=
  if newTab r then
    let '(window, st) := loadWindow now (SessionID r) (timeout r) st in
    let r := set_SessionID (ses_id window) r in
    let '(tab, st) := createSiblingTabWithTimeout now window (timeout r) st in
    (Some tab, r, st)
  else
    let '(tab, st) := loadTab now (oldTabID r) st in
    if negb (String.eqb (ses_id tab) (oldTabID r)) then (None, r, st)
    else (Some tab, r, st).

(** [(r *Request) Execute()]. *)
Definition Execute (now : Z) (r : Request) (st : registry) (b : Browser) : executed :=
  match acquire_tab now r st with
  | (None, r, st) =>
      mkExecuted None (Some ("tab with id " ++ quoted (oldTabID r) ++ " doesn't exist")) None
                 r st b []
  | (Some tab, r, st) =>
      let r := if ReuseWindow r then set_res (set_WindowID (SessionID r) (res r)) r else r in
      let r := if ReuseTab r then set_res (set_TabID (ses_id tab) (res r)) r else r in
      (* the deferred call, run when the function is left *)
      let deferred (st : registry) : registry :=
        if ReuseTab r then saveTab tab st else shutdown tab st in
      let '(s, f) :=
        exec_blocks (ses_ctx tab) (seq 0 (List.length (Query r))) (mkExec r b []) in
      let st := deferred st in
      match f with
      | fl_next =>
          mkExecuted (Some (res (ex_req s))) None None (ex_req s) st (ex_browser s) (ex_trace s)
      | fl_return e =>
          mkExecuted None (Some e) None (ex_req s) st (ex_browser s) (ex_trace s)
      | fl_panic why =>
          mkExecuted None None (Some why) (ex_req s) st (ex_browser s) (ex_trace s)
      end
  end.

(** *** Facts about the execution loop *)

(** The ghost trace of [k] full iterations of block [blk]: each time the
    guard returned no error and left the continue flag true, and the action
    list ran without error. *)
Fixpoint rounds (blk k : nat) : list event :=
  match k with
  | O => []
  | S k' => ev_while blk None true :: ev_run blk None :: rounds blk k'
  end.

(** Actions act on the browser and on the request's flags and buffers: they
    leave the ghost trace, the number of blocks, the session id and the tab
    id of the result alone. *)
Definition same_shape (s s' : exec) : Prop :=
  ex_trace s' = ex_trace s /\
  List.length (Query (ex_req s')) = List.length (Query (ex_req s)) /\
  SessionID (ex_req s') = SessionID (ex_req s) /\
  res_TabID (res (ex_req s')) = res_TabID (res (ex_req s)).

Lemma same_shape_refl s : same_shape s s.
Proof. repeat split. Qed.

Lemma same_shape_trans s1 s2 s3 : same_shape s1 s2 -> same_shape s2 s3 -> same_shape s1 s3.
Proof. intros (A1 & B1 & C1 & D1) (A2 & B2 & C2 & D2). repeat split; congruence. Qed.

Lemma call_shape ctx c s : same_shape s (fst (call ctx c s)).
Proof. unfold call. destruct (drive ctx c (ex_browser s)). repeat split. Qed.

Lemma write_cont_shape blk v s : same_shape s (write_cont blk v s).
Proof. repeat split. cbn. apply length_alter. Qed.

Lemma append_out_shape blk x s : same_shape s (append_out blk x s).
Proof. repeat split. Qed.

Lemma set_pdf_shape x s : same_shape s (on_req (fun r => set_res (set_pdf x (res r)) r) s).
Proof. repeat split. Qed.

Lemma set_img_shape x s : same_shape s (on_req (fun r => set_res (set_img x (res r)) r) s).
Proof. repeat split. Qed.

Lemma set_pos_shape i s : same_shape s (on_req (set_pos i) s).
Proof. repeat split. Qed.

Create HintDb shape.
Local Hint Resolve same_shape_refl write_cont_shape append_out_shape set_pdf_shape
  set_img_shape set_pos_shape : shape.

Local Ltac step_call :=
  match goal with
  | |- context [call ?ctx ?c ?s] =>
      let H := fresh "Hc" in
      pose proof (call_shape ctx c s) as H;
      destruct (call ctx c s) as [? ?]; cbn [fst snd] in H
  end.

Local Ltac close_shape :=
  cbn [fst snd];
  try match goal with
      | |- context [match rep_bool ?r with _ => _ end] => destruct (rep_bool r)
      end;
  cbn [fst snd];
  first [ assumption
        | solve [auto with shape]
        | eapply same_shape_trans; [eassumption|]; solve [auto with shape] ].

Lemma Do_shape ctx a s : same_shape s (fst (Do ctx a s)).
Proof.
  destruct a; cbn [Do]; try (step_call; close_shape; fail);
    try (cbn [fst]; solve [auto with shape]).
  - (* enableLifecycleEvents *)
    step_call. destruct (rep_err _); cbn [fst]; [assumption|].
    step_call. cbn [fst]. eapply same_shape_trans; eassumption.
  - (* outerHTML *)
    step_call. destruct (_ =? _)%nat; cbn [fst]; [assumption|].
    step_call. cbn [fst]. eapply same_shape_trans; [eassumption|].
    eapply same_shape_trans; [eassumption | apply append_out_shape].
  - (* printToPDF *)
    destruct margins as [|? [|? [|? [|? [|? ?]]]]]; cbn [fst]; auto with shape.
    step_call. cbn [fst]. eapply same_shape_trans; [eassumption|]. apply set_pdf_shape.
  - (* screenshot *)
    destruct (args !! "element"); [destruct (args !! "padding")|].
    + step_call. destruct (rep_err _); cbn [fst]; [assumption|].
      step_call. cbn [fst].
      eapply same_shape_trans; [eassumption|]. eapply same_shape_trans; [eassumption|].
      apply set_img_shape.
    + step_call. cbn [fst]. eapply same_shape_trans; [eassumption|]. apply set_img_shape.
    + step_call. cbn [fst]. eapply same_shape_trans; [eassumption|]. apply set_img_shape.
Qed.

Lemma Run_shape ctx actions s : same_shape s (fst (Run ctx actions s)).
Proof.
  revert s. induction actions as [|a rest IH]; intros s; cbn [Run].
  - apply same_shape_refl.
  - pose proof (Do_shape ctx a s) as Ha. destruct (Do ctx a s) as [s1 [e|]]; cbn [fst] in *.
    + assumption.
    + eapply same_shape_trans; [exact Ha | apply IH].
Qed.

Lemma log_trace e s : ex_trace (log e s) = (ex_trace s ++ [e])%list.
Proof. reflexivity. Qed.


(** How the repeat loop of a block with [n] iterations allowed ends after
    [k] full iterations, with [tail] the events after them.  It ends without
    error when all [n] iterations ran, or when the guard of the next one
    returned no error and left the continue flag false.  It ends with the
    error [e] when the guard of the next iteration returned [e], or when
    that guard let the iteration go ahead and the action list returned
    [e]. *)
Definition loop_exit (blk n k : nat) (tail : list event) (f : flow) : Prop :=
  match f with
  | fl_next =>
      (tail = [] /\ k = n) \/ (tail = [ev_while blk None false] /\ (k < n)%nat)
  | fl_return e =>
      (k < n)%nat /\
      ((exists c, tail = [ev_while blk (Some e) c]) \/
       tail = [ev_while blk None true; ev_run blk (Some e)])
  | fl_panic _ => False
  end.

Lemma repeat_loop_trace ctx blk guard actions n s :
  exists k tail,
    ex_trace (fst (repeat_loop ctx blk (Some guard) actions n s))
      = (ex_trace s ++ rounds blk k ++ tail)%list /\
    (k <= n)%nat /\
    loop_exit blk n k tail (snd (repeat_loop ctx blk (Some guard) actions n s)) /\
    (tail = [ev_while blk None false] ->
     read_cont blk (fst (repeat_loop ctx blk (Some guard) actions n s)) = false).
Proof.
  revert s. induction n as [|n IH]; intros s; cbn [repeat_loop].
  - exists 0%nat, []. cbn. rewrite app_nil_r. split; [reflexivity|]. split; [lia|].
    split; [left; auto | discriminate].
  - pose proof (Do_shape ctx guard s) as [Hg _].
    destruct (Do ctx guard s) as [s1 [e|]]; cbn [fst snd] in *.
    + exists 0%nat, [ev_while blk (Some e) (read_cont blk s1)]. cbn. rewrite Hg.
      split; [reflexivity|]. split; [lia|]. split; [|discriminate].
      split; [lia|]. left. eexists. reflexivity.
    + change (read_cont blk (log (ev_while blk None (read_cont blk s1)) s1))
        with (read_cont blk s1).
      destruct (read_cont blk s1) eqn:Hc; cbn [negb].
      2:{ exists 0%nat, [ev_while blk None false]. cbn. rewrite Hg. split; [reflexivity|].
          split; [lia|]. split; [right; split; [reflexivity | lia]|]. intros _. exact Hc. }
      pose proof (Run_shape ctx actions (log (ev_while blk None true) s1)) as [Hr _].
      destruct (Run ctx actions (log (ev_while blk None true) s1)) as [s2 [e|]];
        cbn [fst snd] in *.
      * exists 0%nat, [ev_while blk None true; ev_run blk (Some e)].
        cbn [log ex_trace rounds app]. rewrite Hr, log_trace, Hg, <- app_assoc.
        split; [reflexivity|]. split; [lia|]. split; [|discriminate].
        split; [lia|]. right. reflexivity.
      * destruct (IH (log (ev_run blk None) s2)) as (k & tail & Ht & Hk & Hx & Hstop).
        exists (S k), tail. rewrite Ht, log_trace, Hr, log_trace, Hg.
        split; [cbn; rewrite <- !app_assoc; reflexivity|]. split; [lia|].
        split; [|exact Hstop].
        unfold loop_exit in *.
        destruct (snd (repeat_loop ctx blk (Some guard) actions n (log (ev_run blk None) s2))).
        -- destruct Hx as [[-> ->] | (-> & Hlt)]; [left | right]; repeat split; auto; lia.
        -- destruct Hx as [Hlt Hx]. split; [lia | exact Hx].
        -- exact Hx.
Qed.


(** The loops keep the session id and the result's tab id too. *)
Definition keeps_ids (s s' : exec) : Prop :=
  SessionID (ex_req s') = SessionID (ex_req s) /\
  res_TabID (res (ex_req s')) = res_TabID (res (ex_req s)).

Lemma same_shape_ids s s' : same_shape s s' -> keeps_ids s s'.
Proof. intros (_ & _ & A & B). split; assumption. Qed.

Lemma keeps_ids_trans s1 s2 s3 : keeps_ids s1 s2 -> keeps_ids s2 s3 -> keeps_ids s1 s3.
Proof. intros [A1 B1] [A2 B2]. split; congruence. Qed.

Lemma repeat_loop_ids ctx blk guard actions n s :
  keeps_ids s (fst (repeat_loop ctx blk guard actions n s)).
Proof.
  revert s. induction n as [|n IH]; intros s; cbn [repeat_loop]; [split; reflexivity|].
  destruct guard as [g|]; [|split; reflexivity].
  pose proof (same_shape_ids _ _ (Do_shape ctx g s)) as Hg.
  destruct (Do ctx g s) as [s1 [e|]]; cbn [fst] in *; [exact Hg|].
  destruct (negb _); cbn [fst]; [exact Hg|].
  pose proof (same_shape_ids _ _ (Run_shape ctx actions
                (log (ev_while blk None (read_cont blk s1)) s1))) as Hr.
  destruct (Run ctx actions (log (ev_while blk None (read_cont blk s1)) s1)) as [s2 [e|]];
    cbn [fst] in *.
  - eapply keeps_ids_trans; [exact Hg | exact Hr].
  - eapply keeps_ids_trans; [exact Hg|]. eapply keeps_ids_trans; [exact Hr|].
    exact (IH (log (ev_run blk None) s2)).
Qed.

Lemma exec_blocks_ids ctx idx s : keeps_ids s (fst (exec_blocks ctx idx s)).
Proof.
  revert s. induction idx as [|i rest IH]; intros s; cbn [exec_blocks]; [split; reflexivity|].
  destruct (Query (ex_req (on_req (set_pos i) s)) !! i) as [block|]; [|split; reflexivity].
  assert (Hb : keeps_ids s (fst (exec_block ctx i block (on_req (set_pos i) s)))).
  { unfold exec_block. destruct (qb_Repeat block); [|split; reflexivity].
    apply (keeps_ids_trans _ (on_req (set_pos i) s)); [split; reflexivity|].
    apply repeat_loop_ids. }
  destruct (exec_block ctx i block (on_req (set_pos i) s)) as [s1 f]; cbn [fst] in *.
  destruct f; cbn [fst]; try exact Hb.
  eapply keeps_ids_trans; [exact Hb | apply IH].
Qed.

(** A request without [load_tab] whose session id is unknown to the registry
    gets a new window and a sibling tab under it; the tab's suffix is
    generated from the draw that follows the ones the window used. *)
Lemma acquire_new_tab now r st :
  newTab r = true -> windows st !! SessionID r = None ->
  exists tab st' hex,
    acquire_tab now r st
      = (Some tab, set_SessionID (ses_id (fst (createWindow (SessionID r) st))) r, st') /\
    spec_WindowID hex /\
    hex_value hex
      = (rand_source st (rand_draws (snd (createWindow (SessionID r) st))) mod 2 ^ 32) /\
    ses_id tab = ses_id (fst (createWindow (SessionID r) st)) ++ "_" ++ hex.
Proof.
  intros Hnew Hw. unfold acquire_tab, loadWindow. rewrite Hnew.
  pose proof (on_windowQuery_reply now (mkSession None None (SessionID r) 0 (timeout r)) st) as Hr.
  pose proof (on_windowQuery_frame now (mkSession None None (SessionID r) 0 (timeout r)) st)
    as (_ & _ & _ & Hsrc & Hdr).
  cbn [ses_id] in Hdr. rewrite Hw in Hdr. destruct Hdr as [Hdr _].
  destruct (on_windowQuery now (mkSession None None (SessionID r) 0 (timeout r)) st)
    as [window st1].
  cbn [fst snd ses_id ses_timeout] in Hr, Hsrc, Hdr. rewrite Hw in Hr. cbn zeta in Hr.
  subst window.
  unfold createSiblingTabWithTimeout, sibling_owner.
  cbn [ses_id ses_timeout set_last set_timeout timeout set_SessionID].
  assert (Ht : (timeout r >? Z.max (30 * Second) (timeout r)) = false).
  { rewrite Z.gtb_ltb. apply Z.ltb_ge. lia. }
  rewrite Ht.
  pose proof (createSessionID_draw st1) as (Hhex & Hval & _).
  rewrite Hsrc, Hdr in Hval.
  destruct (createSessionID st1) as [hex st2]. cbn [fst] in Hhex, Hval.
  destruct (NewContext st2) as [h st3].
  eexists _, st3, hex. split; [reflexivity|]. split; [exact Hhex|].
  split; [exact Hval | reflexivity].
Qed.

(** C9: the session id a client supplies is never checked against the
    grammar.  [createWindow] takes any id of eight bytes or more as it is and
    generates an id only for a shorter one: the low 32 bits of the next draw
    of the random source written as eight hexadecimal digits, which uses the
    draw up.  So a window query with an unknown id of eight bytes or more
    stores the new window under that very id.  For a request without [load_tab] whose (unknown) session id has
    eight bytes or more, that string becomes the request's session id and the
    prefix of the tab id that [Execute] reports when [reuse_tab] is set; the
    tab's suffix is generated from the next draw.  For a shorter id the
    session id is generated from the next draw and the tab's suffix from the
    one after it. *)
Theorem session_id_adopted_verbatim now r st b :
  newTab r = true -> windows st !! SessionID r = None ->
  let x := Execute now r st b in
  (forall id st0,
     ((8 <= String.length id)%nat ->
        ses_id (fst (createWindow id st0)) = id /\
        rand_draws (snd (createWindow id st0)) = rand_draws st0) /\
     ((String.length id < 8)%nat ->
        ses_id (fst (createWindow id st0)) = fst (createSessionID st0) /\
        spec_WindowID (ses_id (fst (createWindow id st0))) /\
        hex_value (ses_id (fst (createWindow id st0)))
          = (rand_source st0 (rand_draws st0) mod 2 ^ 32) /\
        rand_draws (snd (createWindow id st0)) = S (rand_draws st0))) /\
  (forall t q st0,
     windows st0 !! ses_id q = None -> (8 <= String.length (ses_id q))%nat ->
     ses_id (fst (on_windowQuery t q st0)) = ses_id q /\
     windows (snd (on_windowQuery t q st0)) !! ses_id q = Some (fst (on_windowQuery t q st0))) /\
  ((8 <= String.length (SessionID r))%nat ->
     SessionID (end_req x) = SessionID r /\
     (ReuseTab r = true ->
        exists hex, spec_WindowID hex /\
          hex_value hex = (rand_source st (rand_draws st) mod 2 ^ 32) /\
          res_TabID (res (end_req x)) = SessionID r ++ "_" ++ hex /\
          (forall result, ret_res x = Some result ->
             res_TabID result = SessionID r ++ "_" ++ hex))) /\
  ((String.length (SessionID r) < 8)%nat ->
     spec_WindowID (SessionID (end_req x)) /\
     hex_value (SessionID (end_req x)) = (rand_source st (rand_draws st) mod 2 ^ 32) /\
     (ReuseTab r = true ->
        exists hex, spec_WindowID hex /\
          hex_value hex = (rand_source st (S (rand_draws st)) mod 2 ^ 32) /\
          res_TabID (res (end_req x)) = SessionID (end_req x) ++ "_" ++ hex /\
          (forall result, ret_res x = Some result ->
             res_TabID result = SessionID (end_req x) ++ "_" ++ hex))).
Proof.
  intros Hnew Hw x.
  assert (Hcw : forall id st0,
     ((8 <= String.length id)%nat ->
        ses_id (fst (createWindow id st0)) = id /\
        rand_draws (snd (createWindow id st0)) = rand_draws st0) /\
     ((String.length id < 8)%nat ->
        ses_id (fst (createWindow id st0)) = fst (createSessionID st0) /\
        spec_WindowID (ses_id (fst (createWindow id st0))) /\
        hex_value (ses_id (fst (createWindow id st0)))
          = (rand_source st0 (rand_draws st0) mod 2 ^ 32) /\
        rand_draws (snd (createWindow id st0)) = S (rand_draws st0))).
  { intros id st0.
    pose proof (createWindow_new id st0) as (_ & _ & _ & _ & _ & Hgen & Hkeep).
    split; [exact Hkeep | exact Hgen]. }
  split; [exact Hcw|].
  split.
  { intros t q st0 Hq Hlen.
    assert (Hid : ses_id (fst (on_windowQuery t q st0)) = ses_id q).
    { rewrite on_windowQuery_reply, Hq. cbn zeta. cbn [ses_id set_last set_timeout].
      exact (proj1 (proj1 (Hcw (ses_id q) st0) Hlen)). }
    split; [exact Hid|].
    rewrite on_windowQuery_windows. cbn zeta. rewrite Hid. apply lookup_insert_eq. }
  destruct (acquire_new_tab now r st Hnew Hw) as (tab & st' & hex & Ha & Hhex & Hval & Hid).
  subst x. unfold Execute. rewrite Ha.
  set (wid := ses_id (fst (createWindow (SessionID r) st))) in *.
  set (r1 := if ReuseWindow (set_SessionID wid r)
             then set_res (set_WindowID (SessionID (set_SessionID wid r)) (res (set_SessionID wid r)))
                          (set_SessionID wid r)
             else set_SessionID wid r).
  set (r2 := if ReuseTab r1 then set_res (set_TabID (ses_id tab) (res r1)) r1 else r1).
  assert (Hs2 : SessionID r2 = wid).
  { subst r2 r1. clear. destruct (ReuseWindow (set_SessionID wid r));
      match goal with |- context [if ?c then _ else _] => destruct c end; reflexivity. }
  assert (Hr2 : ReuseTab r = true -> res_TabID (res r2) = ses_id tab).
  { intros Hre. subst r2 r1. destruct (ReuseWindow (set_SessionID wid r));
      match goal with |- context [if ?c then _ else _] => change c with (ReuseTab r) end;
      rewrite Hre; reflexivity. }
  pose proof (exec_blocks_ids (ses_ctx tab) (seq 0 (List.length (Query r2))) (mkExec r2 b []))
    as [Hsid Htid].
  destruct (exec_blocks (ses_ctx tab) (seq 0 (List.length (Query r2))) (mkExec r2 b []))
    as [s f]. cbn [fst ex_req] in Hsid, Htid.
  assert (Hend : SessionID (ex_req s) = wid /\
                 (ReuseTab r = true -> res_TabID (res (ex_req s)) = wid ++ "_" ++ hex)).
  { split; [congruence|]. intros Hre. rewrite Htid, (Hr2 Hre). exact Hid. }
  destruct Hend as [He1 He2].
  split.
  - intros Hlen. destruct (Hcw (SessionID r) st) as [Hv _]. destruct (Hv Hlen) as [Hv1 Hv2].
    fold wid in Hv1. rewrite Hv1 in *. rewrite Hv2 in Hval.
    destruct f; cbn [end_req ret_res]; (split; [exact He1|]); intros Hre;
      exists hex; (split; [exact Hhex|]); (split; [exact Hval|]); (split; [exact (He2 Hre)|]);
      intros result [= <-] || intros result [=]; exact (He2 Hre).
  - intros Hlen. destruct (Hcw (SessionID r) st) as [_ Hv].
    destruct (Hv Hlen) as (_ & Hx & Hxv & Hxd). fold wid in Hx, Hxv. rewrite Hxd in Hval.
    destruct f; cbn [end_req ret_res]; rewrite He1;
      (split; [exact Hx|]); (split; [exact Hxv|]); intros Hre;
      exists hex; (split; [exact Hhex|]); (split; [exact Hval|]);
      (split; [exact (He2 Hre)|]);
      intros result [= <-] || intros result [=]; exact (He2 Hre).
Qed.

End Execution.

Arguments mkExec {Browser} _ _ _.
Arguments ex_req {Browser} _.
Arguments ex_browser {Browser} _.
Arguments ex_trace {Browser} _.
Arguments ret_res {Browser} _.
Arguments ret_err {Browser} _.
Arguments ret_panic {Browser} _.
Arguments end_req {Browser} _.
Arguments end_reg {Browser} _.
Arguments end_browser {Browser} _.
Arguments end_trace {Browser} _.

(** ** Facts about parsing *)

Section ParsingFacts.

Variable ParseDuration : string -> Duration * error.
Variable ParseRequestURI : string -> error.
Variable ParseFloat : string -> float * error.
Variable infoBoxSelector infoSectionSelector navButtonSelector navSectionSelector : string.

(** The fields of a request that only [parseRenderDelay] and [parseTimeout]
    read or write. *)
Definition same_durations (r r' : Request) : Prop :=
  renderDelay r' = renderDelay r /\ timeout r' = timeout r /\
  RenderDelay r' = RenderDelay r /\ Timeout r' = Timeout r /\
  ForwardUserAgent r' = ForwardUserAgent r.

(** A parse step that leaves them as they are. *)
Definition keeps_durations {A} (m : M A) : Prop :=
  forall r a r', m r = Ret a r' -> same_durations r r'.

Lemma kd_ret {A} (a : A) : keeps_durations (ret a).
Proof. intros r a' r' [= _ <-]. repeat split. Qed.

Lemma kd_panic {A} why : keeps_durations (@panic A why).
Proof. intros r a r' [=]. Qed.

Lemma kd_get : keeps_durations get.
Proof. intros r a r' [= _ <-]. repeat split. Qed.

Lemma kd_modify f :
  (forall r, same_durations r (f r)) -> keeps_durations (modify f).
Proof. intros Hf r a r' [= _ <-]. apply Hf. Qed.

Lemma kd_bind {A B} (m : M A) (k : A -> M B) :
  keeps_durations m -> (forall a, keeps_durations (k a)) -> keeps_durations (bind m k).
Proof.
  intros Hm Hk r b r' H. unfold bind in H.
  destruct (m r) as [a r1|] eqn:E; [|discriminate].
  destruct (Hm _ _ _ E) as (A1 & A2 & A3 & A4 & A5).
  destruct (Hk a _ _ _ H) as (B1 & B2 & B3 & B4 & B5).
  repeat split; congruence.
Qed.

Lemma kd_update_block i f : keeps_durations (update_block i f).
Proof. apply kd_modify. intros r. repeat split. Qed.

Lemma kd_current_block : keeps_durations current_block.
Proof.
  apply kd_bind; [apply kd_get|]. intros r.
  destruct (Query r !! pos r); [apply kd_ret | apply kd_panic].
Qed.

Lemma kd_appendActions actions : keeps_durations (appendActions actions).
Proof.
  apply kd_bind; [apply kd_current_block|]. intros _.
  apply kd_bind; [apply kd_get|]. intros r. apply kd_update_block.
Qed.

Lemma kd_out_slot : keeps_durations out_slot.
Proof.
  apply kd_bind; [apply kd_get|]. intros r.
  destruct (_ <? _)%nat; [apply kd_ret | apply kd_panic].
Qed.

Local Ltac kd :=
  repeat first
    [ apply kd_ret | apply kd_panic | apply kd_get | apply kd_current_block
    | apply kd_appendActions | apply kd_out_slot | apply kd_update_block
    | apply kd_modify; intros ?; repeat split
    | apply kd_bind; [|intros ?]
    | match goal with
      | |- keeps_durations (match ?x with _ => _ end) => destruct x
      end ].

Lemma kd_parseAction xa :
  keeps_durations (parseAction ParseDuration ParseRequestURI ParseFloat
                     infoBoxSelector infoSectionSelector navButtonSelector navSectionSelector xa).
Proof. unfold parseAction. cbv beta zeta. kd. Qed.

Lemma kd_parse_actions i j xas :
  keeps_durations (parse_actions ParseDuration ParseRequestURI ParseFloat
                     infoBoxSelector infoSectionSelector navButtonSelector navSectionSelector
                     i j xas).
Proof.
  revert j. induction xas as [|xa rest IH]; intros j; cbn [parse_actions]; [apply kd_ret|].
  apply kd_bind; [apply kd_update_block|]. intros _.
  apply kd_bind; [apply kd_parseAction|]. intros [e|]; [apply kd_ret | apply IH].
Qed.

Lemma kd_parseRepeat : keeps_durations parseRepeat.
Proof. unfold parseRepeat. kd. Qed.

Lemma kd_parseWhile xa : keeps_durations (parseWhile xa).
Proof. unfold parseWhile. kd. Qed.

Lemma kd_parse_blocks idx :
  keeps_durations (parse_blocks ParseDuration ParseRequestURI ParseFloat
                     infoBoxSelector infoSectionSelector navButtonSelector navSectionSelector idx).
Proof.
  induction idx as [|i rest IH]; cbn [parse_blocks]; [apply kd_ret|].
  apply kd_bind; [kd|]. intros _.
  apply kd_bind; [kd|]. intros block.
  apply kd_bind; [kd|]. intros _.
  apply kd_bind; [kd|]. intros r.
  destruct (_ && _); [kd|].
  apply kd_bind; [apply kd_parse_actions|]. intros [e|]; [kd|].
  apply kd_bind; [apply kd_parseRepeat|]. intros [e|]; [kd|].
  apply kd_bind; [apply kd_parseWhile|]. intros [e|]; [kd | apply IH].
Qed.

Lemma kd_parseQueryBlocks :
  keeps_durations (parseQueryBlocks ParseDuration ParseRequestURI ParseFloat
                     infoBoxSelector infoSectionSelector navButtonSelector navSectionSelector).
Proof.
  unfold parseQueryBlocks.
  apply kd_bind; [kd|]. intros r.
  destruct (Query r) as [|block0 q]; [kd|].
  destruct (qb_Actions block0) as [|xa0 actions]; [kd|].
  apply kd_bind; [kd|]. intros [e|]; [kd|].
  apply kd_bind; [kd|]. intros r'.
  apply kd_bind; [kd|]. intros _.
  apply kd_bind; [kd|]. intros _.
  apply kd_bind; [kd|]. intros r''. apply kd_parse_blocks.
Qed.

(** [parseEmulateViewport] touches the compiled actions only. *)
Lemma kd_parseEmulateViewport : keeps_durations parseEmulateViewport.
Proof. unfold parseEmulateViewport. cbv beta zeta. kd. Qed.

Lemma parseRenderDelay_negative r d :
  RenderDelay r <> "" -> ParseDuration (RenderDelay r) = (d, None) -> d < 0 ->
  parseRenderDelay ParseDuration r = Ret None (set_renderDelay d r).
Proof.
  intros Hne Hp Hd. unfold parseRenderDelay, bind, get.
  apply String.eqb_neq in Hne. rewrite Hne, Hp.
  replace (d >? MaxRenderDelay) with false; [reflexivity|].
  symmetry. rewrite Z.gtb_ltb. apply Z.ltb_ge. unfold MaxRenderDelay, Second. lia.
Qed.

Lemma parseTimeout_negative r d :
  Timeout r <> "" -> ParseDuration (Timeout r) = (d, None) -> d < 0 ->
  parseTimeout ParseDuration r = Ret None (set_req_timeout d r).
Proof.
  intros Hne Hp Hd. unfold parseTimeout, bind, get.
  apply String.eqb_neq in Hne. rewrite Hne, Hp.
  replace (d >? MaxTimeout) with false; [reflexivity|].
  symmetry. rewrite Z.gtb_ltb. apply Z.ltb_ge. unfold MaxTimeout, Second. lia.
Qed.

(** What a request that [ParseRequest] accepts holds when one of its two
    durations parses to a negative value. *)
Lemma accepted_negative decode_err r r' :
  ParseRequest ParseDuration ParseRequestURI ParseFloat
    infoBoxSelector infoSectionSelector navButtonSelector navSectionSelector decode_err r
  = Ret None r' ->
  (forall d, ParseDuration (RenderDelay r) = (d, None) -> d < 0 -> renderDelay r' = d) /\
  (forall d, Timeout r <> "" -> ParseDuration (Timeout r) = (d, None) -> d < 0 ->
             timeout r' = d).
Proof.
  unfold ParseRequest. destruct decode_err; [discriminate|].
  unfold bind at 1, get at 1. destruct (ForwardUserAgent r); [discriminate|].
  unfold bind at 1.
  destruct (parseEmulateViewport r) as [[e|] r1|] eqn:E1; try discriminate.
  unfold bind at 1.
  destruct (parseRenderDelay _ r1) as [[e|] r2|] eqn:E2; try discriminate.
  unfold bind at 1.
  destruct (parseTimeout _ r2) as [[e|] r3|] eqn:E3; try discriminate.
  unfold bind at 1.
  destruct (parseQueryBlocks _ _ _ _ _ _ _ r3) as [[e|] r4|] eqn:E4; try discriminate.
  intros [= <-].
  destruct (kd_parseEmulateViewport _ _ _ E1) as (_ & _ & F1 & F2 & _).
  destruct (kd_parseQueryBlocks _ _ _ E4) as (G1 & G2 & _).
  revert E2 E3. unfold parseRenderDelay, parseTimeout, bind, get, modify, ret. rewrite F1.
  destruct (String.eqb (RenderDelay r) ""); [discriminate|].
  destruct (ParseDuration (RenderDelay r)) as [d1 [e|]] eqn:P1; [discriminate|].
  intros [= <-]. cbn [Timeout set_renderDelay]. rewrite F2.
  destruct (String.eqb_spec (Timeout r) "") as [Et|Et].
  - intros [= <-]. split.
    + intros d [= <-] Hd. rewrite G1. cbn.
      rewrite Z.gtb_ltb. destruct (Z.ltb_spec MaxRenderDelay d1); [|reflexivity].
      unfold MaxRenderDelay, Second in *. lia.
    + intros d Hne. contradiction.
  - destruct (ParseDuration (Timeout r)) as [d2 [e|]] eqn:P2; [discriminate|].
    intros [= <-]. split.
    + intros d [= <-] Hd. rewrite G1. cbn.
      rewrite Z.gtb_ltb. destruct (Z.ltb_spec MaxRenderDelay d1); [|reflexivity].
      unfold MaxRenderDelay, Second in *. lia.
    + intros d _ [= <-] Hd. rewrite G2. cbn.
      rewrite Z.gtb_ltb. destruct (Z.ltb_spec MaxTimeout d2); [|reflexivity].
      unfold MaxTimeout, Second in *. lia.
Qed.

(** C10: the clamps are upper bounds only.  A [global_render_delay] that
    parses to a negative duration is stored as it is by [parseRenderDelay],
    and so is a negative [timeout] by [parseTimeout]; neither returns an
    error.  So a request with a negative render delay, whatever its timeout
    is, passes [ParseRequest] whenever its other steps succeed, with the
    negative delay in place; and likewise a request with a negative timeout,
    whatever its render delay is.  In every request that [ParseRequest]
    accepts, a duration that parsed to a negative value is the value
    stored. *)
Theorem negative_durations_accepted :
  (forall r d,
     RenderDelay r <> "" -> ParseDuration (RenderDelay r) = (d, None) -> d < 0 ->
     parseRenderDelay ParseDuration r = Ret None (set_renderDelay d r)) /\
  (forall r d,
     Timeout r <> "" -> ParseDuration (Timeout r) = (d, None) -> d < 0 ->
     parseTimeout ParseDuration r = Ret None (set_req_timeout d r)) /\
  (forall r d r1 r3 r4,
     ForwardUserAgent r = false ->
     parseEmulateViewport r = Ret None r1 ->
     RenderDelay r <> "" -> ParseDuration (RenderDelay r) = (d, None) -> d < 0 ->
     parseTimeout ParseDuration (set_renderDelay d r1) = Ret None r3 ->
     parseQueryBlocks ParseDuration ParseRequestURI ParseFloat
       infoBoxSelector infoSectionSelector navButtonSelector navSectionSelector r3
     = Ret None r4 ->
     ParseRequest ParseDuration ParseRequestURI ParseFloat
       infoBoxSelector infoSectionSelector navButtonSelector navSectionSelector None r
       = Ret None r4 /\
     renderDelay r4 = d) /\
  (forall r d r1 r2 r4,
     ForwardUserAgent r = false ->
     parseEmulateViewport r = Ret None r1 ->
     parseRenderDelay ParseDuration r1 = Ret None r2 ->
     Timeout r <> "" -> ParseDuration (Timeout r) = (d, None) -> d < 0 ->
     parseQueryBlocks ParseDuration ParseRequestURI ParseFloat
       infoBoxSelector infoSectionSelector navButtonSelector navSectionSelector
       (set_req_timeout d r2)
     = Ret None r4 ->
     ParseRequest ParseDuration ParseRequestURI ParseFloat
       infoBoxSelector infoSectionSelector navButtonSelector navSectionSelector None r
       = Ret None r4 /\
     timeout r4 = d) /\
  (forall decode_err r r',
     ParseRequest ParseDuration ParseRequestURI ParseFloat
       infoBoxSelector infoSectionSelector navButtonSelector navSectionSelector decode_err r
     = Ret None r' ->
     (forall d, ParseDuration (RenderDelay r) = (d, None) -> d < 0 -> renderDelay r' = d) /\
     (forall d, Timeout r <> "" -> ParseDuration (Timeout r) = (d, None) -> d < 0 ->
                timeout r' = d)).
Proof.
  split; [exact parseRenderDelay_negative|]. split; [exact parseTimeout_negative|].
  split; [|split; [|exact accepted_negative]].
  - intros r d r1 r3 r4 Hfua Hev Hne Hp Hd Ht Hq.
    destruct (kd_parseEmulateViewport _ _ _ Hev) as (_ & _ & E1 & _).
    split.
    + unfold ParseRequest. unfold bind at 1. unfold get. rewrite Hfua.
      unfold bind at 1. rewrite Hev.
      unfold bind at 1. rewrite (parseRenderDelay_negative r1 d) by (rewrite ?E1; assumption).
      unfold bind at 1. rewrite Ht.
      unfold bind at 1. rewrite Hq. reflexivity.
    + destruct (kd_parseQueryBlocks _ _ _ Hq) as (A1 & _). rewrite A1.
      revert Ht. unfold parseTimeout, bind, get.
      destruct (String.eqb (Timeout (set_renderDelay d r1)) "").
      * intros [= <-]. reflexivity.
      * destruct (ParseDuration (Timeout (set_renderDelay d r1))) as [t [e|]]; [discriminate|].
        intros [= <-]. reflexivity.
  - intros r d r1 r2 r4 Hfua Hev Hrd Hne Hp Hd Hq.
    destruct (kd_parseEmulateViewport _ _ _ Hev) as (_ & _ & _ & E2 & _).
    assert (E3 : Timeout r2 = Timeout r).
    { revert Hrd. unfold parseRenderDelay, bind, get.
      destruct (String.eqb (RenderDelay r1) ""); [discriminate|].
      destruct (ParseDuration (RenderDelay r1)) as [t [e|]]; [discriminate|].
      intros [= <-]. exact E2. }
    split.
    + unfold ParseRequest. unfold bind at 1. unfold get. rewrite Hfua.
      unfold bind at 1. rewrite Hev.
      unfold bind at 1. rewrite Hrd.
      unfold bind at 1. rewrite (parseTimeout_negative r2 d) by (rewrite ?E3; assumption).
      unfold bind at 1. rewrite Hq. reflexivity.
    + destruct (kd_parseQueryBlocks _ _ _ Hq) as (_ & A2 & _). rewrite A2. reflexivity.
Qed.

End ParsingFacts.

(** ** Worked examples *)

Module Examples.

Definition is_digit (c : ascii) : bool :=
  let n := nat_of_ascii c in ((48 <=? n) && (n <=? 57))%nat.

Definition digits_value (ds : list ascii) : Z :=
  fold_left (fun acc c => 10 * acc + (Z.of_nat (nat_of_ascii c) - 48)) ds 0.

(** [time.ParseDuration] on the durations the examples use: an optional
    sign, decimal digits and the unit [s]. *)
Definition ParseDuration_seconds (s : string) : Duration * error :=
  let cs := chars s in
  let '(neg, cs) :=
    match cs with
    | "-"%char :: rest => (true, rest)
    | "+"%char :: rest => (false, rest)
    | _ => (false, cs)
    end in
  let '(ds, unit) := span is_digit cs in
  match ds, unit with
  | _ :: _, ["s"%char] =>
      let v := digits_value ds * Second in (if neg then - v else v, None)
  | _, _ => (0, Some ("time: invalid duration " ++ quoted s))
  end.

(** Stand-ins for [url.ParseRequestURI] and [strconv.ParseFloat] that accept
    everything. *)
Definition ParseRequestURI_any (_ : string) : error := None.
Definition ParseFloat_zero (_ : string) : float * error := (0%float, None).

Definition parse (r : Request) : result error :=
  ParseRequest ParseDuration_seconds ParseRequestURI_any ParseFloat_zero
               "#info-box" "#info-section" "#nav-button" "#nav-section" None r.

(** A browser that counts the calls made on it.  Every call succeeds, finds
    one node and produces no data. *)
Definition drive_ok (_ : option nat) (_ : drvCall) (calls : nat) : nat * drvReply :=
  (S calls, mkReply None 1 None "").

(** The same browser with no element to click on. *)
Definition drive_click_fails (ctx : option nat) (c : drvCall) (calls : nat) : nat * drvReply :=
  match c with
  | drv_Click _ => (S calls, mkReply (Some "context deadline exceeded") 0 None "")
  | _ => drive_ok ctx c calls
  end.

Definition block (actions : list Action) (repeat : option Z) (while : option Action) : QueryBlock :=
  mkQueryBlock actions repeat while [] None false 0.

Definition request (query : list QueryBlock) (delay session timeout : string) (reuse_tab : bool)
  : Request :=
  mkRequest query None false delay reuse_tab false session timeout "" 0 0 Result_zero 0.

(** Navigate, then click twice: no while guard, [repeat] 2. *)
Definition click_twice : Request :=
  request [block [["navigate"; "https://example.com/"]; ["click"; "button.more"]] (Some 2) None]
          "1s" "" "" false.

(** What [ParseRequest] leaves in the request. *)
Definition parsed (r : Request) : Request :=
  match parse r with Ret _ r' => r' | Panicked _ => r end.

(** A client that names a session of its own making and asks for the tab. *)
Definition own_session : Request :=
  request [block [["navigate"; "https://example.com/"]; ["outer_html"]] None None]
          "1s" "not hex!" "" true.

(** A negative render delay and no timeout; a negative timeout. *)
Definition negative_delay : Request :=
  request [block [["navigate"; "https://example.com/"]; ["outer_html"]] None None]
          "-5s" "" "" false.
Definition negative_timeout : Request :=
  request [block [["navigate"; "https://example.com/"]; ["outer_html"]] None None]
          "1s" "" "-5s" false.



End Examples.

(** A session id that is no hexadecimal number is taken over as it is; the
    tab's suffix is the first draw of the random source. *)
Lemma session_id_adopted_verbatim_witness :
  let r := Examples.parsed Examples.own_session in
  let st := registry_init (fun _ => 0x1234abcd) in
  newTab r = true /\ windows st !! SessionID r = None /\
  (8 <= String.length (SessionID r))%nat /\ all_xdigit (SessionID r) = false /\
  SessionID (end_req (Execute nat Examples.drive_ok 0 r st 0%nat)) = SessionID r /\
  exists hex, spec_WindowID hex /\
    hex_value hex = (rand_source st (rand_draws st) mod 2 ^ 32) /\
    res_TabID (res (end_req (Execute nat Examples.drive_ok 0 r st 0%nat)))
    = SessionID r ++ "_" ++ hex.
Proof.
  cbn zeta.
  assert (H8 : (8 <= 8)%nat) by apply le_n.
  pose proof (session_id_adopted_verbatim nat Examples.drive_ok 0
                (Examples.parsed Examples.own_session) (registry_init (fun _ => 0x1234abcd))
                0%nat eq_refl eq_refl) as (_ & _ & H & _).
  destruct (H H8) as [Hs Ht]. destruct (Ht eq_refl) as (hex & Hx & Hv & Hid & _).
  split; [reflexivity|]. split; [reflexivity|]. split; [exact H8|]. split; [reflexivity|].
  split; [exact Hs|]. exists hex. split; [exact Hx|]. split; [exact Hv | exact Hid].
Defined.

(** A request whose render delay is "-5s" and that names no timeout parses
    and keeps the delay; so does one whose timeout is "-5s". *)
Lemma negative_durations_accepted_witness :
  let r := Examples.negative_delay in
  let r' := Examples.negative_timeout in
  (RenderDelay r = "-5s" /\ Timeout r = "" /\
   Examples.parse r = Ret None (Examples.parsed r) /\
   renderDelay (Examples.parsed r) = -5 * Second /\
   timeout (Examples.parsed r) = 20 * Second) /\
  (RenderDelay r' = "1s" /\ Timeout r' = "-5s" /\
   Examples.parse r' = Ret None (Examples.parsed r') /\
   timeout (Examples.parsed r') = -5 * Second /\
   renderDelay (Examples.parsed r') = Second).
Proof.
  cbn zeta.
  assert (Hne : "-5s" <> "") by (intros H; discriminate H).
  assert (Hd : -5 * Second < 0) by reflexivity.
  pose proof (negative_durations_accepted
                Examples.ParseDuration_seconds Examples.ParseRequestURI_any
                Examples.ParseFloat_zero
                "#info-box" "#info-section" "#nav-button" "#nav-section")
    as (_ & _ & Hdelay & Htime & _).
  split.
  - split; [reflexivity|]. split; [reflexivity|].
    assert (Hq : parseQueryBlocks Examples.ParseDuration_seconds Examples.ParseRequestURI_any
                   Examples.ParseFloat_zero
                   "#info-box" "#info-section" "#nav-button" "#nav-section"
                   (set_req_timeout (20 * Second)
                      (set_renderDelay (-5 * Second) Examples.negative_delay))
                 = Ret None (Examples.parsed Examples.negative_delay))
      by (vm_compute; reflexivity).
    destruct (Hdelay Examples.negative_delay (-5 * Second) Examples.negative_delay
                (set_req_timeout (20 * Second)
                   (set_renderDelay (-5 * Second) Examples.negative_delay))
                (Examples.parsed Examples.negative_delay)
                eq_refl eq_refl Hne eq_refl Hd eq_refl Hq) as [Hp Hv].
    split; [exact Hp|]. split; [exact Hv|]. vm_compute. reflexivity.
  - split; [reflexivity|]. split; [reflexivity|].
    assert (Hq : parseQueryBlocks Examples.ParseDuration_seconds Examples.ParseRequestURI_any
                   Examples.ParseFloat_zero
                   "#info-box" "#info-section" "#nav-button" "#nav-section"
                   (set_req_timeout (-5 * Second)
                      (set_renderDelay Second Examples.negative_timeout))
                 = Ret None (Examples.parsed Examples.negative_timeout))
      by (vm_compute; reflexivity).
    destruct (Htime Examples.negative_timeout (-5 * Second) Examples.negative_timeout
                (set_renderDelay Second Examples.negative_timeout)
                (Examples.parsed Examples.negative_timeout)
                eq_refl eq_refl eq_refl Hne eq_refl Hd Hq) as [Hp Hv].
    split; [exact Hp|]. split; [exact Hv|]. vm_compute. reflexivity.
Defined.

(** ** The HTML preprocessor: documents

    [html.Node] trees are values here: a node is its type, its [Data] (the
    tag of an element, the text of a text node), its attributes and its
    children in order.  A pointer to a node of a tree is the path to it from
    the root: the list of child indices to follow. *)

Inductive NodeType : Type :=
| ErrorNode | TextNode | DocumentNode | ElementNode | CommentNode | DoctypeNode.

Record Attribute : Type := mkAttr { attr_Key : string; attr_Val : string }.

Inductive Node : Type :=
| mkNode (ty : NodeType) (data : string) (attr : list Attribute) (kids : list Node).

Definition node_Type (n : Node) : NodeType := let 'mkNode ty _ _ _ := n in ty.
Definition node_Data (n : Node) : string := let 'mkNode _ d _ _ := n in d.
Definition node_Attr (n : Node) : list Attribute := let 'mkNode _ _ a _ := n in a.
Definition node_kids (n : Node) : list Node := let 'mkNode _ _ _ k := n in k.

Definition is_element (n : Node) : bool :=
  match node_Type n with ElementNode => true | _ => false end.

Definition path := list nat.

(** The node a path leads to. *)
Fixpoint node_at (n : Node) (p : path) : option Node :=
  match p with
  | [] => Some n
  | i :: q => match node_kids n !! i with Some k => node_at k q | None => None end
  end.

(** The tree with the node at [p] replaced by what [f] makes of it. *)
Fixpoint alter_at (f : Node -> Node) (p : path) (n : Node) : Node :=
  match p with
  | [] => f n
  | i :: q =>
      let 'mkNode ty d a kids := n in mkNode ty d a (alter (alter_at f q) i kids)
  end.

(** The tree without the node at [p] (the root cannot be removed: it has no
    parent). *)
Fixpoint remove_at (p : path) (n : Node) : Node :=
  match p with
  | [] => n
  | [i] => let 'mkNode ty d a kids := n in mkNode ty d a (delete i kids)
  | i :: q => let 'mkNode ty d a kids := n in mkNode ty d a (alter (remove_at q) i kids)
  end.

(** *** Text *)

(** [strings.TrimSpace] and [strings.ToLower] are functions of Go's standard
    library that work on Unicode text: the first trims every leading and
    trailing code point with the white space property, the second maps every
    letter to its lower case.  They are parameters of the model, and what is
    proved about the preprocessor holds whatever these two functions are. *)
Class Strings : Type := {
  TrimSpace : string -> string;
  ToLower : string -> string
}.

(** ASCII white space: tab, line feed, vertical tab, form feed, carriage
    return and blank. *)
Definition is_space (c : ascii) : bool :=
  let n := nat_of_ascii c in ((9 <=? n) && (n <=? 13) || (n =? 32))%nat.

(** The class [\s] of the regexp package: as above without the vertical tab. *)
Definition is_re_space (c : ascii) : bool :=
  is_space c && negb (nat_of_ascii c =? 11)%nat.

Fixpoint drop_while (P : ascii -> bool) (l : list ascii) : list ascii :=
  match l with
  | [] => []
  | c :: l' => if P c then drop_while P l' else l
  end.

(** What [strings.TrimSpace] does to ASCII text. *)
Definition TrimSpace_ascii (s : string) : string :=
  str (rev (drop_while is_space (rev (drop_while is_space (chars s))))).

(** [reWS.ReplaceAllString(s, " ")] for [reWS = `\s+`]: every maximal run of
    white space becomes one blank; [in_run] says the previous byte was part
    of a run. *)
Fixpoint collapse_ws (in_run : bool) (l : list ascii) : list ascii :=
  match l with
  | [] => []
  | c :: l' =>
      if is_re_space c
      then (if in_run then collapse_ws true l' else " "%char :: collapse_ws true l')
      else c :: collapse_ws false l'
  end.

(** What [strings.ToLower] does to ASCII text. *)
Definition to_lower_ascii (c : ascii) : ascii :=
  let n := nat_of_ascii c in
  if ((65 <=? n) && (n <=? 90))%nat then ascii_of_nat (n + 32) else c.
Definition ToLower_ascii (s : string) : string := str (List.map to_lower_ascii (chars s)).

(** The two functions on documents whose text is ASCII, as the documents of
    the examples are. *)
Definition ascii_strings : Strings :=
  {| TrimSpace := TrimSpace_ascii; ToLower := ToLower_ascii |}.

(** [strings.Count(s, " ")]. *)
Definition count_blanks (s : string) : nat :=
  List.length (List.filter (Ascii.eqb " "%char) (chars s)).

(** [strings.Contains(s, sub)]. *)
Fixpoint is_prefix_of (sub l : list ascii) : bool :=
  match sub, l with
  | [], _ => true
  | c :: sub', d :: l' => Ascii.eqb c d && is_prefix_of sub' l'
  | _ :: _, [] => false
  end.
Fixpoint contains_at (sub l : list ascii) : bool :=
  is_prefix_of sub l || match l with [] => false | _ :: l' => contains_at sub l' end.
Definition Contains (s sub : string) : bool := contains_at (chars sub) (chars s).

(** The pieces of [s] between white space bytes (blank, tab, CR, LF, FF), as
    the selector library cuts a class attribute up. *)
Definition is_class_sep (c : ascii) : bool :=
  let n := nat_of_ascii c in ((n =? 32) || (n =? 9) || (n =? 13) || (n =? 10) || (n =? 12))%nat.
Fixpoint split_on (P : ascii -> bool) (cur : list ascii) (l : list ascii) : list string :=
  match l with
  | [] => [str (rev cur)]
  | c :: l' => if P c then str (rev cur) :: split_on P [] l' else split_on P (c :: cur) l'
  end.
Definition class_tokens (s : string) : list string := split_on is_class_sep [] (chars s).

(** [dom.TextContent]: the text of all text nodes below (and including) the
    node, in document order. *)
Fixpoint TextContent (n : Node) : string :=
  let 'mkNode ty d _ kids := n in
  (match ty with TextNode => d | _ => "" end) ++ String.concat "" (List.map TextContent kids).

(** *** Selectors

    The selectors the preprocessor uses, as the selector library reads them:
    a group (comma) of simple selectors or of one child combinator. *)
Inductive simple_selector : Type :=
| sel_any                                (* the universal selector *)
| sel_tag (tag : string)                 (* tag *)
| sel_class (cls : string)               (* .cls *)
| sel_attr_contains (key val : string)   (* [key*=val] *)
| sel_id (id : string)                   (* #id *).

Inductive selector : Type :=
| sel_one (s : simple_selector)
| sel_child (parent child : simple_selector)   (* parent > child *).

Definition matches_simple (s : simple_selector) (n : Node) : bool :=
  is_element n &&
  match s with
  | sel_any => true
  | sel_tag tag => String.eqb (node_Data n) tag
  | sel_class cls =>
      existsb (fun a => String.eqb (attr_Key a) "class" &&
                        existsb (String.eqb cls) (class_tokens (attr_Val a)))
              (node_Attr n)
  | sel_attr_contains key val =>
      negb (String.eqb val "") &&
      existsb (fun a => String.eqb (attr_Key a) key && Contains (attr_Val a) val) (node_Attr n)
  | sel_id id =>
      existsb (fun a => String.eqb (attr_Key a) "id" && String.eqb (attr_Val a) id) (node_Attr n)
  end.

(** Does [n], whose parent is [parent], match one selector of the group? *)
Definition matches_group (g : list selector) (parent n : Node) : bool :=
  existsb (fun s =>
             match s with
             | sel_one s1 => matches_simple s1 n
             | sel_child sp sc => matches_simple sc n && matches_simple sp parent
             end) g.

Definition tags (l : list string) : list selector := List.map (fun t => sel_one (sel_tag t)) l.

(** An element whose tag is one of [l]. *)
Definition has_tag_in (l : list string) (n : Node) : bool :=
  is_element n && existsb (String.eqb (node_Data n)) l.

(** [dom.QuerySelectorAll(n, g)]: the proper descendants of [n] that match,
    in document order, as paths from [n]. *)
Fixpoint QuerySelectorAll (g : list selector) (n : Node) : list path :=
  (fix children (i : nat) (ks : list Node) : list path :=
     match ks with
     | [] => []
     | k :: ks' =>
         ((if matches_group g n k then [[i]] else [])
            ++ List.map (cons i) (QuerySelectorAll g k)
            ++ children (S i) ks')%list
     end) 0%nat (node_kids n).

(** [dom.QuerySelector(n, g)]: the first match. *)
Definition QuerySelector (g : list selector) (n : Node) : option path :=
  head (QuerySelectorAll g n).

(** ** The HTML preprocessor: [normalize.go] *)

Definition genericBadgeLabels : list string :=
  ["job"; "jobs"; "stilling"; "stillinger"; "annonce"; "annoncer"; "ad"; "ads";
   "advertisement"; "ny"; "new"].

Section Normalize.

Context {strs : Strings}.

(** [isGenericBadgeLabel]. *)
Definition isGenericBadgeLabel (raw : string) : bool :=
  existsb (String.eqb (ToLower (TrimSpace raw))) genericBadgeLabels.

(** [setAttr]. *)
Fixpoint set_first (key val : string) (attrs : list Attribute) : option (list Attribute) :=
  match attrs with
  | [] => None
  | a :: rest =>
      if String.eqb (attr_Key a) key then Some (mkAttr key val :: rest)
      else option_map (cons a) (set_first key val rest)
  end.
Definition setAttr (n : Node) (key val : string) : Node :=
  let 'mkNode ty d attrs kids := n in
  match set_first key val attrs with
  | Some attrs' => mkNode ty d attrs' kids
  | None => mkNode ty d (attrs ++ [mkAttr key val]) kids
  end.

(** [dom.CreateElement] and [(n *html.Node) AppendChild]. *)
Definition CreateElement (tag : string) : Node := mkNode ElementNode tag [] [].
Definition AppendChild (n child : Node) : Node :=
  let 'mkNode ty d attrs kids := n in mkNode ty d attrs (kids ++ [child]).

(** [cloneNodeDeep]: a new node for every node of the subtree. *)
Fixpoint cloneNodeDeep (n : Node) : Node :=
  let 'mkNode ty d attrs kids := n in
  fold_left AppendChild (List.map cloneNodeDeep kids) (mkNode ty d attrs []).

(** A node the code holds a pointer to while it works on a header [h]: a
    node of [h]'s tree, or a copy made by [cloneNodeDeep], which is a new
    node outside every tree that existed before. *)
Inductive node_ref : Type :=
| in_tree (p : path)
| fresh_copy (n : Node).

(** [nodeContains(ancestor, node)] for nodes of the tree of [h]: the same
    node, or one of the elements below [ancestor].  A fresh copy is neither
    a node of [h] nor below one. *)
Definition nodeContains (h : Node) (ancestor node : node_ref) : bool :=
  match ancestor, node with
  | in_tree a, in_tree b =>
      bool_decide (a = b) ||
      match node_at h a with
      | Some an =>
          existsb (fun q => bool_decide ((a ++ q)%list = b)) (QuerySelectorAll [sel_one sel_any] an)
      | None => false
      end
  | _, _ => false
  end.

Definition block_tags : list string :=
  ["address"; "article"; "aside"; "blockquote"; "div"; "dl"; "fieldset"; "figcaption";
   "figure"; "footer"; "form"; "h1"; "h2"; "h3"; "h4"; "h5"; "h6"; "header"; "hr"; "li";
   "main"; "nav"; "ol"; "p"; "pre"; "section"; "table"; "ul"; "video"].
Definition blockSel : list selector := tags block_tags.

Definition inline_tags : list string :=
  ["span"; "b"; "i"; "strong"; "em"; "u"; "s"; "code"; "kbd"; "mark"; "q"; "small"; "sub";
   "sup"; "label"; "time"; "var"; "abbr"; "cite"; "dfn"; "tt"].
Definition inlineSel : list selector := tags inline_tags.

(** [hasBlockDescendant]. *)
Definition hasBlockDescendant (n : Node) : bool :=
  (0 <? List.length (QuerySelectorAll blockSel n))%nat.

(** [findHeading]. *)
Definition findHeading (h : Node) : option path :=
  QuerySelector (tags ["h1"; "h2"; "h3"]) h.

(** [cloneUsefulBadge]. *)
Definition cloneUsefulBadge (h : Node) : option Node :=
  match QuerySelector [sel_one (sel_class "badge"); sel_one (sel_attr_contains "class" "badge")] h with
  | None => None
  | Some bp =>
      match node_at h bp with
      | None => None
      | Some badge =>
          let raw := TrimSpace (TextContent badge) in
          if (String.length raw <? 3)%nat || (40 <? String.length raw)%nat then None
          else if isGenericBadgeLabel raw then None
          else Some (cloneNodeDeep badge)
      end
  end.

(** [findSummaryParagraph]. *)
Definition findSummaryParagraph (h : Node) : option Node :=
  let candidate (pp : path) : option Node :=
    match node_at h pp with
    | None => None
    | Some p =>
        let txt := TrimSpace (str (collapse_ws false (chars (TextContent p)))) in
        let l := String.length txt in
        if (l <? 40)%nat || (600 <? l)%nat then None
        else
          let bolds := QuerySelectorAll (tags ["b"; "strong"]) p in
          if (6 <? List.length bolds)%nat then None
          else if (0 <? List.length bolds)%nat || (6 <? count_blanks txt + 1)%nat
               then Some (cloneNodeDeep p)
               else None
    end in
  head (omap candidate (QuerySelectorAll (tags ["p"]) h)).

Definition metaSelectors : list selector :=
  [sel_one (sel_class "row"); sel_one (sel_class "col"); sel_one (sel_attr_contains "class" "grid")]
  ++ tags ["table"; "form"; "button"; "ul"; "ol"; "figure"; "picture"; "video"; "time"].

(** [collectHeavyMeta(h, heading, summary)]: [heading] is a node of [h],
    [summary] is the copy [findSummaryParagraph] returned (or nil). *)
Definition collectHeavyMeta (h : Node) (heading : path) (summary : option Node) : list path :=
  List.filter
    (fun el =>
       negb (nodeContains h (in_tree heading) (in_tree el)) &&
       negb (match summary with
             | Some sm => nodeContains h (in_tree el) (fresh_copy sm)
             | None => false
             end))
    (QuerySelectorAll metaSelectors h).

(** [float64(n)] for a length [n]. *)
Definition float64_of_len (n : nat) : float := PrimFloat.of_uint63 (Uint63.of_Z (Z.of_nat n)).

(** The [float64] constant [0.85]: the nearest binary64 number. *)
Definition f64_0_85 : float := 0x1.b333333333333p-1%float.

(** [shouldReplaceHeader]. *)
Definition shouldReplaceHeader (originalText newText : string) (heavyCount mediaOrExtra : nat)
  : bool :=
  let shrinkRatio :=
    if (0 <? String.length originalText)%nat && (0 <? String.length newText)%nat
    then PrimFloat.div (float64_of_len (String.length newText))
                       (float64_of_len (String.length originalText))
    else 1%float in
  (0 <? heavyCount)%nat || (8 <? mediaOrExtra)%nat || PrimFloat.ltb shrinkRatio f64_0_85.

(** The replacement [headerNormalization] builds: a [div] marked as trimmed
    header holding the badge copy (if any), a copy of the heading and the
    summary copy (if any). *)
Definition trimmed_wrapper (badge : option Node) (heading : Node) (summary : option Node) : Node :=
  let wrapper := setAttr (CreateElement "div") "data-trimmed-header" "1" in
  let wrapper := match badge with Some b => AppendChild wrapper b | None => wrapper end in
  let wrapper := AppendChild wrapper (cloneNodeDeep heading) in
  match summary with Some sm => AppendChild wrapper sm | None => wrapper end.

(** [for _, m := range heavy { removeNode(m) }].  The nodes are listed in
    document order; taking them out last first keeps the paths of the ones
    still to go valid, and a node below an already listed one leaves with
    it either way. *)
Definition remove_all (ps : list path) (n : Node) : Node :=
  fold_left (fun n p => remove_at p n) (rev ps) n.

(** The body of the loop of [headerNormalization] for one header [h]: what
    stands in its place afterwards, and whether [h] was replaced (taken out
    of the tree). *)
Definition visit_header (h : Node) : Node * bool :=
  match findHeading h with
  | None => (h, false)
  | Some heading =>
      let badge := cloneUsefulBadge h in
      let summary := findSummaryParagraph h in
      let heavy := collectHeavyMeta h heading summary in
      let wrapper := trimmed_wrapper badge (default h (node_at h heading)) summary in
      let originalText := TrimSpace (TextContent h) in
      let newText := TrimSpace (TextContent wrapper) in
      let mediaOrExtra := List.length (QuerySelectorAll (tags ["img"; "a"]) h) in
      if shouldReplaceHeader originalText newText (List.length heavy) mediaOrExtra
      then (wrapper, true)
      else (remove_all heavy h, false)
  end.

Definition headerSel : list selector :=
  [sel_child (sel_tag "article") (sel_tag "header");
   sel_child (sel_tag "body") (sel_tag "header");
   sel_child (sel_tag "main") (sel_tag "header")].

(** [p] lies strictly below [g]. *)
Definition below (g p : path) : bool :=
  (List.length g <? List.length p)%nat && bool_decide (take (List.length g) p = g).

(** One step of the loop of [headerNormalization].  The headers were
    collected before the loop; [gone] lists the ones replaced so far.  A
    header below a replaced one is no longer part of the document: it is
    still visited, but what happens to it happens inside the subtree that
    was taken out (its parent is a node of that subtree), and the document
    stays as it is. *)
Definition headerNormalization_step (st : Node * list path) (p : path) : Node * list path :=
  let '(doc, gone) := st in
  if existsb (fun g => below g p) gone then (doc, gone)
  else
    match node_at doc p with
    | None => (doc, gone)
    | Some h =>
        let '(h', replaced) := visit_header h in
        (alter_at (fun _ => h') p doc, if replaced then p :: gone else gone)
    end.

(** [headerNormalization]. *)
Definition headerNormalization (doc : Node) : Node :=
  fst (fold_left headerNormalization_step (QuerySelectorAll headerSel doc) (doc, [])).

End Normalize.

(** [el.Data = "div"] (and the atom with it). *)
Definition rename_div (n : Node) : Node :=
  let 'mkNode ty _ attrs kids := n in mkNode ty "div" attrs kids.

(** One step of the loop of [normalizeInlineWrappers]; renaming changes no
    path. *)
Definition normalizeInlineWrappers_step (doc : Node) (p : path) : Node :=
  match node_at doc p with
  | Some el => if hasBlockDescendant el then alter_at rename_div p doc else doc
  | None => doc
  end.

(** [normalizeInlineWrappers]. *)
Definition normalizeInlineWrappers (doc : Node) : Node :=
  fold_left normalizeInlineWrappers_step (QuerySelectorAll inlineSel doc) doc.

Module DomExamples.

Definition el (tag : string) (kids : list Node) : Node := mkNode ElementNode tag [] kids.
Definition text (s : string) : Node := mkNode TextNode s [] [].
Definition document (kids : list Node) : Node := mkNode DocumentNode "" [] kids.

(** A page header whose heading wraps an article with a header of its own. *)
Definition nested_headers : Node :=
  document
    [el "html"
       [el "body"
          [el "header"
             [el "h1" [el "article" [el "header" [el "h2" [text "Title"]; el "ul" []]]];
              el "ul" []]]]].

End DomExamples.

(** ** Facts about trees and paths *)

Section TreeFacts.

(** Induction on a tree with the hypothesis for every child. *)
Lemma Node_ind_kids (P : Node -> Prop) :
  (forall ty d a kids, Forall P kids -> P (mkNode ty d a kids)) -> forall n, P n.
Proof.
  intros H. fix IH 1. intros [ty d a kids]. apply H.
  induction kids as [|k ks IHks]; constructor; [apply IH | exact IHks].
Qed.

Lemma node_at_app n (p q : path) :
  node_at n (p ++ q)%list = match node_at n p with Some m => node_at m q | None => None end.
Proof.
  revert n. induction p as [|i p IH]; intros n; cbn [node_at app]; [reflexivity|].
  destruct (node_kids n !! i); [apply IH | reflexivity].
Qed.

Lemma node_at_alter_at f p n h :
  node_at n p = Some h -> node_at (alter_at f p n) p = Some (f h).
Proof.
  revert n. induction p as [|i p IH]; intros [ty d a kids]; cbn [node_at alter_at node_kids].
  - now intros [= ->].
  - destruct (kids !! i) as [k|] eqn:E; [|discriminate]. intros H.
    rewrite list_lookup_alter, E. destruct (decide (i = i)); [|congruence]. cbn. now apply IH.
Qed.

Lemma alter_at_same p n h : node_at n p = Some h -> alter_at (fun _ => h) p n = n.
Proof.
  revert n. induction p as [|i p IH]; intros [ty d a kids]; cbn [node_at alter_at node_kids].
  - now intros [= ->].
  - destruct (kids !! i) as [k|] eqn:E; [|discriminate]. intros H. f_equal.
    apply list_eq. intros j. rewrite list_lookup_alter.
    destruct (decide (i = j)) as [<-|]; [|reflexivity]. rewrite E. cbn. now rewrite (IH k H).
Qed.

End TreeFacts.

(** ** Facts about header normalization *)

(** The shrink ratio in the words of the specification: the length of the
    new text over the length of the original text, and 1 when either is
    empty.  The quotient is the [float64] one. *)
Definition spec_shrink (originalText newText : string) : float :=
  if (String.length originalText =? 0)%nat || (String.length newText =? 0)%nat
  then 1%float
  else PrimFloat.div (float64_of_len (String.length newText))
                     (float64_of_len (String.length originalText)).

Section HeaderFacts.

Lemma shouldReplaceHeader_spec o n heavyCount mediaOrExtra :
  shouldReplaceHeader o n heavyCount mediaOrExtra =
  (0 <? heavyCount)%nat || (8 <? mediaOrExtra)%nat || PrimFloat.ltb (spec_shrink o n) f64_0_85.
Proof.
  unfold shouldReplaceHeader, spec_shrink.
  destruct (String.length o) as [|lo], (String.length n) as [|ln]; reflexivity.
Qed.

Lemma kept_header_no_heavy o n heavyCount mediaOrExtra :
  shouldReplaceHeader o n heavyCount mediaOrExtra = false -> heavyCount = 0%nat.
Proof.
  unfold shouldReplaceHeader. destruct heavyCount; [reflexivity|]. cbn. discriminate.
Qed.

Lemma AppendChild_Data n c : node_Data (AppendChild n c) = node_Data n.
Proof. destruct n. reflexivity. Qed.

Lemma trimmed_wrapper_Data badge heading summary :
  node_Data (trimmed_wrapper badge heading summary) = "div".
Proof.
  unfold trimmed_wrapper. destruct summary, badge; rewrite ?AppendChild_Data; reflexivity.
Qed.

End HeaderFacts.

(** X15: a header visited by header normalization (one with a heading) is
    replaced by the trimmed wrapper, a [div], exactly when the number of
    heavy-meta nodes is above 0, or the number of [img] and [a] descendants
    is above 8, or the shrink ratio is below 0.85.  The ratio is that of the
    byte lengths of the wrapper's text and the header's text, each as
    [strings.TrimSpace] returns it, whatever that function does to a text.
    Otherwise the collected heavy-meta nodes are taken out in place and the
    header stays; there are none to take out then, so the document is left
    as it was.  [headerNormalization] is this step taken for every header
    the selector finds before the loop starts, in document order. *)
Theorem header_replaced_iff {strs : Strings} (doc : Node) (gone : list path) (p : path) (h : Node) (heading : path) :
  node_at doc p = Some h ->
  existsb (fun g => below g p) gone = false ->
  findHeading h = Some heading ->
  let badge := cloneUsefulBadge h in
  let summary := findSummaryParagraph h in
  let heavy := collectHeavyMeta h heading summary in
  let wrapper := trimmed_wrapper badge (default h (node_at h heading)) summary in
  let media := List.length (QuerySelectorAll (tags ["img"; "a"]) h) in
  let shrink := spec_shrink (TrimSpace (TextContent h)) (TrimSpace (TextContent wrapper)) in
  let replace :=
    (0 <? List.length heavy)%nat || (8 <? media)%nat || PrimFloat.ltb shrink f64_0_85 in
  node_Data wrapper = "div" /\
  (replace = true ->
     headerNormalization_step (doc, gone) p = (alter_at (fun _ => wrapper) p doc, p :: gone) /\
     node_at (alter_at (fun _ => wrapper) p doc) p = Some wrapper) /\
  (replace = false ->
     headerNormalization_step (doc, gone) p
       = (alter_at (fun _ => remove_all heavy h) p doc, gone) /\
     heavy = [] /\ alter_at (fun _ => remove_all heavy h) p doc = doc) /\
  (forall doc0,
     headerNormalization doc0
     = fst (fold_left headerNormalization_step (QuerySelectorAll headerSel doc0) (doc0, []))).
Proof.
  intros Hat Hgone Hh badge summary heavy wrapper media shrink replace.
  split; [apply trimmed_wrapper_Data|].
  cut ((replace = true ->
          headerNormalization_step (doc, gone) p
            = (alter_at (fun _ => wrapper) p doc, p :: gone) /\
          node_at (alter_at (fun _ => wrapper) p doc) p = Some wrapper) /\
       (replace = false ->
          headerNormalization_step (doc, gone) p
            = (alter_at (fun _ => remove_all heavy h) p doc, gone) /\
          heavy = [] /\ alter_at (fun _ => remove_all heavy h) p doc = doc)).
  { intros [A B]. split; [exact A|]. split; [exact B|]. reflexivity. }
  assert (Hstep : headerNormalization_step (doc, gone) p =
                  if replace then (alter_at (fun _ => wrapper) p doc, p :: gone)
                  else (alter_at (fun _ => remove_all heavy h) p doc, gone)).
  { unfold headerNormalization_step. rewrite Hgone, Hat. unfold visit_header. rewrite Hh.
    cbv zeta. fold badge summary. fold heavy. fold wrapper. fold media.
    rewrite shouldReplaceHeader_spec. fold shrink. fold replace.
    destruct replace; reflexivity. }
  split; intros Hr; rewrite Hr in Hstep.
  - split; [exact Hstep|]. exact (node_at_alter_at (fun _ => wrapper) p doc h Hat).
  - split; [exact Hstep|].
    assert (Hnil : heavy = []).
    { apply length_zero_iff_nil. subst replace.
      destruct (List.length heavy); [reflexivity | discriminate Hr]. }
    split; [exact Hnil|]. rewrite Hnil. cbn. now apply alter_at_same.
Qed.

(** ** Facts about the inline-wrapper pass *)

(** The matches among the children [ks] of [parent] (the first of which is
    child number [i]) and below them: the loop inside [QuerySelectorAll]. *)
Fixpoint qsa_kids (g : list selector) (parent : Node) (i : nat) (ks : list Node) : list path :=
  match ks with
  | [] => []
  | k :: ks' =>
      ((if matches_group g parent k then [[i]] else [])
         ++ List.map (cons i) (QuerySelectorAll g k)
         ++ qsa_kids g parent (S i) ks')%list
  end.

(** Is there an element with a tag of [l] strictly below [n]? *)
Fixpoint has_below (l : list string) (n : Node) : bool :=
  let 'mkNode _ _ _ kids := n in
  existsb (fun k => has_tag_in l k || has_below l k) kids.

(** The node with the type, tag and attributes of [label] and the children
    of [kids_from]. *)
Definition with_kids_of (label kids_from : Node) : Node :=
  mkNode (node_Type label) (node_Data label) (node_Attr label) (node_kids kids_from).

(** A loop [for _, el := range dom.QuerySelectorAll(doc, g) { v(el) }] whose
    body [v] changes the node it is given but not its children, seen from
    the tree: every match below [n] (a match in the tree as it was when the
    list was made) gets the type, tag and attributes that [v] gives it when
    its turn comes, which is before anything below it is visited. *)
Fixpoint visit_below (g : list selector) (v : Node -> Node) (n : Node) : Node :=
  let 'mkNode ty d a kids := n in
  mkNode ty d a
    (List.map (fun k => if matches_group g n k
                        then with_kids_of (v k) (visit_below g v k)
                        else visit_below g v k) kids).

Section InlineFacts.

Lemma QuerySelectorAll_unfold g n : QuerySelectorAll g n = qsa_kids g n 0 (node_kids n).
Proof.
  destruct n as [ty d a kids]. cbn [QuerySelectorAll node_kids].
  generalize (mkNode ty d a kids) as parent. intros parent.
  generalize 0%nat. induction kids as [|k ks IH]; intros i; [reflexivity|].
  cbn [qsa_kids]. rewrite <- IH. reflexivity.
Qed.

Lemma matches_tags l parent n : matches_group (tags l) parent n = has_tag_in l n.
Proof.
  unfold has_tag_in, matches_group, tags. induction l as [|t l IH]; cbn.
  - now rewrite andb_false_r.
  - rewrite IH. unfold matches_simple. destruct (is_element n); reflexivity.
Qed.

Lemma qsa_kids_nonempty g parent i ks : Forall (fun p => p <> []) (qsa_kids g parent i ks).
Proof.
  revert i. induction ks as [|k ks IH]; intros i; cbn [qsa_kids]; [constructor|].
  apply Forall_app. split; [|apply Forall_app; split; [|apply IH]].
  - destruct (matches_group g parent k); repeat constructor. discriminate.
  - apply Forall_forall. intros p Hp. apply list_elem_of_In in Hp.
    apply in_map_iff in Hp as (q & <- & _). discriminate.
Qed.

Lemma QuerySelectorAll_nonempty g n : Forall (fun p => p <> []) (QuerySelectorAll g n).
Proof. rewrite QuerySelectorAll_unfold. apply qsa_kids_nonempty. Qed.

Lemma qsa_kids_any g parent i ks :
  (0 <? List.length (qsa_kids g parent i ks))%nat =
  existsb (fun k => matches_group g parent k || (0 <? List.length (QuerySelectorAll g k))%nat) ks.
Proof.
  revert i. induction ks as [|k ks IH]; intros i; cbn [qsa_kids existsb]; [reflexivity|].
  rewrite !length_app, length_map, <- (IH (S i)).
  assert (Hadd : forall a b : nat, (0 <? a + b)%nat = (0 <? a)%nat || (0 <? b)%nat).
  { intros [|a] [|b]; reflexivity. }
  destruct (matches_group g parent k); cbn [List.length orb Nat.add]; [reflexivity|].
  apply Hadd.
Qed.

(** [hasBlockDescendant] says what its name says. *)
Lemma has_descendant_tag l n :
  (0 <? List.length (QuerySelectorAll (tags l) n))%nat = has_below l n.
Proof.
  induction n as [ty d a kids IH] using Node_ind_kids.
  rewrite QuerySelectorAll_unfold, qsa_kids_any. cbn [node_kids has_below].
  generalize (mkNode ty d a kids) as parent. intros parent.
  induction IH as [|k ks Hk _ IHks]; cbn [existsb]; [reflexivity|].
  now rewrite IHks, Hk, matches_tags.
Qed.

Lemma hasBlockDescendant_below n : hasBlockDescendant n = has_below block_tags n.
Proof. apply has_descendant_tag. Qed.

Lemma has_below_none l n q d :
  has_below l n = false -> q <> [] -> node_at n q = Some d -> has_tag_in l d = false.
Proof.
  revert n. induction q as [|i q IH]; intros [ty dat a kids] Hb Hq; [contradiction|].
  cbn [node_at node_kids]. destruct (kids !! i) as [k|] eqn:E; [|discriminate].
  cbn [has_below] in Hb.
  assert (Hk : has_tag_in l k || has_below l k = false).
  { destruct (has_tag_in l k || has_below l k) eqn:X; [|reflexivity].
    rewrite <- Hb. symmetry. apply existsb_exists. exists k. split; [|exact X].
    apply list_elem_of_In. eapply list_elem_of_lookup_2. exact E. }
  apply orb_false_elim in Hk as [Hk1 Hk2].
  destruct q as [|j q]; [now intros [= <-]|]. apply IH; [exact Hk2 | discriminate].
Qed.

End InlineFacts.

(** *** Loops over a query result that relabel the matches *)

Section VisitPass.

Variable g : list selector.
Variable v : Node -> Node.
Hypothesis v_kids : forall n, node_kids (v n) = node_kids n.

Let visit (doc : Node) (p : path) : Node := alter_at v p doc.

Lemma alter_fixed {A} (f : A -> A) i (l : list A) :
  (forall x, l !! i = Some x -> f x = x) -> alter f i l = l.
Proof.
  intros H. apply list_eq. intros j. rewrite list_lookup_alter.
  destruct (decide (i = j)) as [<-|]; [|reflexivity].
  destruct (l !! i) as [x|] eqn:E; [|reflexivity]. cbn. now rewrite (H x).
Qed.

Lemma alter_middle {A} (f : A -> A) (pre : list A) x l :
  alter f (List.length pre) (pre ++ x :: l)%list = (pre ++ f x :: l)%list.
Proof. induction pre as [|y pre IH]; cbn; [reflexivity | now rewrite IH]. Qed.

(** The visits at paths through child [i] are the visits inside that child. *)
Lemma visit_fold_child ty d a kids i (ps : list path) :
  fold_left visit (List.map (cons i) ps) (mkNode ty d a kids) =
  mkNode ty d a (alter (fun k => fold_left visit ps k) i kids).
Proof.
  revert kids. induction ps as [|q ps IH]; intros kids; cbn [List.map fold_left].
  - f_equal. symmetry. now apply alter_fixed.
  - unfold visit at 2. cbn [alter_at]. rewrite IH. f_equal.
    apply (list_alter_alter_eq (fun k => fold_left visit ps k) (alter_at v q)).
Qed.

(** Visits below a node see its children only and leave the node itself
    alone. *)
Lemma visit_fold_label (ps : list path) :
  Forall (fun p => p <> []) ps ->
  forall x y, node_kids x = node_kids y ->
    fold_left visit ps x = with_kids_of x (fold_left visit ps y).
Proof.
  induction 1 as [|p ps Hp _ IH]; intros x y Hxy; cbn [fold_left].
  - destruct x. unfold with_kids_of. cbn in *. now rewrite Hxy.
  - destruct p as [|i q]; [contradiction|].
    destruct x as [tx dx ax kx], y as [ty dy ay ky]. cbn in Hxy. subst ky.
    unfold visit at 2 4. cbn [alter_at].
    now rewrite (IH (mkNode tx dx ax (alter (alter_at v q) i kx))
                    (mkNode ty dy ay (alter (alter_at v q) i kx)) eq_refl).
Qed.

Lemma visit_pass_kids ks :
  Forall (fun k => fold_left visit (QuerySelectorAll g k) k = visit_below g v k) ks ->
  forall pre ty d a parent,
    fold_left visit (qsa_kids g parent (List.length pre) ks) (mkNode ty d a (pre ++ ks)) =
    mkNode ty d a
      (pre ++ List.map (fun k => if matches_group g parent k
                                 then with_kids_of (v k) (visit_below g v k)
                                 else visit_below g v k) ks).
Proof.
  induction 1 as [|k ks Hk _ IH]; intros pre ty d a parent; cbn [qsa_kids List.map fold_left];
    [reflexivity|].
  rewrite !fold_left_app.
  set (k1 := if matches_group g parent k then v k else k).
  set (k2 := if matches_group g parent k
             then with_kids_of (v k) (visit_below g v k) else visit_below g v k).
  assert (H1 : fold_left visit (if matches_group g parent k then [[List.length pre]] else [])
                 (mkNode ty d a (pre ++ k :: ks)) = mkNode ty d a (pre ++ k1 :: ks)).
  { subst k1. destruct (matches_group g parent k); cbn [fold_left]; [|reflexivity].
    unfold visit. cbn [alter_at]. f_equal. apply alter_middle. }
  assert (H2 : fold_left visit (QuerySelectorAll g k) k1 = k2).
  { subst k1 k2. destruct (matches_group g parent k); [|exact Hk].
    rewrite (visit_fold_label _ (QuerySelectorAll_nonempty g k) (v k) k (v_kids k)).
    now rewrite Hk. }
  etransitivity.
  { apply (f_equal (fold_left visit (qsa_kids g parent (S (List.length pre)) ks))).
    etransitivity.
    { apply (f_equal (fold_left visit (List.map (cons (List.length pre))
                                         (QuerySelectorAll g k)))).
      exact H1. }
    rewrite visit_fold_child, alter_middle, H2. reflexivity. }
  replace (S (List.length pre)) with (List.length (pre ++ [k2])) by (rewrite length_app; cbn; lia).
  replace (pre ++ k2 :: ks)%list with ((pre ++ [k2]) ++ ks)%list by now rewrite <- app_assoc.
  rewrite IH, <- app_assoc. reflexivity.
Qed.

(** The loop, seen from the tree. *)
Lemma visit_pass n : fold_left visit (QuerySelectorAll g n) n = visit_below g v n.
Proof.
  induction n as [ty d a kids IH] using Node_ind_kids.
  rewrite QuerySelectorAll_unfold. cbn [node_kids visit_below].
  exact (visit_pass_kids kids IH [] ty d a (mkNode ty d a kids)).
Qed.

End VisitPass.


(** *** The inline-wrapper pass *)

(** The body of the loop of [normalizeInlineWrappers]. *)
Definition promote_inline (el : Node) : Node :=
  if hasBlockDescendant el then rename_div el else el.

Section InlinePass.

Lemma alter_at_none f p n : node_at n p = None -> alter_at f p n = n.
Proof.
  revert n. induction p as [|i p IH]; intros [ty d a kids]; cbn [node_at alter_at node_kids];
    [discriminate|].
  intros H. f_equal. apply alter_fixed. intros k Hk. rewrite Hk in H. now apply IH.
Qed.

Lemma alter_at_agree f f' p n el :
  node_at n p = Some el -> f el = f' el -> alter_at f p n = alter_at f' p n.
Proof.
  revert n. induction p as [|i p IH]; intros [ty d a kids]; cbn [node_at alter_at node_kids].
  - now intros [= ->].
  - destruct (kids !! i) as [k|] eqn:E; [|discriminate]. intros H Hf. f_equal.
    apply list_alter_ext; [|reflexivity]. intros x Hx. assert (x = k) by congruence. subst x.
    now apply IH.
Qed.

Lemma alter_at_fixed f p n el : node_at n p = Some el -> f el = el -> alter_at f p n = n.
Proof.
  intros H Hf. rewrite (alter_at_agree f (fun _ => el) p n el H Hf). now apply alter_at_same.
Qed.

Lemma fold_left_agree {A B} (f f' : A -> B -> A) l a :
  (forall x y, f x y = f' x y) -> fold_left f l a = fold_left f' l a.
Proof. intros H. revert a. induction l as [|b l IH]; intros a; cbn; [reflexivity|]. now rewrite H, IH. Qed.

Lemma inline_step_alter doc p :
  normalizeInlineWrappers_step doc p = alter_at promote_inline p doc.
Proof.
  unfold normalizeInlineWrappers_step. destruct (node_at doc p) as [el|] eqn:E.
  - destruct (hasBlockDescendant el) eqn:Hb.
    + apply (alter_at_agree _ _ _ _ el E). unfold promote_inline. now rewrite Hb.
    + symmetry. apply (alter_at_fixed _ _ _ el E). unfold promote_inline. now rewrite Hb.
  - symmetry. now apply alter_at_none.
Qed.

Lemma promote_inline_kids n : node_kids (promote_inline n) = node_kids n.
Proof. unfold promote_inline. destruct (hasBlockDescendant n), n; reflexivity. Qed.

(** The pass, seen from the tree. *)
Lemma normalizeInlineWrappers_tree doc :
  normalizeInlineWrappers doc = visit_below inlineSel promote_inline doc.
Proof.
  unfold normalizeInlineWrappers.
  rewrite (fold_left_agree _ (fun d p => alter_at promote_inline p d) _ _ inline_step_alter).
  apply visit_pass. exact promote_inline_kids.
Qed.

Lemma lookup_map {A B} (f : A -> B) (l : list A) i : List.map f l !! i = option_map f (l !! i).
Proof. revert i. induction l as [|x l IH]; intros [|i]; cbn; auto. Qed.

Lemma node_at_with_kids_of x y q : q <> [] -> node_at (with_kids_of x y) q = node_at y q.
Proof. destruct q; [contradiction | reflexivity]. Qed.

Lemma removelast_cons {A} (i : A) q : q <> [] -> removelast (i :: q) = i :: removelast q.
Proof. destruct q; [contradiction | reflexivity]. Qed.

(** Where the nodes of the result of a relabelling loop come from. *)
Lemma visit_below_at g v n p el' :
  p <> [] -> node_at (visit_below g v n) p = Some el' ->
  exists parent el,
    node_at n (removelast p) = Some parent /\ node_at n p = Some el /\
    el' = if matches_group g parent el then with_kids_of (v el) (visit_below g v el)
          else visit_below g v el.
Proof.
  revert n. induction p as [|i q IH]; intros n Hp; [contradiction|].
  destruct n as [ty d a kids]. cbn [visit_below node_at node_kids].
  rewrite lookup_map. destruct (kids !! i) as [k|] eqn:E; cbn [option_map]; [|discriminate].
  destruct q as [|j q].
  - cbn [node_at]. intros [= <-]. exists (mkNode ty d a kids), k. cbn. auto.
  - intros H.
    assert (Hk : node_at (visit_below g v k) (j :: q) = Some el').
    { destruct (matches_group g (mkNode ty d a kids) k); [|exact H].
      now rewrite node_at_with_kids_of in H. }
    assert (Hne : j :: q <> []) by discriminate.
    destruct (IH k Hne Hk) as (parent & el & H1 & H2 & H3).
    exists parent, el. rewrite removelast_cons by discriminate.
    cbn [node_at node_kids]. rewrite E. auto.
Qed.

Lemma visit_below_Type g v n : node_Type (visit_below g v n) = node_Type n.
Proof. destruct n; reflexivity. Qed.
Lemma visit_below_Data g v n : node_Data (visit_below g v n) = node_Data n.
Proof. destruct n; reflexivity. Qed.
Lemma visit_below_Attr g v n : node_Attr (visit_below g v n) = node_Attr n.
Proof. destruct n; reflexivity. Qed.

Lemma has_tag_in_visit_below l g v n : has_tag_in l (visit_below g v n) = has_tag_in l n.
Proof. destruct n; reflexivity. Qed.

Lemma has_below_with_kids_of l x y : has_below l (with_kids_of x y) = has_below l y.
Proof. destruct y; reflexivity. Qed.

Lemma has_tag_in_with_kids_of l x y : has_tag_in l (with_kids_of x y) = has_tag_in l x.
Proof. destruct x; reflexivity. Qed.

Lemma has_tag_in_element l n : has_tag_in l n = true -> is_element n = true.
Proof. unfold has_tag_in. now intros [H _]%andb_prop. Qed.

Lemma rename_div_block n : is_element n = true -> has_tag_in block_tags (rename_div n) = true.
Proof. destruct n as [[] d a kids]; cbn; try discriminate. reflexivity. Qed.

Lemma rename_div_not_inline n : has_tag_in inline_tags (rename_div n) = false.
Proof. destruct n as [[] d a kids]; reflexivity. Qed.

Lemma matches_inlineSel parent k : matches_group inlineSel parent k = has_tag_in inline_tags k.
Proof. apply matches_tags. Qed.

(** The pass neither makes nor removes block-level content below a node. *)
Lemma has_below_block_promoted n :
  has_below block_tags (visit_below inlineSel promote_inline n) = has_below block_tags n.
Proof.
  induction n as [ty d a kids IH] using Node_ind_kids. cbn [visit_below has_below].
  generalize (mkNode ty d a kids) as parent. intros parent.
  induction IH as [|k ks Hk _ IHks]; cbn [List.map existsb]; [reflexivity|].
  rewrite IHks. f_equal. rewrite matches_inlineSel.
  destruct (has_tag_in inline_tags k) eqn:Hin.
  - rewrite has_below_with_kids_of, has_tag_in_with_kids_of, Hk. unfold promote_inline.
    destruct (hasBlockDescendant k) eqn:Hb; [|reflexivity].
    rewrite rename_div_block by (eapply has_tag_in_element; exact Hin).
    rewrite hasBlockDescendant_below in Hb. rewrite Hb, !orb_true_r. reflexivity.
  - now rewrite has_tag_in_visit_below, Hk.
Qed.

End InlinePass.

(** X16: After the inline-wrapper pass over a tree whose root is not itself an
    inline element (a document node is none), no element with an inline tag
    has a descendant with a block-level tag. *)
Theorem inline_wrappers_promoted (doc : Node) (p q : path) (el d : Node) :
  has_tag_in inline_tags doc = false ->
  node_at (normalizeInlineWrappers doc) p = Some el ->
  has_tag_in inline_tags el = true ->
  q <> [] -> node_at el q = Some d ->
  has_tag_in block_tags d = false.
Proof.
  intros Hroot Hel Hin Hq Hd. rewrite normalizeInlineWrappers_tree in Hel.
  destruct p as [|i p].
  - cbn [node_at] in Hel. injection Hel as <-. rewrite has_tag_in_visit_below in Hin. congruence.
  - assert (Hne : i :: p <> []) by discriminate.
    destruct (visit_below_at _ _ _ _ _ Hne Hel) as (parent & el0 & _ & _ & ->).
    rewrite matches_inlineSel in Hin, Hd.
    destruct (has_tag_in inline_tags el0) eqn:Hin0.
    + rewrite has_tag_in_with_kids_of in Hin. unfold promote_inline in Hin, Hd.
      destruct (hasBlockDescendant el0) eqn:Hb.
      * rewrite rename_div_not_inline in Hin. discriminate.
      * apply (has_below_none block_tags _ q d) in Hd; [exact Hd | | exact Hq].
        rewrite has_below_with_kids_of, has_below_block_promoted.
        now rewrite <- hasBlockDescendant_below.
    + rewrite has_tag_in_visit_below in Hin. congruence.
Qed.

(** * Further properties of the session registry *)

Section RegistryMore.

Lemma on_tabLoadQuery_reply now id st :
  fst (on_tabLoadQuery now id st) = default session_zero (tabs st !! id) /\
  tabs (snd (on_tabLoadQuery now id st)) = delete id (tabs st).
Proof.
  unfold on_tabLoadQuery. destruct (parseTabID id) as [[prefix suffix] [e|]]; [split; reflexivity|].
  cbn [windows with_tabs]. destruct (windows st !! prefix); split; reflexivity.
Qed.

Lemma string_app_inv_length (a b c d : string) :
  a ++ c = b ++ d -> String.length c = String.length d -> a = b /\ c = d.
Proof.
  revert b. induction a as [|x a IH]; intros [|y b] E Hl.
  - auto.
  - change (c = String y (b ++ d)) in E. subst c.
    pose proof (string_length_app b d) as L. cbn [String.length] in Hl. lia.
  - change (String x (a ++ c) = d) in E. subst d.
    pose proof (string_length_app a c) as L. cbn [String.length] in Hl. lia.
  - change (String x (a ++ c) = String y (b ++ d)) in E. injection E as -> E.
    destruct (IH b E Hl) as [-> ->]. auto.
Qed.

Lemma sibling_id now ses t st :
  ses_id (fst (createSiblingTabWithTimeout now ses t st)) =
  ses_id (fst (sibling_owner now ses t st)) ++ "_" ++
  fst (createSessionID (snd (sibling_owner now ses t st))).
Proof.
  unfold createSiblingTabWithTimeout, createSessionID, rand_Int63, NewContext.
  destruct (sibling_owner now ses t st) as [owner st1]. reflexivity.
Qed.

Lemma tab_shape_split (w x p q : string) :
  String.length x = 8%nat -> tab_shape (w ++ "_" ++ x) p q -> p = w /\ q = x.
Proof.
  intros Hxl (E & _ & _ & Hq & _).
  change (p ++ "_" ++ q) with (p ++ String "_" q) in E.
  change (w ++ "_" ++ x) with (w ++ String "_" x) in E.
  destruct (string_app_inv_length w p (String "_" x) (String "_" q) E) as [-> [= ->]];
    [cbn; lia | auto].
Qed.

End RegistryMore.

(** X1: A saved tab comes back once: loading it right after saving it returns
    the very session that was saved and takes it out of the tab map, so a
    second load of the same id gets the empty session. *)
Theorem tab_save_load_round_trip (now : Z) (t : session) (st : registry) :
  let st1 := saveTab t st in
  let st2 := snd (loadTab now (ses_id t) st1) in
  fst (loadTab now (ses_id t) st1) = t /\
  tabs st2 = delete (ses_id t) (tabs st) /\
  fst (loadTab now (ses_id t) st2) = session_zero.
Proof.
  cbn zeta. unfold loadTab, saveTab.
  destruct (on_tabLoadQuery_reply now (ses_id t) (on_tabSave t st)) as [R1 T1].
  destruct (on_tabLoadQuery_reply now (ses_id t) (snd (on_tabLoadQuery now (ses_id t) (on_tabSave t st))))
    as [R2 _].
  rewrite R2, T1, R1. cbn [tabs on_tabSave with_tabs].
  rewrite lookup_insert_eq, delete_insert_eq, lookup_delete_eq. auto.
Qed.

(** X2: The id of a tab made by [createSiblingTabWithTimeout] parses back into
    its window exactly when the window's id is eight or more hex digits.
    Under a window whose id holds any other byte (or is shorter) the tab gets
    an id that [parseTabID] rejects, so [load_tab] can never name it. *)
Theorem sibling_id_parses_iff (now : Z) (ses : session) (t : Duration) (st : registry) :
  let owner := fst (sibling_owner now ses t st) in
  let tab := fst (createSiblingTabWithTimeout now ses t st) in
  (snd (parseTabID (ses_id tab)) = None <->
   (8 <= String.length (ses_id owner))%nat /\ all_xdigit (ses_id owner) = true) /\
  (snd (parseTabID (ses_id tab)) = None ->
   fst (fst (parseTabID (ses_id tab))) = ses_id owner).
Proof.
  cbn zeta. rewrite sibling_id.
  set (w := ses_id (fst (sibling_owner now ses t st))).
  set (x := fst (createSessionID (snd (sibling_owner now ses t st)))).
  destruct (createSessionID_WindowID (snd (sibling_owner now ses t st))) as [Hxl Hxd].
  fold x in Hxl, Hxd.
  destruct (parseTabID_cases (w ++ "_" ++ x)) as [(p & q & Hs & E) | [Hn E]].
  - destruct (tab_shape_split w x p q Hxl Hs) as [-> ->]. rewrite E. cbn [fst snd].
    destruct Hs as (_ & Hl & Hd & _). repeat split; auto.
  - rewrite E. cbn [fst snd]. split; [split|]; try discriminate.
    intros [Hl Hd]. destruct (Hn w x). repeat split; assumption.
Qed.

(** X3: [closeWindow]: closing a window that is there takes it out of the window
    map and calls its cancel function, once; the tab map is left alone, the
    window's own tabs included.  Closing an id that is not there changes
    nothing. *)
Theorem windowClose_effect (id : string) (st : registry) :
  (forall w c, windows st !! id = Some w -> ses_cancel w = Some c ->
     windows (on_windowClose id st) = delete id (windows st) /\
     cancelled (on_windowClose id st) = (cancelled st ++ [c])%list /\
     tabs (on_windowClose id st) = tabs st /\
     stderr (on_windowClose id st) = stderr st) /\
  (windows st !! id = None -> on_windowClose id st = st).
Proof.
  unfold on_windowClose. split.
  - intros w c Hw Hc. rewrite Hw. unfold shutdown. rewrite Hc. repeat split.
  - intros ->. reflexivity.
Qed.

(** ** Garbage collection of windows *)

(** [elapsed > w.timeout] with [elapsed := time.Since(w.last)]. *)
Definition expired (now : Z) (w : session) : bool := now - ses_last w >? ses_timeout w.

(** Whether [id] names a window of the map that has outlived its timeout. *)
Definition expired_at (now : Z) (st : registry) (id : string) : bool :=
  match windows st !! id with
  | Some w => expired now w
  | None => false
  end.

(** The registry invariant: every window is stored under its own id, and a
    window id has eight bytes or more. *)
Definition registry_keyed (st : registry) : Prop :=
  map_Forall (fun k w => ses_id w = k /\ (8 <= String.length k)%nat) (windows st).

Section GC.

(** [fmt.Sprintf("%.1f", d.Seconds())]. *)
Variable fmt_seconds : Duration -> string.

(** The order in which a [range] over a map yields its keys.  Go leaves it
    unspecified; an entry removed before it is reached is not produced,
    which the loops below check at each key. *)
Variable range_keys : gmap string session -> list string.

(** The [for tid := range *tabs] loop of [removeWindow]. *)
Fixpoint removeWindow_range (id : string) (order : list string) (st : registry)
  (tabLog : list string) : registry * list string :=
  match order with
  | [] => (st, tabLog)
  | tid :: rest =>
      match tabs st !! tid with
      | None => removeWindow_range id rest st tabLog
      | Some _ =>
          let '(prefix, suffix, _) := parseTabID tid in
          if String.eqb prefix id
          then removeWindow_range id rest (with_tabs (delete tid (tabs st)) st)
                                  (tabLog ++ ["_" ++ suffix])
          else removeWindow_range id rest st tabLog
      end
  end.

(** [removeWindow(id, &windows, &tabs)]; [%v] of a string slice is its
    elements between brackets, separated by blanks. *)
Definition removeWindow (id : string) (st : registry) : string * registry :=
  let st := with_windows (delete id (windows st)) st in
  let '(st, tabLog) := removeWindow_range id (range_keys (tabs st)) st [] in
  if (List.length tabLog =? 0)%nat
  then ("Deleting window " ++ id, st)
  else ("Deleting window " ++ id ++ " including tabs [" ++ Join tabLog " " ++ "]", st).

(** The [for _, w := range windows] loop of the [GCInterval] case. *)
Fixpoint GC_range (now : Z) (order : list string) (st : registry) : registry :=
  match order with
  | [] => st
  | k :: rest =>
      match windows st !! k with
      | None => GC_range now rest st
      | Some w =>
          let elapsed := now - ses_last w in
          if elapsed >? ses_timeout w
          then
            let st := eprint ("Window (session " ++ ses_id w ++ ") was last requested "
                              ++ fmt_seconds elapsed ++ " seconds ago, closing it") st in
            let st := shutdown w st in
            let '(msg, st) := removeWindow (ses_id w) st in
            GC_range now rest (eprint msg st)
          else GC_range now rest st
      end
  end.

(** [case <-GCInterval.C]. *)
Definition on_GCInterval (now : Z) (st : registry) : registry :=
  GC_range now (range_keys (windows st)) st.

Lemma shutdown_maps w st :
  windows (shutdown w st) = windows st /\ tabs (shutdown w st) = tabs st.
Proof. unfold shutdown. destruct (ses_cancel w); split; reflexivity. Qed.

Lemma removeWindow_range_spec id order : forall st tabLog,
  windows (fst (removeWindow_range id order st tabLog)) = windows st /\
  forall tid,
    tabs (fst (removeWindow_range id order st tabLog)) !! tid =
    if bool_decide (tid ∈ order) && String.eqb (fst (fst (parseTabID tid))) id
    then None else tabs st !! tid.
Proof.
  induction order as [|t0 rest IH]; intros st tabLog.
  - split; [reflexivity|]. intros tid. cbn [removeWindow_range fst].
    rewrite bool_decide_eq_false_2 by apply not_elem_of_nil. reflexivity.
  - cbn [removeWindow_range].
    assert (Hin : forall tid, tid <> t0 ->
              bool_decide (tid ∈ t0 :: rest) = bool_decide (tid ∈ rest)).
    { intros tid Hne. apply bool_decide_ext. rewrite elem_of_cons. tauto. }
    assert (Hhd : bool_decide (t0 ∈ t0 :: rest) = true).
    { apply bool_decide_eq_true_2. apply elem_of_cons. auto. }
    destruct (tabs st !! t0) as [t|] eqn:Et.
    + destruct (parseTabID t0) as [[prefix suffix] err] eqn:Ep.
      destruct (String.eqb prefix id) eqn:Eid.
      * destruct (IH (with_tabs (delete t0 (tabs st)) st) (tabLog ++ [("_" ++ suffix)%string])%list)
          as [Hw Ht].
        split; [exact Hw|]. intros tid. rewrite Ht. cbn [tabs with_tabs].
        destruct (decide (tid = t0)) as [->|Hne].
        -- rewrite Hhd, Ep. cbn [fst]. rewrite Eid, lookup_delete_eq.
           cbn [andb]. now destruct (_ && _).
        -- rewrite (Hin tid Hne), lookup_delete_ne by congruence. reflexivity.
      * destruct (IH st tabLog) as [Hw Ht]. split; [exact Hw|]. intros tid. rewrite Ht.
        destruct (decide (tid = t0)) as [->|Hne].
        -- rewrite Ep. cbn [fst]. rewrite Eid, !andb_false_r. reflexivity.
        -- now rewrite (Hin tid Hne).
    + destruct (IH st tabLog) as [Hw Ht]. split; [exact Hw|]. intros tid. rewrite Ht.
      destruct (decide (tid = t0)) as [->|Hne].
      * rewrite Et. now destruct (_ && _), (_ && _).
      * now rewrite (Hin tid Hne).
Qed.

Lemma removeWindow_subseteq id st :
  windows (snd (removeWindow id st)) = delete id (windows st) /\
  tabs (snd (removeWindow id st)) ⊆ tabs st.
Proof.
  unfold removeWindow.
  pose proof (removeWindow_range_spec id
    (range_keys (tabs (with_windows (delete id (windows st)) st)))
    (with_windows (delete id (windows st)) st) []) as [Hw Ht].
  destruct (removeWindow_range _ _ _ _) as [st1 tabLog]. cbn [fst] in Hw, Ht.
  assert (G : windows st1 = delete id (windows st) /\ tabs st1 ⊆ tabs st).
  { split; [exact Hw|]. apply map_subseteq_spec. intros tid t. rewrite Ht.
    destruct (_ && _); [discriminate | auto]. }
  destruct (List.length tabLog =? 0)%nat; exact G.
Qed.

Lemma GC_range_subseteq now order : forall st,
  windows (GC_range now order st) ⊆ windows st /\
  tabs (GC_range now order st) ⊆ tabs st.
Proof.
  induction order as [|k0 rest IH]; intros st; [split; reflexivity|].
  cbn [GC_range]. destruct (windows st !! k0) as [w|]; [|apply IH].
  cbn zeta. destruct (now - ses_last w >? ses_timeout w); [|apply IH].
  set (st0 := shutdown w (eprint _ st)).
  assert (Hw0 : windows st0 = windows st /\ tabs st0 = tabs st).
  { subst st0. destruct (shutdown_maps w (eprint
      ("Window (session " ++ ses_id w ++ ") was last requested "
       ++ fmt_seconds (now - ses_last w) ++ " seconds ago, closing it") st)) as [A B].
    rewrite A, B. split; reflexivity. }
  destruct Hw0 as [Hw0 Ht0].
  destruct (removeWindow_subseteq (ses_id w) st0) as [Hw1 Ht1].
  destruct (removeWindow (ses_id w) st0) as [msg st1]. cbn [snd] in Hw1, Ht1.
  destruct (IH (eprint msg st1)) as [A B]. cbn [windows tabs eprint] in A, B. split.
  - etransitivity; [exact A|]. rewrite Hw1, Hw0. apply delete_subseteq.
  - etransitivity; [exact B|]. now rewrite <- Ht0.
Qed.

Lemma registry_keyed_subseteq st st' :
  windows st' ⊆ windows st -> registry_keyed st -> registry_keyed st'.
Proof. intros Hs Hk k w Hkw. apply Hk. eapply lookup_weaken; eassumption. Qed.

Hypothesis range_keys_all :
  forall (m : gmap string session) k, is_Some (m !! k) -> k ∈ range_keys m.

Lemma removeWindow_spec id st :
  windows (snd (removeWindow id st)) = delete id (windows st) /\
  forall tid,
    tabs (snd (removeWindow id st)) !! tid =
    if String.eqb (fst (fst (parseTabID tid))) id then None else tabs st !! tid.
Proof.
  unfold removeWindow.
  pose proof (removeWindow_range_spec id
    (range_keys (tabs (with_windows (delete id (windows st)) st)))
    (with_windows (delete id (windows st)) st) []) as [Hw Ht].
  destruct (removeWindow_range _ _ _ _) as [st1 tabLog]. cbn [fst] in Hw, Ht.
  assert (G : windows st1 = delete id (windows st) /\
              forall tid, tabs st1 !! tid =
                if String.eqb (fst (fst (parseTabID tid))) id then None else tabs st !! tid).
  { split; [exact Hw|]. intros tid. rewrite Ht. cbn [tabs with_tabs with_windows].
    destruct (tabs st !! tid) as [t|] eqn:Et.
    - rewrite bool_decide_eq_true_2; [reflexivity|].
      apply range_keys_all. cbn [tabs with_windows]. rewrite Et. eauto.
    - now destruct (_ && _), (String.eqb _ _). }
  destruct (List.length tabLog =? 0)%nat; exact G.
Qed.

Lemma expired_at_delete now st st1 k0 k :
  windows st1 = delete k0 (windows st) -> k <> k0 ->
  expired_at now st1 k = expired_at now st k.
Proof. intros E Hne. unfold expired_at. now rewrite E, lookup_delete_ne by congruence. Qed.

Lemma GC_range_spec now order : forall st,
  registry_keyed st ->
  registry_keyed (GC_range now order st) /\
  (forall k, windows (GC_range now order st) !! k =
     if bool_decide (k ∈ order) && expired_at now st k then None else windows st !! k) /\
  (forall tid, tabs (GC_range now order st) !! tid =
     if bool_decide (fst (fst (parseTabID tid)) ∈ order)
        && expired_at now st (fst (fst (parseTabID tid)))
     then None else tabs st !! tid).
Proof.
  induction order as [|k0 rest IH]; intros st Hk.
  - split; [exact Hk|]. split; intros x; cbn [GC_range];
      rewrite bool_decide_eq_false_2 by apply not_elem_of_nil; reflexivity.
  - cbn [GC_range].
    assert (Hin : forall k, k <> k0 ->
              bool_decide (k ∈ k0 :: rest) = bool_decide (k ∈ rest)).
    { intros k Hne. apply bool_decide_ext. rewrite elem_of_cons. tauto. }
    assert (Hhd : bool_decide (k0 ∈ k0 :: rest) = true).
    { apply bool_decide_eq_true_2. apply elem_of_cons. auto. }
    assert (Hskip : expired_at now st k0 = false ->
      registry_keyed (GC_range now rest st) /\
      (forall k, windows (GC_range now rest st) !! k =
         if bool_decide (k ∈ k0 :: rest) && expired_at now st k then None
         else windows st !! k) /\
      (forall tid, tabs (GC_range now rest st) !! tid =
         if bool_decide (fst (fst (parseTabID tid)) ∈ k0 :: rest)
            && expired_at now st (fst (fst (parseTabID tid)))
         then None else tabs st !! tid)).
    { intros Hf. destruct (IH st Hk) as (Hk' & Hw & Ht). split; [exact Hk'|].
      split.
      - intros k. rewrite Hw. destruct (decide (k = k0)) as [->|Hne].
        + now rewrite Hf, !andb_false_r.
        + now rewrite (Hin k Hne).
      - intros tid. rewrite Ht.
        destruct (decide (fst (fst (parseTabID tid)) = k0)) as [->|Hne].
        + now rewrite Hf, !andb_false_r.
        + now rewrite (Hin _ Hne). }
    destruct (windows st !! k0) as [w|] eqn:Ew.
    + cbn zeta. destruct (now - ses_last w >? ses_timeout w) eqn:Ex.
      * destruct (Hk k0 w Ew) as [Hid Hlen]. rewrite Hid.
        set (st0 := shutdown w (eprint _ st)).
        assert (Hw0 : windows st0 = windows st /\ tabs st0 = tabs st).
        { subst st0. destruct (shutdown_maps w (eprint
            ("Window (session " ++ k0 ++ ") was last requested "
             ++ fmt_seconds (now - ses_last w) ++ " seconds ago, closing it") st)) as [A B].
          rewrite A, B. split; reflexivity. }
        destruct Hw0 as [Hw0 Ht0].
        destruct (removeWindow_spec k0 st0) as [Hw1 Ht1].
        destruct (removeWindow k0 st0) as [msg st1]. cbn [snd] in Hw1, Ht1.
        rewrite Hw0 in Hw1.
        assert (Hk1 : registry_keyed (eprint msg st1)).
        { unfold registry_keyed. cbn [windows eprint]. rewrite Hw1.
          now apply map_Forall_delete. }
        destruct (IH (eprint msg st1) Hk1) as (Hk' & Hw & Ht). split; [exact Hk'|].
        assert (Hex : expired_at now st k0 = true).
        { unfold expired_at. rewrite Ew. exact Ex. }
        split.
        -- intros k. rewrite Hw. cbn [windows eprint]. rewrite Hw1.
           destruct (decide (k = k0)) as [->|Hne].
           ++ rewrite Hhd, Hex, lookup_delete_eq. cbn [andb]. now destruct (_ && _).
           ++ rewrite (Hin k Hne), lookup_delete_ne by congruence.
              now rewrite (expired_at_delete now st (eprint msg st1) k0 k Hw1 Hne).
        -- intros tid. rewrite Ht. cbn [tabs eprint]. rewrite Ht1, Ht0.
           destruct (decide (fst (fst (parseTabID tid)) = k0)) as [E|Hne].
           ++ rewrite E, Hhd, Hex, String.eqb_refl. cbn [andb]. now destruct (_ && _).
           ++ rewrite (Hin _ Hne).
              rewrite (expired_at_delete now st (eprint msg st1) k0 _ Hw1 Hne).
              apply String.eqb_neq in Hne. now rewrite Hne.
      * apply Hskip. unfold expired_at. rewrite Ew. exact Ex.
    + apply Hskip. unfold expired_at. now rewrite Ew.
Qed.

Lemma on_GCInterval_spec now st :
  registry_keyed st ->
  registry_keyed (on_GCInterval now st) /\
  (forall k, windows (on_GCInterval now st) !! k =
     if expired_at now st k then None else windows st !! k) /\
  (forall tid, tabs (on_GCInterval now st) !! tid =
     if expired_at now st (fst (fst (parseTabID tid))) then None else tabs st !! tid).
Proof.
  intros Hk. unfold on_GCInterval.
  destruct (GC_range_spec now (range_keys (windows st)) st Hk) as (Hk' & Hw & Ht).
  assert (Hcov : forall k, expired_at now st k = true ->
            bool_decide (k ∈ range_keys (windows st)) = true).
  { intros k Hex. apply bool_decide_eq_true_2, range_keys_all.
    unfold expired_at in Hex. destruct (windows st !! k); [eauto | discriminate]. }
  split; [exact Hk'|]. split.
  - intros k. rewrite Hw. destruct (expired_at now st k) eqn:Ex.
    + now rewrite (Hcov k Ex).
    + now rewrite andb_false_r.
  - intros tid. rewrite Ht. destruct (expired_at now st _) eqn:Ex.
    + now rewrite (Hcov _ Ex).
    + now rewrite andb_false_r.
Qed.

End GC.

Section RegistryInvariant.

Lemma on_windowQuery_keyed now q st :
  registry_keyed st -> registry_keyed (snd (on_windowQuery now q st)).
Proof.
  intros Hk. unfold registry_keyed. rewrite on_windowQuery_windows. cbn zeta.
  apply map_Forall_insert_2; [|exact Hk]. split; [reflexivity|].
  rewrite on_windowQuery_reply.
  destruct (windows st !! ses_id q) as [w0|] eqn:E.
  - cbn [ses_id set_last set_timeout]. destruct (Hk _ _ E) as [-> Hl]. exact Hl.
  - cbn zeta. cbn [ses_id set_last set_timeout]. rewrite createWindow_id.
    destruct (Nat.ltb_spec (String.length (ses_id q)) 8) as [Hlt|Hge]; [|exact Hge].
    destruct (fmt_08x_WindowID (Z.land (rand_source st (rand_draws st)) 0xffffffff)) as [-> _].
    apply le_n.
Qed.

Lemma on_windowClose_keyed id st :
  registry_keyed st -> registry_keyed (on_windowClose id st).
Proof.
  intros Hk. apply (registry_keyed_subseteq st); [|exact Hk].
  unfold on_windowClose. destruct (windows st !! id) as [w|]; [|reflexivity].
  cbn [windows with_windows]. destruct (shutdown_maps w st) as [-> _].
  apply delete_subseteq.
Qed.

Lemma on_tabLoadQuery_keyed now id st :
  registry_keyed st -> registry_keyed (snd (on_tabLoadQuery now id st)).
Proof.
  intros Hk. unfold on_tabLoadQuery.
  destruct (parseTabID id) as [[prefix suffix] [e|]]; [exact Hk|].
  cbn [windows with_tabs]. destruct (windows st !! prefix) as [w|] eqn:E; [|exact Hk].
  unfold registry_keyed. cbn [snd windows with_windows with_tabs].
  apply map_Forall_insert_2; [|exact Hk]. exact (Hk _ _ E).
Qed.

Lemma range_keys_of_list (m : gmap string session) k :
  is_Some (m !! k) -> k ∈ (map_to_list m).*1.
Proof.
  intros [x Hx]. apply list_elem_of_fmap. exists (k, x). split; [reflexivity|].
  now apply elem_of_map_to_list.
Qed.

End RegistryInvariant.

(** X4: The message handlers of [AllocateSessions] keep the window map keyed by
    the windows' own ids, and every such id eight bytes long or longer: the
    maps start out empty, and a window query, a window close, a tab save, a
    tab load and a garbage collection each preserve it (in whatever order
    the collection ranges over the maps). *)
Theorem registry_keyed_preserved
  (fmt_seconds : Duration -> string) (range_keys : gmap string session -> list string)
  (now : Z) (q t : session) (id : string) (st : registry) :
  registry_keyed st ->
  registry_keyed (snd (on_windowQuery now q st)) /\
  registry_keyed (on_windowClose id st) /\
  registry_keyed (on_tabSave t st) /\
  registry_keyed (snd (on_tabLoadQuery now id st)) /\
  registry_keyed (on_GCInterval fmt_seconds range_keys now st).
Proof.
  intros Hk. split; [now apply on_windowQuery_keyed|].
  split; [now apply on_windowClose_keyed|]. split; [exact Hk|].
  split; [now apply on_tabLoadQuery_keyed|].
  apply (registry_keyed_subseteq st); [|exact Hk].
  apply GC_range_subseteq.
Qed.

(** The empty registry is keyed, and stays so after a window query. *)
Lemma registry_keyed_preserved_witness :
  registry_keyed (registry_init (fun _ => 0)) /\
  registry_keyed (snd (on_windowQuery 0 session_zero (registry_init (fun _ => 0)))).
Proof.
  assert (H0 : registry_keyed (registry_init (fun _ => 0))) by apply map_Forall_empty.
  split; [exact H0|].
  exact (proj1 (registry_keyed_preserved (fun _ => "") (fun m => (map_to_list m).*1)
                  0 session_zero session_zero "" (registry_init (fun _ => 0)) H0)).
Defined.

(** X5: A garbage collection removes exactly the windows that were last
    requested longer ago than their timeout, and exactly the tabs whose id
    parses into the id of such a window.  Every other window and tab is kept
    as it is: among them the tabs whose id does not parse and the tabs of
    windows that are no longer in the map, which no later collection
    removes either. *)
Theorem gc_removes_exactly_expired
  (fmt_seconds : Duration -> string) (range_keys : gmap string session -> list string)
  (now : Z) (st : registry) :
  (forall (m : gmap string session) k, is_Some (m !! k) -> k ∈ range_keys m) ->
  registry_keyed st ->
  let st' := on_GCInterval fmt_seconds range_keys now st in
  (forall k, windows st' !! k = if expired_at now st k then None else windows st !! k) /\
  (forall tid, tabs st' !! tid =
     if expired_at now st (fst (fst (parseTabID tid))) then None else tabs st !! tid).
Proof.
  intros Hall Hk. cbn zeta.
  destruct (on_GCInterval_spec fmt_seconds range_keys Hall now st Hk) as (_ & Hw & Ht).
  split; assumption.
Qed.

(** X6: A window that a query has just touched survives every collection that
    runs no later than its timeout after the query. *)
Theorem queried_window_survives_gc
  (fmt_seconds : Duration -> string) (range_keys : gmap string session -> list string)
  (t0 now : Z) (q : session) (st : registry) :
  (forall (m : gmap string session) k, is_Some (m !! k) -> k ∈ range_keys m) ->
  registry_keyed st ->
  let w := fst (on_windowQuery t0 q st) in
  let st1 := snd (on_windowQuery t0 q st) in
  now - t0 <= ses_timeout w ->
  ses_timeout q <= ses_timeout w /\
  windows (on_GCInterval fmt_seconds range_keys now st1) !! ses_id w = Some w.
Proof.
  intros Hall Hk w st1 Hle.
  assert (Hk1 : registry_keyed st1) by now apply on_windowQuery_keyed.
  destruct (on_GCInterval_spec fmt_seconds range_keys Hall now st1 Hk1) as (_ & Hw & _).
  assert (Hst : windows st1 !! ses_id w = Some w).
  { subst st1 w. rewrite on_windowQuery_windows. cbn zeta. apply lookup_insert_eq. }
  assert (Hlast : ses_last w = t0 /\ ses_timeout q <= ses_timeout w).
  { subst w. rewrite on_windowQuery_reply.
    destruct (windows st !! ses_id q); cbn [ses_last ses_timeout set_last set_timeout];
      split; try reflexivity; lia. }
  destruct Hlast as [Hlast Hq]. split; [exact Hq|].
  rewrite Hw. unfold expired_at. rewrite Hst. unfold expired. rewrite Hlast.
  rewrite Z.gtb_ltb. destruct (Z.ltb_spec (ses_timeout w) (now - t0)); [lia | reflexivity].
Qed.

Module RegistryExamples.

(** Map keys in the order of [map_to_list]. *)
Definition keys (m : gmap string session) : list string := (map_to_list m).*1.

Definition no_seconds (d : Duration) : string := "".

(** One window "aaaaaaaa" (queried at time 0, default timeout) and one of its
    tabs. *)
Definition one_window : registry :=
  on_tabSave (mkSession None None "aaaaaaaa_bbbbbbbb" 0 0)
    (snd (on_windowQuery 0 (mkSession None None "aaaaaaaa" 0 0) (registry_init (fun _ => 0)))).

End RegistryExamples.

(** 31 s after the only query the window and its tab are collected. *)
Lemma gc_removes_exactly_expired_witness :
  let st := RegistryExamples.one_window in
  let st' := on_GCInterval RegistryExamples.no_seconds RegistryExamples.keys (31 * Second) st in
  (forall (m : gmap string session) k, is_Some (m !! k) -> k ∈ RegistryExamples.keys m) /\
  registry_keyed st /\
  windows st' !! "aaaaaaaa" = None /\ tabs st' !! "aaaaaaaa_bbbbbbbb" = None.
Proof.
  cbn zeta.
  assert (Hk : registry_keyed RegistryExamples.one_window).
  { apply on_windowQuery_keyed, map_Forall_empty. }
  split; [exact range_keys_of_list|]. split; [exact Hk|].
  destruct (gc_removes_exactly_expired RegistryExamples.no_seconds RegistryExamples.keys
              (31 * Second) RegistryExamples.one_window range_keys_of_list Hk) as [Hw Ht].
  rewrite Hw, Ht. split; reflexivity.
Defined.

(** A window queried with a timeout of 60 s is still there 60 s later. *)
Lemma queried_window_survives_gc_witness :
  let q := mkSession None None "aaaaaaaa" 0 (60 * Second) in
  let st := registry_init (fun _ => 0) in
  (forall (m : gmap string session) k, is_Some (m !! k) -> k ∈ RegistryExamples.keys m) /\
  registry_keyed st /\
  60 * Second - 0 <= ses_timeout (fst (on_windowQuery 0 q st)) /\
  windows (on_GCInterval RegistryExamples.no_seconds RegistryExamples.keys (60 * Second)
             (snd (on_windowQuery 0 q st))) !! "aaaaaaaa"
  = Some (fst (on_windowQuery 0 q st)).
Proof.
  cbn zeta.
  assert (Hk : registry_keyed (registry_init (fun _ => 0))) by apply map_Forall_empty.
  assert (Hle : 60 * Second - 0 <=
                ses_timeout (fst (on_windowQuery 0 (mkSession None None "aaaaaaaa" 0 (60 * Second))
                                    (registry_init (fun _ => 0)))))
    by (intros H; discriminate H).
  split; [exact range_keys_of_list|]. split; [exact Hk|]. split; [exact Hle|].
  exact (proj2 (queried_window_survives_gc RegistryExamples.no_seconds RegistryExamples.keys
                  0 (60 * Second) (mkSession None None "aaaaaaaa" 0 (60 * Second))
                  (registry_init (fun _ => 0)) range_keys_of_list Hk Hle)).
Defined.

(** * Further properties of the request parser *)

Section ActionFacts.

(** The first element of an indexed list that satisfies a test. *)
Lemma find_imap_None {A} (f : A -> bool) (g : nat -> nat) (l : list A) :
  List.find (fun p => f (snd p)) (imap (fun i a => (g i, a)) l) = None <->
  forallb (fun a => negb (f a)) l = true.
Proof.
  revert g. induction l as [|a l IH]; intros g; [easy|].
  cbn [imap List.find forallb snd]. destruct (f a); cbn [negb andb]; [easy|].
  apply (IH (g ∘ S)).
Qed.

Lemma find_imap_Some {A} (f : A -> bool) (g : nat -> nat) (l : list A) i a :
  List.find (fun p => f (snd p)) (imap (fun i a => (g i, a)) l) = Some (i, a) ->
  exists j, i = g j /\ l !! j = Some a /\ f a = true /\
            forallb (fun a => negb (f a)) (take j l) = true.
Proof.
  revert g. induction l as [|b l IH]; intros g; [easy|].
  cbn [imap List.find snd]. destruct (f b) eqn:E.
  - intros [= <- <-]. exists 0%nat. auto.
  - intros H. destruct (IH (g ∘ S) H) as (j & -> & Hj & Hf & Hb).
    exists (S j). cbn [take forallb]. rewrite E. auto.
Qed.

Lemma named_pairs_fold (ps : list (string * string)) : forall acc,
  named_pairs (concat (List.map (fun p => [fst p; snd p]) ps)) acc =
  foldr (fun p m => <[fst p := snd p]> m) acc (reverse ps).
Proof.
  induction ps as [|[k v] ps IH]; intros acc; [reflexivity|].
  cbn [List.map concat app named_pairs fst snd]. rewrite IH, reverse_cons, foldr_app.
  reflexivity.
Qed.

End ActionFacts.

(** X7: [MustArgCount] accepts an action exactly when the number of its
    arguments (the name not counted) is one of the counts given; with no
    count given it accepts every action that is not the empty list. *)
Theorem MustArgCount_accepts_iff (xa : Action) (ns : list nat) :
  MustArgCount xa ns = None <->
  match ns with
  | [] => xa <> []
  | _ => In (List.length (Args xa)) ns
  end.
Proof.
  destruct ns as [|n [|m ns]]; cbn [MustArgCount].
  - destruct xa; cbn; split; congruence.
  - destruct (Nat.ltb_spec (List.length (Args xa)) n).
    + split; [discriminate | intros [->|[]]; lia].
    + destruct (Nat.ltb_spec n (List.length (Args xa))).
      * split; [discriminate | intros [->|[]]; lia].
      * split; [intros _; left; lia | reflexivity].
  - destruct (existsb _ _) eqn:E.
    + split; [intros _ | reflexivity]. apply existsb_exists in E as (k & Hin & Hk).
      apply Nat.eqb_eq in Hk. now subst.
    + split; [discriminate|]. intros Hin. apply not_true_iff_false in E. destruct E.
      apply existsb_exists. eexists. split; [exact Hin | apply Nat.eqb_refl].
Qed.

(** X8: [MustBeNonEmpty] accepts exactly the actions that have a name and hold
    no empty string; when the name is there, the error points at the first
    empty argument, counted from one. *)
Theorem MustBeNonEmpty_accepts_iff (xa : Action) :
  (MustBeNonEmpty xa = None <-> xa <> [] /\ Forall (fun a => a <> "") xa) /\
  (forall i, Name xa <> "" -> Args xa !! i = Some "" ->
     Forall (fun a => a <> "") (take i (Args xa)) ->
     MustBeNonEmpty xa =
     Some ("[" ++ pretty (Z.of_nat i + 1) ++ "] must contain a non-empty argument")).
Proof.
  unfold MustBeNonEmpty.
  assert (Hall : forall l : list string,
            forallb (fun a => negb (String.eqb a "")) l = true <-> Forall (fun a => a <> "") l).
  { intros l. rewrite forallb_forall, Forall_forall. split; intros H a Ha.
    - apply list_elem_of_In in Ha. specialize (H a Ha).
      now apply negb_true_iff, String.eqb_neq in H.
    - apply list_elem_of_In in Ha. specialize (H a Ha).
      now apply negb_true_iff, String.eqb_neq. }
  split.
  - destruct xa as [|name args]; [cbn; split; [discriminate | intros [[] _]; reflexivity]|].
    unfold Name, Arg, Args. cbn [nth tl].
    destruct (String.eqb_spec name "") as [->|Hne].
    + split; [discriminate|]. intros [_ H]. inversion H; congruence.
    + destruct (List.find _ _) as [[i a]|] eqn:E.
      * split; [discriminate|]. intros [_ H]. inversion H as [|? ? _ Hargs]; subst.
        apply Hall, (find_imap_None (fun a => String.eqb a "") id) in Hargs.
        unfold id in Hargs. congruence.
      * split; [|reflexivity]. intros _. split; [discriminate|]. constructor; [exact Hne|].
        apply Hall. now apply (find_imap_None (fun a => String.eqb a "") id).
  - intros i Hname Hi Hpre. apply String.eqb_neq in Hname. rewrite Hname.
    destruct (List.find _ _) as [[j a]|] eqn:E.
    + apply (find_imap_Some (fun a => String.eqb a "") id) in E
        as (k & -> & Hk & Ha & Hb). unfold id.
      apply Hall in Hb. rewrite Forall_forall in Hb, Hpre.
      destruct (Nat.lt_trichotomy k i) as [Hlt | [-> | Hgt]]; [| reflexivity |].
      * apply String.eqb_eq in Ha. subst a. destruct (Hpre ""); [|reflexivity].
        apply list_elem_of_lookup. exists k. rewrite lookup_take_lt by lia. exact Hk.
      * destruct (Hb ""); [|reflexivity].
        apply list_elem_of_lookup. exists i. rewrite lookup_take_lt by lia. exact Hi.
    + apply (find_imap_None (fun a => String.eqb a "") id), Hall in E.
      rewrite Forall_forall in E. destruct (E ""); [|reflexivity].
      apply list_elem_of_lookup. eauto.
Qed.

(** The first empty argument of [["click"; ""]] is its argument 1. *)
Lemma MustBeNonEmpty_accepts_iff_witness :
  Name ["click"; ""] <> "" /\ Args ["click"; ""] !! 0%nat = Some "" /\
  Forall (fun a => a <> "") (take 0 (Args ["click"; ""])) /\
  MustBeNonEmpty ["click"; ""] = Some "[1] must contain a non-empty argument".
Proof.
  assert (H1 : Name ["click"; ""] <> "") by (intros H; discriminate H).
  assert (H3 : Forall (fun a => a <> "") (take 0 (Args ["click"; ""]))) by constructor.
  split; [exact H1|]. split; [reflexivity|]. split; [exact H3|].
  exact (proj2 (MustBeNonEmpty_accepts_iff ["click"; ""]) 0%nat H1 eq_refl H3).
Defined.

(** X9: [NamedArgs] accepts exactly when the offset lies within the action and
    an even number of strings follows it; it then returns the map of the
    key/value pairs that follow, a later pair overriding an earlier one with
    the same key. *)
Theorem NamedArgs_pairs (xa : Action) (offset : nat) :
  (snd (NamedArgs xa offset) = None <->
   (offset <= List.length xa)%nat /\ Nat.even (List.length xa - offset) = true) /\
  (forall (pre : list string) (ps : list (string * string)),
     NamedArgs (pre ++ concat (List.map (fun p => [fst p; snd p]) ps))%list (List.length pre)
     = (list_to_map (reverse ps), None)).
Proof.
  split.
  - unfold NamedArgs. destruct (Nat.ltb_spec (List.length xa) offset).
    + split; [discriminate | intros [? _]; lia].
    + rewrite length_drop.
      destruct (Nat.eqb_spec ((List.length xa - offset) mod 2) 0) as [E|E]; cbn [negb snd].
      * split; [intros _ | reflexivity]. split; [assumption|].
        apply Nat.Div0.mod_divides in E as [c Hc]. apply Nat.even_spec. now exists c.
      * split; [discriminate|]. intros [_ Hev]. destruct E.
        apply Nat.even_spec in Hev as [c Hc]. rewrite Hc, Nat.mul_comm.
        apply Nat.Div0.mod_mul.
  - intros pre ps. unfold NamedArgs.
    assert (Hlen : forall l : list (string * string),
              (List.length (concat (List.map (fun p => [fst p; snd p]) l)) = 2 * List.length l)%nat).
    { induction l as [|p l IH]; cbn [List.map concat app List.length]; [reflexivity | lia]. }
    rewrite length_app, drop_app_length.
    replace (List.length pre + _ <? List.length pre)%nat with false
      by (symmetry; apply Nat.ltb_ge; lia).
    rewrite Hlen, Nat.mul_comm, Nat.Div0.mod_mul. cbn [Nat.eqb negb].
    now rewrite named_pairs_fold.
Qed.

(** X10: [parseEvents] accepts exactly the lists of known events; what it hands
    to [listen] is then never empty and holds known events only, an empty
    list standing for the four default page-load events. *)
Theorem parseEvents_accepts_iff (events : list string) :
  (snd (parseEvents events) = None <-> forallb validEvent events = true) /\
  (snd (parseEvents events) = None ->
   fst (parseEvents events) = (if (List.length events =? 0)%nat then DefaultPageloadEvents
                               else events) /\
   fst (parseEvents events) <> [] /\ forallb validEvent (fst (parseEvents events)) = true).
Proof.
  assert (Hiff : snd (parseEvents events) = None <-> forallb validEvent events = true).
  { unfold parseEvents. destruct events as [|e events]; [easy|].
    cbn [List.length Nat.eqb].
    destruct (List.find _ _) as [[i a]|] eqn:E.
    - split; [discriminate|]. intros H.
      apply (find_imap_Some (fun a => negb (validEvent a)) id) in E as (j & _ & Hj & Ha & _).
      rewrite forallb_forall in H. apply negb_true_iff in Ha. rewrite H in Ha; [discriminate|].
      apply list_elem_of_In, list_elem_of_lookup. eauto.
    - split; [intros _ | reflexivity].
      apply (find_imap_None (fun a => negb (validEvent a)) id) in E.
      rewrite forallb_forall in E. apply forallb_forall. intros a Ha.
      specialize (E a Ha). cbn in E. now rewrite negb_involutive in E. }
  split; [exact Hiff|]. intros H. pose proof (proj1 Hiff H) as Hv.
  unfold parseEvents in *. destruct events as [|e events]; [repeat split; discriminate|].
  cbn [List.length Nat.eqb] in *. destruct (List.find _ _) as [[i a]|]; [discriminate|].
  cbn [fst]. repeat split; [discriminate | exact Hv].
Qed.

(** ["load"] alone is accepted and passed on as it is. *)
Lemma parseEvents_accepts_iff_witness :
  snd (parseEvents ["load"]) = None /\ fst (parseEvents ["load"]) = ["load"].
Proof.
  split; [reflexivity|].
  exact (proj1 (proj2 (parseEvents_accepts_iff ["load"]) eq_refl)).
Defined.

(** ** What a successful parse leaves in the request *)

(** A block that [Execute] can run: it has a repeat count, which is not
    negative, and a while guard. *)
Definition block_ready (b : QueryBlock) : Prop :=
  (exists n, qb_Repeat b = Some n /\ 0 <= n) /\ is_Some (qb_cdpWhile b).

(** What the parse steps never undo in a block: a repeat count that is set
    stays as it is, a guard that is set stays set. *)
Definition block_le (b b' : QueryBlock) : Prop :=
  (forall n, qb_Repeat b = Some n -> qb_Repeat b' = Some n) /\
  (is_Some (qb_cdpWhile b) -> is_Some (qb_cdpWhile b')).

Definition grows (r r' : Request) : Prop :=
  pos r' = pos r /\
  Forall2 block_le (Query r) (Query r') /\
  List.length (res_Out (res r')) = List.length (res_Out (res r)) /\
  res_Err (res r') = res_Err (res r).

Definition keeps_blocks {A} (m : M A) : Prop :=
  forall r a r', m r = Ret a r' -> grows r r'.

Section ParseInvariants.

Variable ParseDuration : string -> Duration * error.
Variable ParseRequestURI : string -> error.
Variable ParseFloat : string -> float * error.
Variable infoBoxSelector infoSectionSelector navButtonSelector navSectionSelector : string.

Lemma block_le_refl b : block_le b b.
Proof. split; auto. Qed.

Lemma block_le_same b b' :
  qb_Repeat b' = qb_Repeat b -> qb_cdpWhile b' = qb_cdpWhile b -> block_le b b'.
Proof. intros E1 E2. unfold block_le. rewrite E1, E2. auto. Qed.

Lemma blocks_le_refl (q : list QueryBlock) : Forall2 block_le q q.
Proof. apply Forall_Forall2_diag, Forall_forall. intros b _. apply block_le_refl. Qed.

Lemma blocks_le_trans (q1 q2 q3 : list QueryBlock) :
  Forall2 block_le q1 q2 -> Forall2 block_le q2 q3 -> Forall2 block_le q1 q3.
Proof.
  apply Forall2_trans. intros x y z [A1 A2] [B1 B2]. split; auto.
Qed.

Lemma grows_refl r : grows r r.
Proof. split; [reflexivity|]. split; [apply blocks_le_refl | split; reflexivity]. Qed.

Lemma grows_trans r1 r2 r3 : grows r1 r2 -> grows r2 r3 -> grows r1 r3.
Proof.
  intros (A1 & A2 & A3 & A4) (B1 & B2 & B3 & B4).
  split; [congruence|]. split; [eapply blocks_le_trans; eassumption|]. split; congruence.
Qed.

Lemma kb_ret {A} (a : A) : keeps_blocks (ret a).
Proof. intros r a' r' [= _ <-]. apply grows_refl. Qed.

Lemma kb_panic {A} why : keeps_blocks (@panic A why).
Proof. intros r a r' [=]. Qed.

Lemma kb_get : keeps_blocks get.
Proof. intros r a r' [= _ <-]. apply grows_refl. Qed.

Lemma kb_bind {A B} (m : M A) (k : A -> M B) :
  keeps_blocks m -> (forall a, keeps_blocks (k a)) -> keeps_blocks (bind m k).
Proof.
  intros Hm Hk r b r' H. unfold bind in H.
  destruct (m r) as [a r1|] eqn:E; [|discriminate].
  eapply grows_trans; [exact (Hm _ _ _ E) | exact (Hk a _ _ _ H)].
Qed.

Lemma kb_update_block i f :
  (forall b, block_le b (f b)) -> keeps_blocks (update_block i f).
Proof.
  intros Hf r a r' [= _ <-]. split; [reflexivity|]. split; [|split; reflexivity].
  cbn [Query set_Query]. apply Forall2_alter_r; [apply blocks_le_refl|].
  intros x y _ _ [A B]. destruct (Hf y) as [C D]. split; auto.
Qed.

Lemma kb_current_block : keeps_blocks current_block.
Proof.
  apply kb_bind; [apply kb_get|]. intros r.
  destruct (Query r !! pos r); [apply kb_ret | apply kb_panic].
Qed.

Lemma kb_appendActions actions : keeps_blocks (appendActions actions).
Proof.
  apply kb_bind; [apply kb_current_block|]. intros _.
  apply kb_bind; [apply kb_get|]. intros r. apply kb_update_block.
  intros b. apply block_le_same; reflexivity.
Qed.

Lemma kb_out_slot : keeps_blocks out_slot.
Proof.
  apply kb_bind; [apply kb_get|]. intros r.
  destruct (_ <? _)%nat; [apply kb_ret | apply kb_panic].
Qed.

Local Ltac kb :=
  repeat first
    [ apply kb_ret | apply kb_panic | apply kb_get | apply kb_current_block
    | apply kb_appendActions | apply kb_out_slot
    | apply kb_bind; [|intros ?]
    | match goal with
      | |- keeps_blocks (match ?x with _ => _ end) => destruct x
      end ].

Lemma kb_parseAction xa :
  keeps_blocks (parseAction ParseDuration ParseRequestURI ParseFloat
                  infoBoxSelector infoSectionSelector navButtonSelector navSectionSelector xa).
Proof. unfold parseAction. cbv beta zeta. kb. Qed.

Lemma kb_parse_actions i j xas :
  keeps_blocks (parse_actions ParseDuration ParseRequestURI ParseFloat
                  infoBoxSelector infoSectionSelector navButtonSelector navSectionSelector
                  i j xas).
Proof.
  revert j. induction xas as [|xa rest IH]; intros j; cbn [parse_actions]; [apply kb_ret|].
  apply kb_bind; [apply kb_update_block; intros b; apply block_le_same; reflexivity|].
  intros _.
  apply kb_bind; [apply kb_parseAction|]. intros [e|]; [apply kb_ret | apply IH].
Qed.

(** [parseRepeat] fills in a missing count and leaves a given one alone; when
    it succeeds the current block has a count that is not negative. *)
Lemma parseRepeat_ready r r' :
  parseRepeat r = Ret None r' ->
  grows r r' /\
  exists b n, Query r' !! pos r = Some b /\ qb_Repeat b = Some n /\ 0 <= n.
Proof.
  cbv [parseRepeat bind current_block get ret panic update_block modify].
  destruct (Query r !! pos r) as [block|] eqn:Eb; [|discriminate].
  destruct (qb_Repeat block) as [n|] eqn:En.
  - rewrite Eb, En. destruct (Z.ltb_spec n 0); [discriminate|].
    intros [= <-]. split; [apply grows_refl|]. eauto.
  - cbn [Query set_Query pos]. rewrite list_lookup_alter, Eb.
    destruct (decide (pos r = pos r)) as [_|]; [|congruence].
    cbn [fmap option_fmap option_map qb_Repeat set_Repeat]. cbn [Z.ltb Z.compare].
    intros [= <-]. split.
    + split; [reflexivity|]. split; [|split; reflexivity]. cbn [Query set_Query].
      apply Forall2_alter_r; [apply blocks_le_refl|].
      intros x y Hx Hy _. rewrite Eb in Hx. injection Hx as <-. rewrite Eb in Hy.
      injection Hy as <-. split; [congruence | auto].
    + cbn [Query set_Query]. exists (set_Repeat (Some 1) block), 1.
      rewrite list_lookup_alter, Eb. destruct (decide (pos r = pos r)); [|congruence].
      repeat split. discriminate.
Qed.

(** A successful [parseWhile] leaves a guard in the current block. *)
Lemma parseWhile_ready xa r r' :
  parseWhile xa r = Ret None r' ->
  grows r r' /\ exists b, Query r' !! pos r = Some b /\ is_Some (qb_cdpWhile b).
Proof.
  assert (Hset : forall g,
    Query r !! pos r <> None ->
    let r1 := set_Query (alter (set_cdpWhile (Some g)) (pos r) (Query r)) r in
    grows r r1 /\ exists b, Query r1 !! pos r = Some b /\ is_Some (qb_cdpWhile b)).
  { intros g Hne. cbn zeta. split.
    - exact (kb_update_block (pos r) (set_cdpWhile (Some g))
               (fun b => conj (fun n H => H) (fun _ => ex_intro _ g eq_refl)) r tt _ eq_refl).
    - cbn [Query set_Query]. destruct (Query r !! pos r) as [b|] eqn:Eb; [|congruence].
      exists (set_cdpWhile (Some g) b). rewrite list_lookup_alter, Eb.
      destruct (decide (pos r = pos r)); [|congruence]. split; [reflexivity | eexists; reflexivity]. }
  cbv [parseWhile bind current_block get ret panic update_block modify].
  destruct (Query r !! pos r) as [block|] eqn:Eb; [|discriminate].
  assert (Hne : Some block <> None) by discriminate. specialize (fun g => Hset g Hne).
  destruct xa as [xa|].
  - destruct (MustBeNonEmpty xa); [discriminate|].
    destruct (String.eqb (Name xa) "element_exists").
    + destruct (MustArgCount xa [1%nat]); [discriminate|]. intros [= <-]. apply Hset.
    + destruct (String.eqb (Name xa) "element_visible"); [|discriminate].
      destruct (MustArgCount xa [1%nat]); [discriminate|].
      destruct (has_apostrophe (Arg xa 1)); [discriminate|]. intros [= <-]. apply Hset.
  - intros [= <-]. apply Hset.
Qed.

Lemma block_le_ready b b' : block_le b b' -> block_ready b -> block_ready b'.
Proof. intros [A B] [(n & Hn & Hpos) Hw]. split; [exists n; auto | auto]. Qed.

(** After the block loop every block it has visited is ready. *)
Lemma parse_blocks_ready idx : forall r r',
  parse_blocks ParseDuration ParseRequestURI ParseFloat
    infoBoxSelector infoSectionSelector navButtonSelector navSectionSelector idx r
  = Ret None r' ->
  Forall2 block_le (Query r) (Query r') /\
  List.length (res_Out (res r')) = List.length (res_Out (res r)) /\
  res_Err (res r') = res_Err (res r) /\
  forall i, i ∈ idx -> exists b, Query r' !! i = Some b /\ block_ready b.
Proof.
  induction idx as [|i rest IH]; intros r r'; cbn [parse_blocks].
  - intros [= <-]. split; [apply blocks_le_refl|]. split; [reflexivity|].
    split; [reflexivity|]. intros i Hi. now apply elem_of_nil in Hi.
  - unfold bind at 1. unfold modify at 1. unfold bind at 1.
    unfold current_block, bind at 1, get at 1. cbn [pos set_pos Query].
    destruct (Query r !! i) as [block|] eqn:Eb; [|discriminate]. unfold ret at 1.
    unfold bind at 1, modify at 1. unfold bind at 1, get at 1.
    set (r1 := set_res _ (set_pos i r)).
    destruct (_ && _); [discriminate|].
    unfold bind at 1.
    destruct (parse_actions _ _ _ _ _ _ _ i 0 (qb_Actions block) r1) as [[e|] r2|] eqn:E2;
      try discriminate.
    unfold bind at 1.
    destruct (parseRepeat r2) as [[e|] r3|] eqn:E3; try discriminate.
    unfold bind at 1.
    destruct (parseWhile (qb_While block) r3) as [[e|] r4|] eqn:E4; try discriminate.
    intros H. destruct (IH _ _ H) as (G5 & O5 & R5 & Hrest).
    pose proof (kb_parse_actions _ _ _ _ _ _ E2) as (P2 & G2 & O2 & R2).
    destruct (parseRepeat_ready _ _ E3) as [(P3 & G3 & O3 & R3) (b3 & n & Hb3 & Hn & Hpos)].
    destruct (parseWhile_ready _ _ _ E4) as [(P4 & G4 & O4 & R4) (b4 & Hb4 & Hw)].
    assert (Hp1 : pos r1 = i) by reflexivity.
    assert (Hq1 : Query r1 = Query r) by reflexivity.
    assert (Ho1 : List.length (res_Out (res r1)) = List.length (res_Out (res r))).
    { subst r1. cbn [res set_res res_Out set_Out set_pos]. apply length_insert. }
    assert (He1 : res_Err (res r1) = res_Err (res r)) by reflexivity.
    split; [|split; [|split]].
    + rewrite <- Hq1. eapply blocks_le_trans; [exact G2|].
      eapply blocks_le_trans; [exact G3|]. eapply blocks_le_trans; [exact G4 | exact G5].
    + congruence.
    + congruence.
    + intros j Hj. apply elem_of_cons in Hj as [->|Hj]; [|now apply Hrest].
      rewrite P3, P2, Hp1 in Hb4. rewrite P2, Hp1 in Hb3.
      destruct (Forall2_lookup_l _ _ _ _ _ G4 Hb3) as (b4' & Hb4' & L4).
      rewrite Hb4 in Hb4'. injection Hb4' as <-.
      destruct (Forall2_lookup_l _ _ _ _ _ G5 Hb4) as (b5 & Hb5 & L5).
      exists b5. split; [exact Hb5|]. apply (block_le_ready b4 b5 L5).
      split; [exists n; split; [apply L4; exact Hn | exact Hpos] | exact Hw].
Qed.

Lemma grows_same r r' :
  pos r' = pos r -> Query r' = Query r -> res r' = res r -> grows r r'.
Proof.
  intros E1 E2 E3. unfold grows. rewrite E1, E2, E3.
  split; [reflexivity|]. split; [apply blocks_le_refl | split; reflexivity].
Qed.

Lemma kb_modify f : (forall r, grows r (f r)) -> keeps_blocks (modify f).
Proof. intros Hf r a r' [= _ <-]. apply Hf. Qed.

(** The steps of [parseQueryBlocks] before its block loop. *)
Lemma parseQueryBlocks_ready r r' :
  parseQueryBlocks ParseDuration ParseRequestURI ParseFloat
    infoBoxSelector infoSectionSelector navButtonSelector navSectionSelector r
  = Ret None r' ->
  Query r' <> [] /\ Forall block_ready (Query r') /\
  List.length (res_Out (res r')) = List.length (Query r') /\
  res_Err (res r') = replicate (List.length (Query r')) "".
Proof.
  unfold parseQueryBlocks. unfold bind at 1, get at 1.
  destruct (Query r) as [|block0 q] eqn:Eq; [discriminate|].
  destruct (qb_Actions block0) as [|xa0 actions]; [discriminate|].
  unfold bind at 1.
  match goal with
  | |- match ?m r with _ => _ end = _ -> _ =>
      assert (K1 : keeps_blocks m); [|destruct (m r) as [[e|] r1|] eqn:E1; try discriminate]
  end.
  { kb; try (apply kb_modify; intros ?; apply grows_same; reflexivity).
    apply kb_update_block. intros b. apply block_le_same; reflexivity. }
  unfold bind at 1, get at 1. unfold bind at 1.
  match goal with
  | |- match ?m r1 with _ => _ end = _ -> _ =>
      assert (K2 : keeps_blocks m); [|destruct (m r1) as [[] r2|] eqn:E2; try discriminate]
  end.
  { kb. }
  unfold bind at 1, modify at 1. unfold bind at 1, get at 1.
  set (r3 := set_res _ r2). intros H.
  destruct (parse_blocks_ready _ _ _ H) as (G & O & R & Hall).
  pose proof (K1 _ _ _ E1) as (_ & G1 & _). pose proof (K2 _ _ _ E2) as (_ & G2 & _).
  assert (L3 : List.length (Query r3) = S (List.length q)).
  { change (Query r3) with (Query r2).
    rewrite <- (Forall2_length _ _ _ G2), <- (Forall2_length _ _ _ G1), Eq. reflexivity. }
  pose proof (Forall2_length _ _ _ G) as L.
  split; [|split; [|split]].
  - intros E. rewrite E, L3 in L. discriminate L.
  - apply Forall_lookup. intros i b Hb.
    destruct (Hall i) as (b' & Hb' & Hr).
    + apply elem_of_seq. apply lookup_lt_Some in Hb. lia.
    + congruence.
  - rewrite O. subst r3. cbn [res set_res res_Out set_Out]. rewrite length_replicate. exact L.
  - rewrite R. subst r3. cbn [res set_res res_Err set_Err set_Out]. f_equal. exact L.
Qed.

(** A [ParseRequest] that succeeds has run its four steps with success. *)
Lemma ParseRequest_steps decode_err r r4 :
  ParseRequest ParseDuration ParseRequestURI ParseFloat
    infoBoxSelector infoSectionSelector navButtonSelector navSectionSelector decode_err r
  = Ret None r4 ->
  decode_err = None /\ ForwardUserAgent r = false /\
  exists r1 r2 r3,
    parseEmulateViewport r = Ret None r1 /\
    parseRenderDelay ParseDuration r1 = Ret None r2 /\
    parseTimeout ParseDuration r2 = Ret None r3 /\
    parseQueryBlocks ParseDuration ParseRequestURI ParseFloat
      infoBoxSelector infoSectionSelector navButtonSelector navSectionSelector r3
    = Ret None r4.
Proof.
  unfold ParseRequest. destruct decode_err; [discriminate|].
  unfold bind at 1, get at 1. destruct (ForwardUserAgent r); [discriminate|].
  unfold bind at 1.
  destruct (parseEmulateViewport r) as [[e|] r1|] eqn:E1; try discriminate.
  unfold bind at 1.
  destruct (parseRenderDelay _ r1) as [[e|] r2|] eqn:E2; try discriminate.
  unfold bind at 1.
  destruct (parseTimeout _ r2) as [[e|] r3|] eqn:E3; try discriminate.
  unfold bind at 1.
  destruct (parseQueryBlocks _ _ _ _ _ _ _ r3) as [[e|] r5|] eqn:E4; try discriminate.
  intros [= <-]. split; [reflexivity|]. split; [reflexivity|]. exists r1, r2, r3. auto.
Qed.

(** What the two duration steps store when they succeed. *)
Lemma parseRenderDelay_stored r r' :
  parseRenderDelay ParseDuration r = Ret None r' ->
  RenderDelay r <> "" /\
  exists d, ParseDuration (RenderDelay r) = (d, None) /\
            r' = set_renderDelay (Z.min d MaxRenderDelay) r.
Proof.
  cbv [parseRenderDelay bind get ret modify].
  destruct (String.eqb_spec (RenderDelay r) "") as [|Hne]; [discriminate|].
  destruct (ParseDuration (RenderDelay r)) as [d [e|]]; [discriminate|].
  intros [= <-]. split; [exact Hne|]. exists d. split; [reflexivity|]. f_equal.
  rewrite Z.gtb_ltb. destruct (Z.ltb_spec MaxRenderDelay d); lia.
Qed.

Lemma parseTimeout_stored r r' :
  parseTimeout ParseDuration r = Ret None r' ->
  (Timeout r = "" /\ r' = set_req_timeout (20 * Second) r) \/
  (Timeout r <> "" /\
   exists d, ParseDuration (Timeout r) = (d, None) /\
             r' = set_req_timeout (Z.min d MaxTimeout) r).
Proof.
  cbv [parseTimeout bind get ret modify].
  destruct (String.eqb_spec (Timeout r) "") as [E|Hne].
  - intros [= <-]. left. auto.
  - destruct (ParseDuration (Timeout r)) as [d [e|]]; [discriminate|].
    intros [= <-]. right. split; [exact Hne|]. exists d. split; [reflexivity|]. f_equal.
    rewrite Z.gtb_ltb. destruct (Z.ltb_spec MaxTimeout d); lia.
Qed.

End ParseInvariants.

(** ** The while guard of a parsed block *)





Section ParsedGuards.

Variable ParseDuration : string -> Duration * error.
Variable ParseRequestURI : string -> error.
Variable ParseFloat : string -> float * error.
Variable infoBoxSelector infoSectionSelector navButtonSelector navSectionSelector : string.

























End ParsedGuards.

(** ** What [Execute] does with a parsed request *)

(** The fields of a block that the decoder and the parser write and that
    [Execute] only reads. *)
Definition qb_static (b : QueryBlock)
  : list Action * option Z * option Action * list cdpAction * option cdpAction :=
  (qb_Actions b, qb_Repeat b, qb_While b, qb_cdpActions b, qb_cdpWhile b).

Section ExecutionMore.

Variable Browser : Type.
Variable drive : option nat -> drvCall -> Browser -> Browser * drvReply.

(** What running the actions leaves alone: the static fields of the
    blocks, the error slots of the result and the number of output slots. *)
Definition same_blocks (s s' : exec Browser) : Prop :=
  List.map qb_static (Query (ex_req s')) = List.map qb_static (Query (ex_req s)) /\
  res_Err (res (ex_req s')) = res_Err (res (ex_req s)) /\
  List.length (res_Out (res (ex_req s'))) = List.length (res_Out (res (ex_req s))).

Lemma same_blocks_refl s : same_blocks s s.
Proof. repeat split. Qed.

Lemma same_blocks_trans s1 s2 s3 : same_blocks s1 s2 -> same_blocks s2 s3 -> same_blocks s1 s3.
Proof. intros (A1 & B1 & C1) (A2 & B2 & C2). repeat split; congruence. Qed.

Lemma call_blocks ctx c s : same_blocks s (fst (call Browser drive ctx c s)).
Proof. unfold call. destruct (drive ctx c (ex_browser s)). repeat split. Qed.

Lemma map_alter_fixed {A B} (g : A -> B) (f : A -> A) (i : nat) (l : list A) :
  (forall x, g (f x) = g x) -> List.map g (alter f i l) = List.map g l.
Proof.
  intros H. revert i. induction l as [|x l IH]; intros [|i]; cbn; [reflexivity.. | |].
  - now rewrite H.
  - f_equal. apply IH.
Qed.

Lemma write_cont_blocks blk v s : same_blocks s (write_cont Browser blk v s).
Proof. split; [|split; reflexivity]. cbn. now apply map_alter_fixed. Qed.

Lemma append_out_blocks blk x s : same_blocks s (append_out Browser blk x s).
Proof. split; [reflexivity|]. split; [reflexivity|]. cbn. apply length_alter. Qed.

Lemma set_pdf_blocks x s :
  same_blocks s (on_req Browser (fun r => set_res (set_pdf x (res r)) r) s).
Proof. repeat split. Qed.

Lemma set_img_blocks x s :
  same_blocks s (on_req Browser (fun r => set_res (set_img x (res r)) r) s).
Proof. repeat split. Qed.

Create HintDb blocks.
Local Hint Resolve same_blocks_refl write_cont_blocks append_out_blocks set_pdf_blocks
  set_img_blocks : blocks.

Local Ltac next_call :=
  match goal with
  | |- context [call Browser drive ?ctx ?c ?s] =>
      let H := fresh "Hc" in
      pose proof (call_blocks ctx c s) as H;
      destruct (call Browser drive ctx c s) as [? ?]; cbn [fst snd] in H
  end.

Local Ltac close_blocks :=
  cbn [fst snd];
  try match goal with
      | |- context [match rep_bool ?r with _ => _ end] => destruct (rep_bool r)
      end;
  cbn [fst snd];
  first [ assumption
        | solve [auto with blocks]
        | eapply same_blocks_trans; [eassumption|]; solve [auto with blocks] ].

Lemma Do_blocks ctx a s : same_blocks s (fst (Do Browser drive ctx a s)).
Proof.
  destruct a; cbn [Do]; try (next_call; close_blocks; fail);
    try (cbn [fst]; solve [auto with blocks]).
  - next_call. destruct (rep_err _); cbn [fst]; [assumption|].
    next_call. cbn [fst]. eapply same_blocks_trans; eassumption.
  - next_call. destruct (_ =? _)%nat; cbn [fst]; [assumption|].
    next_call. cbn [fst]. eapply same_blocks_trans; [eassumption|].
    eapply same_blocks_trans; [eassumption | apply append_out_blocks].
  - destruct margins as [|? [|? [|? [|? [|? ?]]]]]; cbn [fst]; auto with blocks.
    next_call. cbn [fst]. eapply same_blocks_trans; [eassumption|]. apply set_pdf_blocks.
  - destruct (args !! "element"); [destruct (args !! "padding")|].
    + next_call. destruct (rep_err _); cbn [fst]; [assumption|].
      next_call. cbn [fst].
      eapply same_blocks_trans; [eassumption|]. eapply same_blocks_trans; [eassumption|].
      apply set_img_blocks.
    + next_call. cbn [fst]. eapply same_blocks_trans; [eassumption|]. apply set_img_blocks.
    + next_call. cbn [fst]. eapply same_blocks_trans; [eassumption|]. apply set_img_blocks.
Qed.

Lemma Run_blocks ctx actions s : same_blocks s (fst (Run Browser drive ctx actions s)).
Proof.
  revert s. induction actions as [|a rest IH]; intros s; cbn [Run].
  - apply same_blocks_refl.
  - pose proof (Do_blocks ctx a s) as Ha.
    destruct (Do Browser drive ctx a s) as [s1 [e|]]; cbn [fst] in *.
    + assumption.
    + eapply same_blocks_trans; [exact Ha | apply IH].
Qed.

Lemma repeat_loop_blocks ctx blk guard actions n s :
  same_blocks s (fst (repeat_loop Browser drive ctx blk guard actions n s)).
Proof.
  revert s. induction n as [|n IH]; intros s; cbn [repeat_loop]; [apply same_blocks_refl|].
  destruct guard as [g|]; [|apply same_blocks_refl].
  pose proof (Do_blocks ctx g s) as Hg.
  destruct (Do Browser drive ctx g s) as [s1 [e|]]; cbn [fst] in *; [exact Hg|].
  destruct (negb _); cbn [fst]; [exact Hg|].
  pose proof (Run_blocks ctx actions
                (log Browser (ev_while blk None (read_cont Browser blk s1)) s1)) as Hr.
  destruct (Run Browser drive ctx actions
              (log Browser (ev_while blk None (read_cont Browser blk s1)) s1)) as [s2 [e|]];
    cbn [fst] in *.
  - eapply same_blocks_trans; [exact Hg | exact Hr].
  - eapply same_blocks_trans; [exact Hg|]. eapply same_blocks_trans; [exact Hr|].
    exact (IH (log Browser (ev_run blk None) s2)).
Qed.

Lemma static_ready b b' : qb_static b' = qb_static b -> block_ready b -> block_ready b'.
Proof. unfold qb_static, block_ready. intros [= _ -> _ _ ->]. auto. Qed.

Lemma same_blocks_lookup s s' i b :
  same_blocks s s' -> Query (ex_req s) !! i = Some b ->
  exists b', Query (ex_req s') !! i = Some b' /\ qb_static b' = qb_static b.
Proof.
  intros [E _] Hb.
  assert (H : List.map qb_static (Query (ex_req s')) !! i = Some (qb_static b)).
  { rewrite E. change (List.map qb_static ?l) with (qb_static <$> l).
    now rewrite list_lookup_fmap, Hb. }
  change (List.map qb_static ?l) with (qb_static <$> l) in H.
  rewrite list_lookup_fmap in H. destruct (Query (ex_req s') !! i) as [b'|]; [|discriminate].
  exists b'. split; [reflexivity|]. cbn in H. congruence.
Qed.

(** The block loop over blocks that are ready never panics, and leaves
    what the parser wrote into the blocks as it is. *)
Lemma exec_blocks_ready ctx idx : forall s,
  (forall i, i ∈ idx -> exists b, Query (ex_req s) !! i = Some b /\ block_ready b) ->
  same_blocks s (fst (exec_blocks Browser drive ctx idx s)) /\
  forall why, snd (exec_blocks Browser drive ctx idx s) <> fl_panic why.
Proof.
  induction idx as [|i rest IH]; intros s Hidx; cbn [exec_blocks].
  - split; [apply same_blocks_refl | discriminate].
  - destruct (Hidx i) as (block & Hb & [(n & Hn & _) [g Hg]]); [apply elem_of_cons; auto|].
    change (Query (ex_req (on_req Browser (set_pos i) s))) with (Query (ex_req s)).
    rewrite Hb. unfold exec_block. rewrite Hn, Hg.
    pose proof (repeat_loop_blocks ctx i (Some g) (qb_cdpActions block) (Z.to_nat n)
                  (on_req Browser (set_pos i) s)) as Hs.
    destruct (repeat_loop_trace Browser drive ctx i g (qb_cdpActions block) (Z.to_nat n)
                (on_req Browser (set_pos i) s)) as (k & tail & _ & _ & Hx & _).
    destruct (repeat_loop Browser drive ctx i (Some g) (qb_cdpActions block) (Z.to_nat n)
                (on_req Browser (set_pos i) s)) as [s1 f]. cbn [fst snd] in Hs, Hx.
    destruct f; cbn [fst snd]; [| split; [exact Hs | discriminate] | destruct Hx].
    destruct (IH s1) as [Hs' Hp].
    + intros j Hj. destruct (Hidx j) as (bj & Hbj & Hr); [apply elem_of_cons; auto|].
      destruct (same_blocks_lookup _ _ j bj Hs Hbj) as (bj' & Hbj' & E).
      exists bj'. split; [exact Hbj' | exact (static_ready _ _ E Hr)].
    + split; [|exact Hp]. eapply same_blocks_trans; [exact Hs | exact Hs'].
Qed.

Lemma acquire_tab_Query now r st :
  Query (snd (fst (acquire_tab now r st))) = Query r.
Proof.
  unfold acquire_tab. destruct (newTab r).
  - destruct (loadWindow now (SessionID r) (timeout r) st) as [window st1].
    destruct (createSiblingTabWithTimeout _ _ _ _) as [tab st2]. reflexivity.
  - destruct (loadTab now (oldTabID r) st) as [tab st1].
    destruct (negb _); reflexivity.
Qed.

Lemma acquire_tab_res now r st : res (snd (fst (acquire_tab now r st))) = res r.
Proof.
  unfold acquire_tab. destruct (newTab r).
  - destruct (loadWindow now (SessionID r) (timeout r) st) as [window st1].
    destruct (createSiblingTabWithTimeout _ _ _ _) as [tab st2]. reflexivity.
  - destruct (loadTab now (oldTabID r) st) as [tab st1].
    destruct (negb _); reflexivity.
Qed.

Lemma Execute_ready now r st b :
  Forall block_ready (Query r) ->
  ret_panic (Execute Browser drive now r st b) = None /\
  List.map qb_static (Query (end_req (Execute Browser drive now r st b)))
  = List.map qb_static (Query r) /\
  res_Err (res (end_req (Execute Browser drive now r st b))) = res_Err (res r) /\
  List.length (res_Out (res (end_req (Execute Browser drive now r st b))))
  = List.length (res_Out (res r)) /\
  (forall result, ret_res (Execute Browser drive now r st b) = Some result ->
     result = res (end_req (Execute Browser drive now r st b))).
Proof.
  intros Hall. unfold Execute.
  pose proof (acquire_tab_Query now r st) as Hq.
  pose proof (acquire_tab_res now r st) as Hres.
  destruct (acquire_tab now r st) as [[[tab|] r1] st1]; cbn [fst snd] in Hq, Hres;
    [|cbn [end_req ret_res ret_panic]; rewrite Hq, Hres; repeat split; discriminate].
  set (r2 := if ReuseWindow r1 then _ else r1).
  set (r3 := if ReuseTab r2 then _ else r2).
  assert (Hq3 : Query r3 = Query r /\ res_Err (res r3) = res_Err (res r) /\
                res_Out (res r3) = res_Out (res r)).
  { subst r3 r2. rewrite <- Hq, <- Hres. destruct (ReuseWindow r1);
      match goal with |- context [if ?c then _ else _] => destruct c end; repeat split. }
  destruct Hq3 as (Hq3 & He3 & Ho3).
  destruct (exec_blocks_ready (ses_ctx tab) (seq 0 (List.length (Query r3)))
              (mkExec r3 b [])) as [Hs Hp].
  { intros i Hi. apply elem_of_seq in Hi. cbn [ex_req]. rewrite Hq3 in *.
    destruct (lookup_lt_is_Some_2 (Query r) i) as [bi Hbi]; [lia|].
    exists bi. split; [exact Hbi|]. rewrite Forall_lookup in Hall. eauto. }
  unfold same_blocks in Hs.
  destruct (exec_blocks Browser drive (ses_ctx tab) (seq 0 (List.length (Query r3)))
              (mkExec r3 b [])) as [s f]. cbn [fst snd ex_req] in Hs, Hp.
  rewrite Hq3, He3, Ho3 in Hs. destruct Hs as (Hs1 & Hs2 & Hs3).
  destruct f; cbn [ret_panic end_req ret_res];
    [| |now destruct (Hp why)]; repeat split; try assumption; try discriminate.
  now intros result [= <-].
Qed.

End ExecutionMore.

(** ** The repeat/while loop of [Execute] *)


Section RepeatWhile.

Variable ParseDuration : string -> Duration * error.
Variable ParseRequestURI : string -> error.
Variable ParseFloat : string -> float * error.
Variable infoBoxSelector infoSectionSelector navButtonSelector navSectionSelector : string.
Variable Browser : Type.
Variable drive : option nat -> drvCall -> Browser -> Browser * drvReply.





End RepeatWhile.



Section ParsedRequests.

Variable ParseDuration : string -> Duration * error.
Variable ParseRequestURI : string -> error.
Variable ParseFloat : string -> float * error.
Variable infoBoxSelector infoSectionSelector navButtonSelector navSectionSelector : string.

Local Abbreviation ParseRequest' :=
  (ParseRequest ParseDuration ParseRequestURI ParseFloat
     infoBoxSelector infoSectionSelector navButtonSelector navSectionSelector).

(** X11: A request that [ParseRequest] accepts has at least one block; every
    block has a repeat count that is not negative and a while guard; and the
    result has one output slot and one error slot for each block, the error
    slots all empty. *)
Theorem parsed_request_well_formed (decode_err : error) (r r' : Request) :
  ParseRequest' decode_err r = Ret None r' ->
  Query r' <> [] /\ Forall block_ready (Query r') /\
  List.length (res_Out (res r')) = List.length (Query r') /\
  res_Err (res r') = replicate (List.length (Query r')) "".
Proof.
  intros H. apply ParseRequest_steps in H as (_ & _ & r1 & r2 & r3 & _ & _ & _ & H).
  exact (parseQueryBlocks_ready _ _ _ _ _ _ _ _ _ H).
Qed.

(** X12: [Execute] on a request that [ParseRequest] has accepted never panics:
    it finds every block it indexes, a repeat count and a guard in each.
    This holds for every browser, registry and time, whether the run ends
    with a result or with an error; and the run leaves the actions, the
    repeat count and the guard of every block as the parser stored them. *)
Theorem parsed_request_never_panics
  (Browser : Type) (drive : option nat -> drvCall -> Browser -> Browser * drvReply)
  (decode_err : error) (r r' : Request) (now : Z) (st : registry) (b : Browser) :
  ParseRequest' decode_err r = Ret None r' ->
  ret_panic (Execute Browser drive now r' st b) = None /\
  List.map qb_static (Query (end_req (Execute Browser drive now r' st b)))
  = List.map qb_static (Query r').
Proof.
  intros H. apply ParseRequest_steps in H as (_ & _ & r1 & r2 & r3 & _ & _ & _ & H).
  destruct (Execute_ready Browser drive now r' st b
              (proj1 (proj2 (parseQueryBlocks_ready _ _ _ _ _ _ _ _ _ H)))) as (A & B & _).
  split; assumption.
Qed.

(** X13: What an accepted request holds as its two durations: the parsed
    [global_render_delay], cut down to [MaxRenderDelay], and the parsed
    [timeout], cut down to [MaxTimeout], or 20 s when no timeout was given.
    Neither is above its maximum. *)
Theorem parsed_durations_bounded (decode_err : error) (r r' : Request) :
  ParseRequest' decode_err r = Ret None r' ->
  (exists d, ParseDuration (RenderDelay r) = (d, None) /\
             renderDelay r' = Z.min d MaxRenderDelay) /\
  (Timeout r = "" -> timeout r' = 20 * Second) /\
  (Timeout r <> "" ->
   exists d, ParseDuration (Timeout r) = (d, None) /\ timeout r' = Z.min d MaxTimeout) /\
  renderDelay r' <= MaxRenderDelay /\ timeout r' <= MaxTimeout.
Proof.
  intros H. apply ParseRequest_steps in H as (_ & _ & r1 & r2 & r3 & H1 & H2 & H3 & H4).
  destruct (kd_parseEmulateViewport _ _ _ H1) as (_ & _ & E1 & E2 & _).
  destruct (parseRenderDelay_stored _ _ _ H2) as (_ & d & Hd & ->).
  destruct (kd_parseQueryBlocks _ _ _ _ _ _ _ _ _ _ H4) as (F1 & F2 & _).
  rewrite E1 in Hd.
  assert (Ht : (Timeout r = "" /\ timeout r' = 20 * Second) \/
               (Timeout r <> "" /\ exists d', ParseDuration (Timeout r) = (d', None) /\
                                              timeout r' = Z.min d' MaxTimeout)).
  { destruct (parseTimeout_stored _ _ _ H3) as [[Ee ->] | (Hne & d' & Hd' & ->)];
      cbn [Timeout set_renderDelay] in *; rewrite E2 in *.
    - left. split; [exact Ee | exact F2].
    - right. split; [exact Hne|]. exists d'. split; [exact Hd' | exact F2]. }
  assert (Hr : renderDelay r' = Z.min d MaxRenderDelay).
  { rewrite F1. destruct (parseTimeout_stored _ _ _ H3) as [[_ ->] | (_ & d' & _ & ->)];
      reflexivity. }
  split; [exists d; auto|].
  split; [intros Ee; destruct Ht as [[_ Ht] | [Hne _]]; [exact Ht | contradiction]|].
  split; [intros Hne; destruct Ht as [[Ee _] | [_ Ht]]; [contradiction | exact Ht]|].
  split; [rewrite Hr; lia|].
  destruct Ht as [[_ ->] | (_ & d' & _ & ->)]; [unfold MaxTimeout, Second|]; lia.
Qed.

(** X14: A request with a usable [emulate_viewport] and no query block makes
    [ParseRequest] panic: the viewport step appends its action to the block
    at the current position before anything has checked that there is one.
    Without [emulate_viewport] the block parser answers the same request
    with an error. *)
Theorem viewport_without_query_panics (r : Request) (vp : ViewportBlock) :
  (ForwardUserAgent r = false -> EmulateViewport r = Some vp ->
   vp_Width vp <> 0 -> vp_Height vp <> 0 ->
   (forall o, vp_Orientation vp = Some o -> o = "landscape" \/ o = "portrait") ->
   Query r !! pos r = None ->
   ParseRequest' None r = Panicked "index out of range") /\
  (Query r = [] ->
   parseQueryBlocks ParseDuration ParseRequestURI ParseFloat
     infoBoxSelector infoSectionSelector navButtonSelector navSectionSelector r
   = Ret (Some "query[0] must contain at least one action block") r).
Proof.
  split.
  - intros Hf Hv Hw Hh Ho Hq. unfold ParseRequest. unfold bind at 1, get at 1. rewrite Hf.
    unfold bind at 1.
    replace (parseEmulateViewport r) with (@Panicked error "index out of range");
      [reflexivity|].
    unfold parseEmulateViewport. unfold bind at 1, get at 1. rewrite Hv.
    apply Z.eqb_neq in Hw, Hh. rewrite Hw, Hh.
    assert (Ha : forall acts k, bind (appendActions acts) k r = @Panicked error "index out of range").
    { intros acts k. cbv [bind appendActions current_block get ret panic]. now rewrite Hq. }
    destruct (vp_Orientation vp) as [o|] eqn:Eo.
    + destruct (Ho o eq_refl) as [-> | ->]; cbn; now rewrite Ha.
    + now rewrite Ha.
  - intros Hq. unfold parseQueryBlocks, bind, get. now rewrite Hq.
Qed.

End ParsedRequests.

Module ParseExamples.

(** A viewport and nothing to do in it. *)
Definition viewport_only : Request :=
  mkRequest [] (Some (mkViewportBlock 800 600 None false None)) false "1s" false false
            "" "" "" 0 0 Result_zero 0.

(** A delay of one minute and a timeout of one hour. *)
Definition long_durations : Request :=
  Examples.request
    [Examples.block [["navigate"; "https://example.com/"]; ["outer_html"]] None None]
    "60s" "" "3600s" false.

End ParseExamples.

(** The request that navigates and clicks twice is well formed once parsed. *)
Lemma parsed_request_well_formed_witness :
  let r := Examples.click_twice in
  ParseRequest Examples.ParseDuration_seconds Examples.ParseRequestURI_any
    Examples.ParseFloat_zero "#info-box" "#info-section" "#nav-button" "#nav-section" None r
  = Ret None (Examples.parsed r) /\
  Query (Examples.parsed r) <> [] /\ Forall block_ready (Query (Examples.parsed r)).
Proof.
  cbn zeta.
  assert (H : ParseRequest Examples.ParseDuration_seconds Examples.ParseRequestURI_any
                Examples.ParseFloat_zero "#info-box" "#info-section" "#nav-button"
                "#nav-section" None Examples.click_twice
              = Ret None (Examples.parsed Examples.click_twice)) by (vm_compute; reflexivity).
  split; [exact H|].
  pose proof (parsed_request_well_formed Examples.ParseDuration_seconds
                Examples.ParseRequestURI_any Examples.ParseFloat_zero
                "#info-box" "#info-section" "#nav-button" "#nav-section"
                None Examples.click_twice (Examples.parsed Examples.click_twice) H)
    as (A & B & _).
  split; [exact A | exact B].
Defined.

(** It runs without a panic also when the click fails. *)
Lemma parsed_request_never_panics_witness :
  let r := Examples.click_twice in
  ParseRequest Examples.ParseDuration_seconds Examples.ParseRequestURI_any
    Examples.ParseFloat_zero "#info-box" "#info-section" "#nav-button" "#nav-section" None r
  = Ret None (Examples.parsed r) /\
  ret_panic (Execute nat Examples.drive_click_fails 0 (Examples.parsed r)
               (registry_init (fun _ => 0)) 0%nat) = None.
Proof.
  cbn zeta.
  assert (H : ParseRequest Examples.ParseDuration_seconds Examples.ParseRequestURI_any
                Examples.ParseFloat_zero "#info-box" "#info-section" "#nav-button"
                "#nav-section" None Examples.click_twice
              = Ret None (Examples.parsed Examples.click_twice)) by (vm_compute; reflexivity).
  split; [exact H|].
  exact (proj1 (parsed_request_never_panics Examples.ParseDuration_seconds
                  Examples.ParseRequestURI_any Examples.ParseFloat_zero
                  "#info-box" "#info-section" "#nav-button" "#nav-section"
                  nat Examples.drive_click_fails None Examples.click_twice
                  (Examples.parsed Examples.click_twice) 0
                  (registry_init (fun _ => 0)) 0%nat H)).
Defined.

(** One minute and one hour become ten seconds and two minutes. *)
Lemma parsed_durations_bounded_witness :
  let r := ParseExamples.long_durations in
  ParseRequest Examples.ParseDuration_seconds Examples.ParseRequestURI_any
    Examples.ParseFloat_zero "#info-box" "#info-section" "#nav-button" "#nav-section" None r
  = Ret None (Examples.parsed r) /\
  renderDelay (Examples.parsed r) <= MaxRenderDelay /\
  timeout (Examples.parsed r) <= MaxTimeout.
Proof.
  cbn zeta.
  assert (H : ParseRequest Examples.ParseDuration_seconds Examples.ParseRequestURI_any
                Examples.ParseFloat_zero "#info-box" "#info-section" "#nav-button"
                "#nav-section" None ParseExamples.long_durations
              = Ret None (Examples.parsed ParseExamples.long_durations))
    by (vm_compute; reflexivity).
  split; [exact H|].
  exact (proj2 (proj2 (proj2 (parsed_durations_bounded Examples.ParseDuration_seconds
                  Examples.ParseRequestURI_any Examples.ParseFloat_zero
                  "#info-box" "#info-section" "#nav-button" "#nav-section"
                  None ParseExamples.long_durations
                  (Examples.parsed ParseExamples.long_durations) H)))).
Defined.

(** The viewport-only request panics. *)
Lemma viewport_without_query_panics_witness :
  ParseRequest Examples.ParseDuration_seconds Examples.ParseRequestURI_any
    Examples.ParseFloat_zero "#info-box" "#info-section" "#nav-button" "#nav-section" None
    ParseExamples.viewport_only
  = Panicked "index out of range".
Proof.
  assert (Hw : 800 <> 0) by (intros H; discriminate H).
  assert (Hh : 600 <> 0) by (intros H; discriminate H).
  assert (Ho : forall o : string, @None string = Some o -> o = "landscape" \/ o = "portrait")
    by (intros o H; discriminate H).
  exact (proj1 (viewport_without_query_panics Examples.ParseDuration_seconds
                  Examples.ParseRequestURI_any Examples.ParseFloat_zero
                  "#info-box" "#info-section" "#nav-button" "#nav-section"
                  ParseExamples.viewport_only (mkViewportBlock 800 600 None false None))
               eq_refl eq_refl Hw Hh Ho eq_refl).
Defined.

(** ** Worked examples for the preprocessor *)

Module PageExamples.

(** A page header with a heading and a list of links under it. *)
Definition listed_header : Node :=
  DomExamples.el "header"
    [DomExamples.el "h1" [DomExamples.text "Title"];
     DomExamples.el "ul" [DomExamples.el "li" [DomExamples.text "Home"]]].

Definition page : Node :=
  DomExamples.document [DomExamples.el "html" [DomExamples.el "body" [listed_header]]].

(** A [span] around a [div], next to an [em] around text. *)
Definition wrapped_block : Node :=
  DomExamples.document
    [DomExamples.el "html"
       [DomExamples.el "body"
          [DomExamples.el "span" [DomExamples.el "div" [DomExamples.text "x"]];
           DomExamples.el "em" [DomExamples.text "y"]]]].

End PageExamples.

(** The header of the page has a list in it, which is heavy: it is replaced
    by the wrapper around a copy of its heading. *)
Lemma header_replaced_iff_witness :
  let strs := ascii_strings in
  let h := PageExamples.listed_header in
  let wrapper := trimmed_wrapper (cloneUsefulBadge h) (default h (node_at h [0%nat]))
                                 (findSummaryParagraph h) in
  node_at PageExamples.page [0; 0; 0]%nat = Some h /\
  existsb (fun g => below g [0; 0; 0]%nat) [] = false /\
  findHeading h = Some [0%nat] /\
  headerNormalization_step (PageExamples.page, []) [0; 0; 0]%nat
  = (alter_at (fun _ => wrapper) [0; 0; 0]%nat PageExamples.page, [[0; 0; 0]%nat]).
Proof.
  cbn zeta.
  split; [reflexivity|]. split; [reflexivity|]. split; [reflexivity|].
  exact (proj1 (proj1 (proj2 (header_replaced_iff (strs := ascii_strings)
                                PageExamples.page [] [0; 0; 0]%nat
                                PageExamples.listed_header [0%nat] eq_refl eq_refl eq_refl))
                      eq_refl)).
Defined.

(** The [span] has become a [div]; the [em] is still inline, and the text
    below it is no block. *)
Lemma inline_wrappers_promoted_witness :
  let doc := PageExamples.wrapped_block in
  has_tag_in inline_tags doc = false /\
  node_at (normalizeInlineWrappers doc) [0; 0; 1]%nat
  = Some (DomExamples.el "em" [DomExamples.text "y"]) /\
  has_tag_in inline_tags (DomExamples.el "em" [DomExamples.text "y"]) = true /\
  [0%nat] <> [] /\
  node_at (DomExamples.el "em" [DomExamples.text "y"]) [0%nat] = Some (DomExamples.text "y") /\
  has_tag_in block_tags (DomExamples.text "y") = false.
Proof.
  cbn zeta.
  assert (Hq : [0%nat] <> []) by (intros H; discriminate H).
  split; [reflexivity|]. split; [reflexivity|]. split; [reflexivity|]. split; [exact Hq|].
  split; [reflexivity|].
  exact (inline_wrappers_promoted PageExamples.wrapped_block [0; 0; 1]%nat [0%nat]
           (DomExamples.el "em" [DomExamples.text "y"]) (DomExamples.text "y")
           eq_refl eq_refl eq_refl Hq eq_refl).
Defined.

(** ** The life of a tab across requests *)

Section TabLifecycle.

Variable Browser : Type.
Variable drive : option nat -> drvCall -> Browser -> Browser * drvReply.

Lemma string_app_nonempty (a b : string) : b <> "" -> a ++ b <> "".
Proof. intros Hb. destruct a as [|c a]; [exact Hb | discriminate]. Qed.

(** What [acquire_tab] hands over: it changes nothing of the request but the
    session id, and a tab it finds has a name. *)
Lemma acquire_tab_cases now r st :
  match fst (fst (acquire_tab now r st)) with
  | None => newTab r = false /\ snd (fst (acquire_tab now r st)) = r
  | Some tab =>
      ses_id tab <> "" /\
      ReuseTab (snd (fst (acquire_tab now r st))) = ReuseTab r /\
      ReuseWindow (snd (fst (acquire_tab now r st))) = ReuseWindow r
  end.
Proof.
  unfold acquire_tab. destruct (newTab r) eqn:Hn.
  - destruct (loadWindow now (SessionID r) (timeout r) st) as [window st1].
    pose proof (sibling_id now window (timeout (set_SessionID (ses_id window) r)) st1) as Hid.
    destruct (createSiblingTabWithTimeout _ _ _ _) as [tab st2]. cbn [fst snd] in *.
    split; [|split; reflexivity]. rewrite Hid. apply string_app_nonempty. discriminate.
  - destruct (loadTab now (oldTabID r) st) as [tab st1].
    destruct (String.eqb_spec (ses_id tab) (oldTabID r)) as [E|E]; cbn [negb fst snd].
    + split; [|split; reflexivity]. rewrite E. unfold newTab in Hn.
      now apply String.eqb_neq in Hn.
    + split; reflexivity.
Qed.

Lemma load_saved_tab now r tab st :
  oldTabID r = ses_id tab -> ses_id tab <> "" ->
  fst (fst (acquire_tab now r (saveTab tab st))) = Some tab /\
  snd (fst (acquire_tab now r (saveTab tab st))) = r /\
  tabs (snd (acquire_tab now r (saveTab tab st))) = delete (ses_id tab) (tabs st).
Proof.
  intros Hold Hne. unfold acquire_tab, newTab, loadTab. rewrite Hold.
  apply String.eqb_neq in Hne. rewrite Hne.
  destruct (on_tabLoadQuery_reply now (ses_id tab) (saveTab tab st)) as [Hr Ht].
  destruct (on_tabLoadQuery now (ses_id tab) (saveTab tab st)) as [reply st1].
  cbn [fst snd] in Hr, Ht. unfold saveTab, on_tabSave in Hr, Ht.
  cbn [tabs with_tabs] in Hr, Ht. rewrite lookup_insert_eq in Hr. cbn in Hr. subst reply.
  rewrite String.eqb_refl. cbn [negb fst snd]. rewrite Ht, delete_insert_eq. auto.
Qed.

End TabLifecycle.

(** X17: How [Execute] hands its tab on.  When the tab named by [load_tab] is
    not stored, nothing runs and the request ends with the error.  Otherwise
    the deferred call runs however the run ends, with a result, an error or
    a panic: with [reuse_tab] the tab is saved under the id the result
    reports, so that the next request naming that id gets this very tab, and
    only that one request, the load taking the tab out of the map; without
    [reuse_tab] the tab is shut down and the tab map is left alone. *)
Theorem execute_hands_tab_on
  (Browser : Type) (drive : option nat -> drvCall -> Browser -> Browser * drvReply)
  (now : Z) (r : Request) (st : registry) (b : Browser) :
  let a := acquire_tab now r st in
  let e := Execute Browser drive now r st b in
  match fst (fst a) with
  | None =>
      newTab r = false /\ ret_res e = None /\ ret_panic e = None /\
      ret_err e = Some ("tab with id " ++ quoted (oldTabID r) ++ " doesn't exist") /\
      end_trace e = [] /\ end_browser e = b /\ end_reg e = snd a
  | Some tab =>
      ses_id tab <> "" /\
      (ReuseTab r = true ->
       end_reg e = saveTab tab (snd a) /\
       res_TabID (res (end_req e)) = ses_id tab /\
       forall now' r2, oldTabID r2 = ses_id tab ->
         fst (fst (acquire_tab now' r2 (end_reg e))) = Some tab /\
         tabs (snd (acquire_tab now' r2 (end_reg e))) !! ses_id tab = None) /\
      (ReuseTab r = false ->
       end_reg e = shutdown tab (snd a) /\ tabs (end_reg e) = tabs (snd a))
  end.
Proof.
  cbn zeta. pose proof (acquire_tab_cases now r st) as Hc. unfold Execute.
  destruct (acquire_tab now r st) as [[[tab|] r1] st1]; cbn [fst snd] in *.
  - destruct Hc as (Hne & Hrt & Hrw). split; [exact Hne|].
    set (r2 := if ReuseWindow r1 then _ else r1).
    set (r3 := if ReuseTab r2 then _ else r2).
    assert (Hrt3 : ReuseTab r2 = ReuseTab r).
    { subst r2. destruct (ReuseWindow r1); exact Hrt. }
    assert (Hid3 : ReuseTab r = true -> res_TabID (res r3) = ses_id tab).
    { intros Hre. subst r3. rewrite Hrt3, Hre. reflexivity. }
    assert (Hrt4 : ReuseTab r3 = ReuseTab r).
    { subst r3. destruct (ReuseTab r2) eqn:E; cbn [ReuseTab set_res]; congruence. }
    pose proof (exec_blocks_ids Browser drive (ses_ctx tab) (seq 0 (List.length (Query r3)))
                  (mkExec r3 b [])) as [_ Htid].
    destruct (exec_blocks Browser drive (ses_ctx tab) (seq 0 (List.length (Query r3)))
                (mkExec r3 b [])) as [s f]. cbn [fst ex_req] in Htid.
    cbv beta zeta. rewrite Hrt4. split.
    + intros Hre. rewrite Hre.
      assert (G : forall e : executed Browser,
                end_reg e = saveTab tab st1 -> end_req e = ex_req s ->
                end_reg e = saveTab tab st1 /\
                res_TabID (res (end_req e)) = ses_id tab /\
                forall now' r2', oldTabID r2' = ses_id tab ->
                  fst (fst (acquire_tab now' r2' (end_reg e))) = Some tab /\
                  tabs (snd (acquire_tab now' r2' (end_reg e))) !! ses_id tab = None).
      { intros e E1 E2. split; [exact E1|]. split; [rewrite E2, Htid; exact (Hid3 Hre)|].
        intros now' r2' Hold. rewrite E1.
        destruct (load_saved_tab now' r2' tab st1 Hold Hne) as (A & _ & C).
        split; [exact A|]. rewrite C. apply lookup_delete_eq. }
      destruct f; apply G; reflexivity.
    + intros Hre. rewrite Hre.
      assert (G : forall e : executed Browser,
                end_reg e = shutdown tab st1 ->
                end_reg e = shutdown tab st1 /\ tabs (end_reg e) = tabs st1).
      { intros e E1. split; [exact E1|]. rewrite E1. apply shutdown_maps. }
      destruct f; apply G; reflexivity.
  - destruct Hc as [Hn ->]. repeat split. exact Hn.
Qed.

(** * Further properties of the preprocessor *)

(** [getAttr]. *)
Definition getAttr (n : Node) (key : string) : string :=
  match List.find (fun a => String.eqb (attr_Key a) key) (node_Attr n) with
  | Some a => attr_Val a
  | None => ""
  end.

Section AttrFacts.

Lemma set_first_find key val attrs attrs' :
  set_first key val attrs = Some attrs' ->
  forall k, List.find (fun a => String.eqb (attr_Key a) k) attrs' =
            if String.eqb key k then Some (mkAttr key val)
            else List.find (fun a => String.eqb (attr_Key a) k) attrs.
Proof.
  revert attrs'. induction attrs as [|a rest IH]; intros attrs'; cbn [set_first]; [discriminate|].
  destruct (String.eqb_spec (attr_Key a) key) as [E|E].
  - intros [= <-] k. cbn [List.find attr_Key]. rewrite E.
    destruct (String.eqb key k); reflexivity.
  - destruct (set_first key val rest) as [rest'|]; [|discriminate].
    intros [= <-] k. cbn [List.find]. rewrite (IH rest' eq_refl k).
    destruct (String.eqb_spec (attr_Key a) k) as [E'|E']; [|reflexivity].
    destruct (String.eqb_spec key k); [congruence | reflexivity].
Qed.

Lemma set_first_None key val attrs :
  set_first key val attrs = None ->
  List.find (fun a => String.eqb (attr_Key a) key) attrs = None.
Proof.
  induction attrs as [|a rest IH]; cbn [set_first List.find]; [reflexivity|].
  destruct (String.eqb (attr_Key a) key); [discriminate|].
  destruct (set_first key val rest); [discriminate | auto].
Qed.

Lemma find_None_set_first key val attrs :
  List.find (fun a => String.eqb (attr_Key a) key) attrs = None ->
  set_first key val attrs = None.
Proof.
  induction attrs as [|a rest IH]; cbn [set_first List.find]; [reflexivity|].
  destruct (String.eqb (attr_Key a) key); [discriminate|].
  intros H. now rewrite (IH H).
Qed.

Lemma set_first_again key val val' attrs attrs' :
  set_first key val attrs = Some attrs' ->
  set_first key val' attrs' = set_first key val' attrs.
Proof.
  revert attrs'. induction attrs as [|a rest IH]; intros attrs'; cbn [set_first]; [discriminate|].
  destruct (String.eqb (attr_Key a) key) eqn:E.
  - intros [= <-]. cbn [set_first attr_Key]. now rewrite String.eqb_refl.
  - destruct (set_first key val rest) as [rest'|]; [|discriminate].
    intros [= <-]. cbn [set_first]. now rewrite E, (IH rest' eq_refl).
Qed.

Lemma find_app_None {A} (f : A -> bool) (l l' : list A) :
  List.find f l = None -> List.find f (l ++ l')%list = List.find f l'.
Proof.
  induction l as [|x l IH]; cbn [List.find app]; [reflexivity|].
  destruct (f x); [discriminate | exact IH].
Qed.

Lemma find_app_Some {A} (f : A -> bool) (l l' : list A) x :
  List.find f l = Some x -> List.find f (l ++ l')%list = Some x.
Proof.
  induction l as [|y l IH]; cbn [List.find app]; [discriminate|].
  destruct (f y); [auto | exact IH].
Qed.

Lemma set_first_app key val attrs :
  set_first key val attrs = None ->
  forall val', set_first key val' (attrs ++ [mkAttr key val])%list
               = Some (attrs ++ [mkAttr key val'])%list.
Proof.
  induction attrs as [|a rest IH]; cbn [set_first app attr_Key].
  - intros _ val'. now rewrite String.eqb_refl.
  - destruct (String.eqb (attr_Key a) key); [discriminate|].
    destruct (set_first key val rest); [discriminate|]. intros _ val'.
    now rewrite (IH eq_refl val').
Qed.

Lemma clone_fold ty d a (ks pre : list Node) :
  fold_left AppendChild ks (mkNode ty d a pre) = mkNode ty d a (pre ++ ks).
Proof.
  revert pre. induction ks as [|k ks IH]; intros pre; cbn [fold_left AppendChild].
  - now rewrite app_nil_r.
  - rewrite IH, <- app_assoc. reflexivity.
Qed.

End AttrFacts.

(** X18: [setAttr] and [getAttr] go together: after [setAttr(n, key, val)] the
    value [getAttr] finds for [key] is [val], every other key reads as
    before, and the node keeps its type, tag and children; a second
    [setAttr] for the same key overwrites the first and adds nothing. *)
Theorem setAttr_getAttr (n : Node) (key val : string) :
  getAttr (setAttr n key val) key = val /\
  (forall k, k <> key -> getAttr (setAttr n key val) k = getAttr n k) /\
  node_Type (setAttr n key val) = node_Type n /\
  node_Data (setAttr n key val) = node_Data n /\
  node_kids (setAttr n key val) = node_kids n /\
  (forall val', setAttr (setAttr n key val) key val' = setAttr n key val').
Proof.
  destruct n as [ty d attrs kids]. unfold getAttr, setAttr.
  destruct (set_first key val attrs) as [attrs'|] eqn:E; cbn [node_Attr node_Type node_Data node_kids].
  - split; [|split; [|split; [|split; [|split]]]]; try reflexivity.
    + rewrite (set_first_find _ _ _ _ E key), String.eqb_refl. reflexivity.
    + intros k Hk. rewrite (set_first_find _ _ _ _ E k).
      destruct (String.eqb_spec key k); [congruence | reflexivity].
    + intros val'. rewrite (set_first_again _ _ val' _ _ E).
      destruct (set_first key val' attrs) as [attrs''|] eqn:E'; [reflexivity|].
      apply set_first_None in E'. apply (find_None_set_first key val) in E'. congruence.
  - pose proof (set_first_None _ _ _ E) as Hn.
    split; [|split; [|split; [|split; [|split]]]]; try reflexivity.
    + rewrite (find_app_None _ _ _ Hn). cbn [List.find attr_Key]. now rewrite String.eqb_refl.
    + intros k Hk.
      destruct (List.find (fun a => String.eqb (attr_Key a) k) attrs) as [x|] eqn:Ef.
      * now rewrite (find_app_Some _ _ _ _ Ef).
      * rewrite (find_app_None _ _ _ Ef). cbn [List.find attr_Key].
        destruct (String.eqb_spec key k); [congruence | reflexivity].
    + intros val'. rewrite (set_first_app _ _ _ E val').
      now rewrite (find_None_set_first key val' attrs Hn).
Qed.

(** X19: A deep copy is the tree over again: the same types, tags, attributes
    and children, each in its order, all the way down. *)
Theorem cloneNodeDeep_copy (n : Node) : cloneNodeDeep n = n.
Proof.
  induction n as [ty d a kids IH] using Node_ind_kids.
  cbn [cloneNodeDeep]. rewrite clone_fold. cbn [app]. f_equal.
  induction IH as [|k ks Hk _ IHks]; cbn [List.map]; [reflexivity|].
  now rewrite Hk, IHks.
Qed.

(** ** Loops that take the matches out of the tree *)

(** [for _, n := range dom.QuerySelectorAll(doc, g) { removeNode(n) }]. *)
Definition remove_matches (g : list selector) (doc : Node) : Node :=
  remove_all (QuerySelectorAll g doc) doc.

(** The tree without the matches (matches in the tree as it is given) and
    what is below them. *)
Fixpoint prune (g : list selector) (n : Node) : Node :=
  let 'mkNode ty d a kids := n in
  mkNode ty d a
    (flat_map (fun k => if matches_group g n k then [] else [prune g k]) kids).

(** Do all nodes strictly below [n] pass the test [Q]? *)
Fixpoint every_below (Q : Node -> bool) (n : Node) : bool :=
  let 'mkNode _ _ _ kids := n in forallb (fun k => Q k && every_below Q k) kids.

(** A selector group that looks at the node only, not at its parent. *)
Definition node_only (g : list selector) : bool :=
  forallb (fun s => match s with sel_one _ => true | sel_child _ _ => false end) g.

Section RemovePass.

Variable g : list selector.

Let rm (n : Node) (p : path) : Node := remove_at p n.

Lemma remove_at_cons i q ty d a kids :
  q <> [] -> remove_at (i :: q) (mkNode ty d a kids) = mkNode ty d a (alter (remove_at q) i kids).
Proof. destruct q; [contradiction | reflexivity]. Qed.

(** Removals at paths through child [i] are removals inside that child. *)
Lemma remove_fold_child ty d a kids i (ps : list path) :
  Forall (fun p => p <> []) ps ->
  fold_left rm (List.map (cons i) ps) (mkNode ty d a kids) =
  mkNode ty d a (alter (fun k => fold_left rm ps k) i kids).
Proof.
  intros Hps. revert kids. induction Hps as [|q ps Hq _ IH]; intros kids; cbn [List.map fold_left].
  - f_equal. symmetry. now apply alter_fixed.
  - unfold rm at 2. rewrite remove_at_cons by exact Hq. rewrite IH. f_equal.
    apply (list_alter_alter_eq (fun k => fold_left rm ps k) (remove_at q)).
Qed.

Lemma delete_middle {A} (pre : list A) x l :
  delete (List.length pre) (pre ++ x :: l)%list = (pre ++ l)%list.
Proof. induction pre as [|y pre IH]; cbn; [reflexivity | now f_equal]. Qed.

Lemma remove_pass_kids ks :
  Forall (fun k => fold_left rm (rev (QuerySelectorAll g k)) k = prune g k) ks ->
  forall pre ty d a parent,
    fold_left rm (rev (qsa_kids g parent (List.length pre) ks)) (mkNode ty d a (pre ++ ks)) =
    mkNode ty d a
      (pre ++ flat_map (fun k => if matches_group g parent k then [] else [prune g k]) ks).
Proof.
  induction 1 as [|k ks Hk _ IH]; intros pre ty d a parent; cbn [qsa_kids flat_map];
    [reflexivity|].
  rewrite !rev_app_distr, !fold_left_app.
  replace (S (List.length pre)) with (List.length (pre ++ [k])) by (rewrite length_app; cbn; lia).
  replace (pre ++ k :: ks)%list with ((pre ++ [k]) ++ ks)%list by now rewrite <- app_assoc.
  rewrite IH, <- app_assoc. cbn [app].
  set (rest := flat_map _ ks).
  rewrite <- map_rev, remove_fold_child.
  2:{ apply Forall_forall. intros p Hp. apply list_elem_of_In, in_rev, list_elem_of_In in Hp.
      pose proof (QuerySelectorAll_nonempty g k) as Hne. rewrite Forall_forall in Hne. auto. }
  rewrite alter_middle. cbv beta.
  rewrite (Hk : fold_left rm (@rev (list nat) (QuerySelectorAll g k)) k = prune g k).
  destruct (matches_group g parent k); cbn [rev app fold_left]; [|reflexivity].
  unfold rm. cbn [remove_at]. f_equal. apply delete_middle.
Qed.

(** The loop, seen from the tree. *)
Lemma remove_matches_prune n : remove_matches g n = prune g n.
Proof.
  unfold remove_matches, remove_all. change (fun n p => remove_at p n) with rm.
  induction n as [ty d a kids IH] using Node_ind_kids.
  rewrite QuerySelectorAll_unfold. cbn [node_kids prune].
  exact (remove_pass_kids kids IH [] ty d a (mkNode ty d a kids)).
Qed.

Lemma prune_Type n : node_Type (prune g n) = node_Type n.
Proof. destruct n; reflexivity. Qed.
Lemma prune_Data n : node_Data (prune g n) = node_Data n.
Proof. destruct n; reflexivity. Qed.
Lemma prune_Attr n : node_Attr (prune g n) = node_Attr n.
Proof. destruct n; reflexivity. Qed.

Lemma lookup_flat_map_keep {A B} (keep : A -> bool) (f : A -> B) (l : list A) i y :
  flat_map (fun x => if keep x then [f x] else []) l !! i = Some y ->
  exists j x, l !! j = Some x /\ keep x = true /\ y = f x.
Proof.
  revert i. induction l as [|x l IH]; intros i; cbn [flat_map]; [discriminate|].
  destruct (keep x) eqn:E; cbn [app].
  - destruct i as [|i]; cbn.
    + intros [= <-]. exists 0%nat, x. auto.
    + intros H. destruct (IH i H) as (j & x' & H1 & H2 & H3). exists (S j), x'. auto.
  - intros H. destruct (IH i H) as (j & x' & H1 & H2 & H3). exists (S j), x'. auto.
Qed.

(** Where the nodes of a pruned tree come from: each is the pruned form of
    a node of the tree that no selector of [g] matched. *)
Lemma prune_at n p el' :
  p <> [] -> node_at (prune g n) p = Some el' ->
  exists p' parent el,
    p' <> [] /\ node_at n (removelast p') = Some parent /\ node_at n p' = Some el /\
    matches_group g parent el = false /\ el' = prune g el.
Proof.
  revert n. induction p as [|i q IH]; intros n Hp; [contradiction|].
  destruct n as [ty d a kids]. cbn [prune node_at node_kids].
  destruct (flat_map _ kids !! i) as [k'|] eqn:E; [|discriminate].
  assert (E' : flat_map (fun x => if negb (matches_group g (mkNode ty d a kids) x)
                                  then [prune g x] else []) kids !! i = Some k').
  { rewrite <- E. f_equal. apply flat_map_ext. intros x.
    destruct (matches_group g (mkNode ty d a kids) x); reflexivity. }
  apply lookup_flat_map_keep in E' as (j & k & Hj & Hm & ->).
  apply negb_true_iff in Hm.
  destruct q as [|j' q].
  - cbn [node_at]. intros [= <-]. exists [j], (mkNode ty d a kids), k.
    cbn [removelast node_at node_kids]. rewrite Hj. repeat split; auto; discriminate.
  - intros H. assert (Hne : j' :: q <> []) by discriminate.
    destruct (IH k Hne H) as (p' & parent & el & Hp' & H1 & H2 & H3 & H4).
    exists (j :: p'), parent, el. rewrite removelast_cons by exact Hp'.
    cbn [node_at node_kids]. rewrite Hj. repeat split; auto; discriminate.
Qed.

End RemovePass.

Lemma matches_node_only g parent parent' x y :
  node_only g = true ->
  node_Type x = node_Type y -> node_Data x = node_Data y -> node_Attr x = node_Attr y ->
  matches_group g parent x = matches_group g parent' y.
Proof.
  intros Hg Ht Hd Ha. unfold matches_group.
  induction g as [|s g' IH]; cbn [existsb]; [reflexivity|].
  cbn [node_only forallb] in Hg. apply andb_prop in Hg as [Hs Hg']. rewrite (IH Hg').
  f_equal. destruct s as [s1|sp sc]; [|discriminate]. unfold matches_simple, is_element.
  now rewrite Ht, Hd, Ha.
Qed.

(** X20: A removal loop leaves no match behind.  After
    [for _, n := range dom.QuerySelectorAll(doc, g) { removeNode(n) }] with
    selectors that look at the node alone, no node below the root matches;
    and every node that is left is a node of the document as it was (with
    the matches below it gone), none has been added or relabelled. *)
Theorem removed_matches_gone (g : list selector) (doc : Node) (p : path) (d : Node) :
  p <> [] -> node_at (remove_matches g doc) p = Some d ->
  (exists p' d0, p' <> [] /\ node_at doc p' = Some d0 /\ d = remove_matches g d0 /\
                 node_Type d = node_Type d0 /\ node_Data d = node_Data d0 /\
                 node_Attr d = node_Attr d0) /\
  (node_only g = true -> forall parent, matches_group g parent d = false).
Proof.
  intros Hp Hd. rewrite remove_matches_prune in Hd.
  destruct (prune_at g doc p d Hp Hd) as (p' & par & d0 & Hp' & Hpar & Hd0 & Hm & ->).
  split.
  - exists p', d0. rewrite remove_matches_prune, prune_Type, prune_Data, prune_Attr.
    repeat split; assumption.
  - intros Hg parent. rewrite <- Hm.
    apply matches_node_only; [exact Hg | apply prune_Type | apply prune_Data | apply prune_Attr].
Qed.

Module RemoveExamples.

(** A dialog in front of a paragraph. *)
Definition with_dialog : Node :=
  DomExamples.document
    [DomExamples.el "html"
       [DomExamples.el "body"
          [DomExamples.el "dialog" [DomExamples.text "x"];
           DomExamples.el "p" [DomExamples.text "y"]]]].

End RemoveExamples.

(** With the dialog gone the paragraph is the first child of the body. *)
Lemma removed_matches_gone_witness :
  [0; 0; 0]%nat <> [] /\
  node_at (remove_matches (tags ["dialog"]) RemoveExamples.with_dialog) [0; 0; 0]%nat
  = Some (DomExamples.el "p" [DomExamples.text "y"]) /\
  node_only (tags ["dialog"]) = true /\
  matches_group (tags ["dialog"]) RemoveExamples.with_dialog
    (DomExamples.el "p" [DomExamples.text "y"]) = false.
Proof.
  assert (Hp : [0; 0; 0]%nat <> []) by (intros H; discriminate H).
  split; [exact Hp|]. split; [reflexivity|]. split; [reflexivity|].
  exact (proj2 (removed_matches_gone (tags ["dialog"]) RemoveExamples.with_dialog
                  [0; 0; 0]%nat (DomExamples.el "p" [DomExamples.text "y"]) Hp eq_refl)
               eq_refl RemoveExamples.with_dialog).
Defined.

(** ** [preprocessDocument] *)

Definition media_tags : list string := ["object"; "embed"; "iframe"].

(** [for _, n := range dom.QuerySelectorAll(doc, "object,embed,iframe")
    { n.Data = "div" }]. *)
Definition neutralize_media (doc : Node) : Node :=
  fold_left (fun doc p => alter_at rename_div p doc)
            (QuerySelectorAll (tags media_tags) doc) doc.

(** [fixJobTeam]. *)
Definition fixJobTeam (doc : Node) : Node :=
  remove_matches [sel_one (sel_id "filterbar-container")] doc.

Section Preprocess.

Context {strs : Strings}.

(** [strings.Fields], as the library has it. *)
Variable Fields : string -> list string.

(** The loop of [addClass] over the attributes: the first [class]
    attribute gets the class appended unless it is one of its fields. *)
Fixpoint add_class_first (cls : string) (attrs : list Attribute) : option (list Attribute) :=
  match attrs with
  | [] => None
  | a :: rest =>
      if String.eqb (attr_Key a) "class" then
        if existsb (fun p => String.eqb p cls) (Fields (attr_Val a)) then Some (a :: rest)
        else Some (mkAttr (attr_Key a) (attr_Val a ++ " " ++ cls) :: rest)
      else option_map (cons a) (add_class_first cls rest)
  end.

(** [addClass]. *)
Definition addClass (n : Node) (cls : string) : Node :=
  let 'mkNode ty d attrs kids := n in
  match ty with
  | ElementNode =>
      match add_class_first cls attrs with
      | Some attrs' => mkNode ty d attrs' kids
      | None => mkNode ty d (attrs ++ [mkAttr "class" cls]) kids
      end
  | _ => n
  end.

(** [for _, n := range dom.QuerySelectorAll(doc, "nav") { addClass(n, "nav") }]. *)
Definition mark_nav (doc : Node) : Node :=
  fold_left (fun doc p => alter_at (fun n => addClass n "nav") p doc)
            (QuerySelectorAll (tags ["nav"]) doc) doc.

(** [preprocessDocument]. *)
Definition preprocessDocument (doc : Node) : Node :=
  let doc := remove_matches (tags ["dialog"]) doc in
  let doc := neutralize_media doc in
  let doc := mark_nav doc in
  let doc := headerNormalization doc in
  let doc := normalizeInlineWrappers doc in
  fixJobTeam doc.

Lemma cloneNodeDeep_id n : cloneNodeDeep n = n.
Proof.
  induction n as [ty d a kids IH] using Node_ind_kids.
  cbn [cloneNodeDeep]. rewrite clone_fold. cbn [app]. f_equal.
  induction IH as [|k ks Hk _ IHks]; cbn [List.map]; [reflexivity|].
  now rewrite Hk, IHks.
Qed.

(** *** What the passes keep *)

Section Frame.

(** A test on nodes that looks at the node itself only. *)
Variable Q : Node -> bool.
Hypothesis Q_label : forall x y,
  node_Type x = node_Type y -> node_Data x = node_Data y -> node_Attr x = node_Attr y ->
  Q x = Q y.

Definition good (n : Node) : Prop := Q n = true /\ every_below Q n = true.

Lemma every_below_kids ty d a kids :
  every_below Q (mkNode ty d a kids) = true <-> Forall good kids.
Proof.
  cbn [every_below]. rewrite forallb_forall, Forall_forall. split; intros H k Hk.
  - apply list_elem_of_In in Hk. apply andb_prop. auto.
  - apply list_elem_of_In in Hk. apply andb_true_intro. exact (H k Hk).
Qed.

Lemma good_at n p d : every_below Q n = true -> p <> [] -> node_at n p = Some d -> good d.
Proof.
  revert n. induction p as [|i q IH]; intros [ty dat a kids] Hn Hp; [contradiction|].
  cbn [node_at node_kids]. destruct (kids !! i) as [k|] eqn:E; [|discriminate].
  apply every_below_kids in Hn. rewrite Forall_lookup in Hn. specialize (Hn i k E).
  destruct q as [|j q]; [now intros [= <-]|].
  apply IH; [exact (proj2 Hn) | discriminate].
Qed.

Lemma every_below_paths n :
  (forall p d, p <> [] -> node_at n p = Some d -> Q d = true) -> every_below Q n = true.
Proof.
  induction n as [ty dat a kids IH] using Node_ind_kids. intros H.
  apply every_below_kids. rewrite Forall_lookup. intros i k Hk. split.
  - apply (H [i] k); [discriminate|]. cbn [node_at node_kids]. now rewrite Hk.
  - rewrite Forall_lookup in IH. apply (IH i k Hk). intros p d Hp Hd.
    apply (H (i :: p) d); [discriminate|]. cbn [node_at node_kids]. now rewrite Hk.
Qed.

Lemma alter_at_label f q k :
  q <> [] ->
  node_Type (alter_at f q k) = node_Type k /\ node_Data (alter_at f q k) = node_Data k /\
  node_Attr (alter_at f q k) = node_Attr k.
Proof. destruct q; [contradiction|]. destruct k. cbn. auto. Qed.

Lemma remove_at_label q k :
  node_Type (remove_at q k) = node_Type k /\ node_Data (remove_at q k) = node_Data k /\
  node_Attr (remove_at q k) = node_Attr k.
Proof. destruct q as [|i [|j q]]; destruct k; cbn; auto. Qed.

Lemma good_alter_at f p n :
  (forall x, node_at n p = Some x -> good x -> good (f x)) ->
  good n -> good (alter_at f p n).
Proof.
  revert n. induction p as [|i q IH]; intros n Hf Hn.
  - cbn [alter_at]. apply Hf; [reflexivity | exact Hn].
  - destruct Hn as [Hq Hb]. split.
    + rewrite <- Hq. apply Q_label; apply alter_at_label; discriminate.
    + destruct n as [ty dat a kids]. cbn [alter_at]. apply every_below_kids.
      apply every_below_kids in Hb. rewrite Forall_lookup in Hb |- *.
      intros j k'. rewrite list_lookup_alter.
      destruct (decide (i = j)) as [<-|Hne]; [|apply Hb].
      destruct (kids !! i) as [k|] eqn:E; [|discriminate]. cbn. intros [= <-].
      apply IH; [|exact (Hb i k E)].
      intros x Hx. apply Hf. cbn [node_at node_kids]. now rewrite E.
Qed.

Lemma every_below_alter_at f p n :
  p <> [] ->
  (forall x, node_at n p = Some x -> good x -> good (f x)) ->
  every_below Q n = true -> every_below Q (alter_at f p n) = true.
Proof.
  intros Hp Hf Hb. destruct p as [|i q]; [contradiction|].
  destruct n as [ty dat a kids]. cbn [alter_at]. apply every_below_kids.
  apply every_below_kids in Hb. rewrite Forall_lookup in Hb |- *.
  intros j k'. rewrite list_lookup_alter.
  destruct (decide (i = j)) as [<-|Hne]; [|apply Hb].
  destruct (kids !! i) as [k|] eqn:E; [|discriminate]. cbn. intros [= <-].
  apply good_alter_at; [|exact (Hb i k E)].
  intros x Hx. apply Hf. cbn [node_at node_kids]. now rewrite E.
Qed.

Lemma good_remove_at p n : good n -> good (remove_at p n).
Proof.
  revert n. induction p as [|i q IH]; intros n [Hq Hb]; [split; assumption|].
  split; [rewrite <- Hq; apply Q_label; apply remove_at_label|].
  destruct n as [ty dat a kids]. apply every_below_kids in Hb.
  destruct q as [|j q].
  - cbn [remove_at]. apply every_below_kids. now apply Forall_delete.
  - change (remove_at (i :: j :: q) (mkNode ty dat a kids))
      with (mkNode ty dat a (alter (remove_at (j :: q)) i kids)).
    apply every_below_kids. rewrite Forall_lookup in Hb |- *.
    intros j' k'. rewrite list_lookup_alter.
    destruct (decide (i = j')) as [<-|Hne]; [|apply Hb].
    destruct (kids !! i) as [k|] eqn:E; [|discriminate]. cbn. intros [= <-].
    apply IH. exact (Hb i k E).
Qed.

Lemma good_remove_all ps n : good n -> good (remove_all ps n).
Proof.
  unfold remove_all. generalize (rev ps) as l. intros l. revert n.
  induction l as [|p l IH]; intros n Hn; cbn [fold_left]; [exact Hn|].
  apply IH. now apply good_remove_at.
Qed.

Lemma every_below_remove_matches g n :
  every_below Q n = true -> every_below Q (remove_matches g n) = true.
Proof.
  intros Hb. rewrite remove_matches_prune.
  induction n as [ty dat a kids IH] using Node_ind_kids. cbn [prune].
  apply every_below_kids. apply every_below_kids in Hb.
  generalize (mkNode ty dat a kids) as parent. intros parent.
  induction IH as [|k ks Hk _ IHks]; cbn [flat_map]; [constructor|].
  inversion Hb as [|? ? [Hqk Hbk] Hrest]; subst.
  apply Forall_app. split; [|now apply IHks].
  destruct (matches_group g parent k); constructor; [|constructor].
  split; [|now apply Hk]. rewrite <- Hqk.
  apply Q_label; [apply prune_Type | apply prune_Data | apply prune_Attr].
Qed.

(** The three things the passes do to a node that stays. *)
Hypothesis Q_div : forall x, Q x = true -> Q (rename_div x) = true.
Hypothesis Q_class : forall x cls, Q x = true -> Q (addClass x cls) = true.
Hypothesis Q_wrapper :
  Q (mkNode ElementNode "div" [mkAttr "data-trimmed-header" "1"] []) = true.

Lemma fold_alter_good (f : Node -> Node) (ps : list path) n :
  Forall (fun p => p <> []) ps ->
  (forall x, good x -> good (f x)) ->
  every_below Q n = true ->
  every_below Q (fold_left (fun doc p => alter_at f p doc) ps n) = true.
Proof.
  intros Hps Hf. revert n. induction Hps as [|p ps Hp _ IH]; intros n Hb; cbn [fold_left];
    [exact Hb|].
  apply IH. apply every_below_alter_at; [exact Hp | | exact Hb]. intros x _. apply Hf.
Qed.

Lemma good_rename_div x : good x -> good (rename_div x).
Proof. intros [Hq Hb]. split; [now apply Q_div|]. destruct x. exact Hb. Qed.

Lemma addClass_kids x cls : node_kids (addClass x cls) = node_kids x.
Proof.
  destruct x as [[] d a kids]; cbn [addClass node_kids]; try reflexivity.
  destruct (add_class_first cls a); reflexivity.
Qed.

Lemma every_below_same_kids x y : node_kids x = node_kids y -> every_below Q x = every_below Q y.
Proof. destruct x, y. cbn. now intros ->. Qed.

Lemma good_addClass x cls : good x -> good (addClass x cls).
Proof.
  intros [Hq Hb]. split; [now apply Q_class|].
  now rewrite (every_below_same_kids _ x (addClass_kids x cls)).
Qed.

Lemma every_below_neutralize_media n :
  every_below Q n = true -> every_below Q (neutralize_media n) = true.
Proof.
  apply fold_alter_good; [apply QuerySelectorAll_nonempty | exact good_rename_div].
Qed.

Lemma every_below_mark_nav n :
  every_below Q n = true -> every_below Q (mark_nav n) = true.
Proof.
  apply fold_alter_good; [apply QuerySelectorAll_nonempty|].
  intros x. apply good_addClass.
Qed.

Lemma every_below_inline n :
  every_below Q n = true -> every_below Q (normalizeInlineWrappers n) = true.
Proof.
  unfold normalizeInlineWrappers.
  rewrite (fold_left_agree _ (fun d p => alter_at promote_inline p d) _ _ inline_step_alter).
  apply fold_alter_good; [apply QuerySelectorAll_nonempty|].
  intros x Hx. unfold promote_inline. destruct (hasBlockDescendant x); [|exact Hx].
  now apply good_rename_div.
Qed.

Lemma head_QuerySelector g h p : QuerySelector g h = Some p -> p <> [] /\ p ∈ QuerySelectorAll g h.
Proof.
  unfold QuerySelector. intros H.
  assert (Hin : p ∈ QuerySelectorAll g h).
  { destruct (QuerySelectorAll g h) as [|x l]; [discriminate|]. injection H as ->.
    apply elem_of_cons. auto. }
  split; [|exact Hin]. pose proof (QuerySelectorAll_nonempty g h) as Hne.
  rewrite Forall_forall in Hne. auto.
Qed.

Lemma cloneUsefulBadge_good h b :
  every_below Q h = true -> cloneUsefulBadge h = Some b -> good b.
Proof.
  intros Hb. unfold cloneUsefulBadge.
  destruct (QuerySelector _ h) as [bp|] eqn:E; [|discriminate].
  destruct (node_at h bp) as [badge|] eqn:Eb; [|discriminate].
  destruct (_ || _); [discriminate|]. destruct (isGenericBadgeLabel _); [discriminate|].
  intros [= <-]. rewrite cloneNodeDeep_id.
  apply (good_at h bp badge Hb); [|exact Eb]. now apply head_QuerySelector in E.
Qed.

Lemma head_omap {A B} (f : A -> option B) (l : list A) y :
  head (omap f l) = Some y -> exists x, x ∈ l /\ f x = Some y.
Proof.
  induction l as [|x l IH]; cbn; [discriminate|].
  destruct (f x) as [z|] eqn:E.
  - cbn. intros [= <-]. exists x. split; [apply elem_of_cons; auto | exact E].
  - intros H. destruct (IH H) as (x' & Hin & Hx'). exists x'.
    split; [apply elem_of_cons; auto | exact Hx'].
Qed.

Lemma findSummaryParagraph_good h sm :
  every_below Q h = true -> findSummaryParagraph h = Some sm -> good sm.
Proof.
  intros Hb. unfold findSummaryParagraph. intros H.
  apply head_omap in H as (pp & Hin & Hc).
  pose proof (QuerySelectorAll_nonempty (tags ["p"]) h) as Hne.
  rewrite Forall_forall in Hne. specialize (Hne pp Hin).
  destruct (node_at h pp) as [p|] eqn:Ep; [|discriminate].
  destruct (_ || _); [discriminate|]. destruct (_ <? _)%nat; [discriminate|].
  destruct (_ || _); [|discriminate].
  injection Hc as <-. rewrite cloneNodeDeep_id. exact (good_at h pp p Hb Hne Ep).
Qed.

Lemma trimmed_wrapper_shape badge heading summary :
  trimmed_wrapper badge heading summary =
  mkNode ElementNode "div" [mkAttr "data-trimmed-header" "1"]
         (option_list badge ++ [heading] ++ option_list summary).
Proof.
  unfold trimmed_wrapper. rewrite cloneNodeDeep_id.
  destruct badge, summary; reflexivity.
Qed.

Lemma good_visit_header h : good h -> good (fst (visit_header h)).
Proof.
  intros Hh. unfold visit_header.
  destruct (findHeading h) as [heading|] eqn:Eh; [|exact Hh]. cbv zeta.
  destruct (shouldReplaceHeader _ _ _ _); cbn [fst]; [|now apply good_remove_all].
  assert (Hheading : good (default h (node_at h heading))).
  { destruct (node_at h heading) as [x|] eqn:Ex; [|exact Hh]. cbn.
    apply (good_at h heading x (proj2 Hh)); [|exact Ex].
    unfold findHeading in Eh. now apply head_QuerySelector in Eh. }
  pose proof (cloneUsefulBadge_good h) as Hbadge.
  pose proof (findSummaryParagraph_good h) as Hsum.
  rewrite trimmed_wrapper_shape.
  split.
  { etransitivity; [|exact Q_wrapper]. apply Q_label; reflexivity. }
  apply every_below_kids. apply Forall_app. split; [|apply Forall_app; split].
  - destruct (cloneUsefulBadge h) as [b|] eqn:Eb; cbn [option_list]; [|constructor].
    constructor; [|constructor]. exact (Hbadge b (proj2 Hh) eq_refl).
  - constructor; [exact Hheading | constructor].
  - destruct (findSummaryParagraph h) as [sm|] eqn:Es; cbn [option_list]; [|constructor].
    constructor; [|constructor]. exact (Hsum sm (proj2 Hh) eq_refl).
Qed.

Lemma every_below_headerNormalization n :
  every_below Q n = true -> every_below Q (headerNormalization n) = true.
Proof.
  intros Hb. unfold headerNormalization.
  pose proof (QuerySelectorAll_nonempty headerSel n) as Hne.
  assert (G : forall ps, Forall (fun p => p <> []) ps ->
              forall st, every_below Q (fst st) = true ->
              every_below Q (fst (fold_left headerNormalization_step ps st)) = true).
  { intros ps Hps. induction Hps as [|p ps Hp _ IH]; intros st Hst; cbn [fold_left];
      [exact Hst|].
    apply IH. destruct st as [doc gone]. unfold headerNormalization_step.
    destruct (existsb _ gone); [exact Hst|].
    destruct (node_at doc p) as [h|] eqn:Eh; [|exact Hst].
    pose proof (good_visit_header h) as Hv.
    destruct (visit_header h) as [h' replaced]. cbn [fst] in *.
    apply every_below_alter_at; [exact Hp | | exact Hst].
    intros x Hx Hgx. rewrite Eh in Hx. injection Hx as <-. now apply Hv. }
  now apply G.
Qed.

(** A test of this kind that every node below the root passes is still
    passed by every node below the root after [preprocessDocument]. *)
Lemma every_below_preprocessDocument n :
  every_below Q n = true -> every_below Q (preprocessDocument n) = true.
Proof.
  intros Hb. unfold preprocessDocument, fixJobTeam. cbv zeta.
  apply every_below_remove_matches, every_below_inline, every_below_headerNormalization,
    every_below_mark_nav, every_below_neutralize_media, every_below_remove_matches.
  exact Hb.
Qed.

End Frame.

End Preprocess.

(** *** Tests that the passes keep *)

(** No element with a tag of [l]. *)
Definition no_tag (l : list string) (n : Node) : bool := negb (has_tag_in l n).

(** No element with the id [id]. *)
Definition no_id (id : string) (n : Node) : bool := negb (matches_simple (sel_id id) n).

Section PassFacts.

Context {strs : Strings}.

Variable Fields : string -> list string.

Lemma no_tag_same l x y :
  node_Type x = node_Type y -> node_Data x = node_Data y -> no_tag l x = no_tag l y.
Proof. unfold no_tag, has_tag_in, is_element. now intros -> ->. Qed.

Lemma no_tag_label l x y :
  node_Type x = node_Type y -> node_Data x = node_Data y -> node_Attr x = node_Attr y ->
  no_tag l x = no_tag l y.
Proof. unfold no_tag, has_tag_in, is_element. now intros -> -> _. Qed.

Lemma no_id_label id x y :
  node_Type x = node_Type y -> node_Data x = node_Data y -> node_Attr x = node_Attr y ->
  no_id id x = no_id id y.
Proof. unfold no_id, matches_simple, is_element. now intros -> _ ->. Qed.

Lemma addClass_Type x cls : node_Type (addClass Fields x cls) = node_Type x.
Proof.
  destruct x as [[] d a kids]; cbn [addClass node_Type]; try reflexivity.
  destruct (add_class_first Fields cls a); reflexivity.
Qed.

Lemma addClass_Data x cls : node_Data (addClass Fields x cls) = node_Data x.
Proof.
  destruct x as [[] d a kids]; cbn [addClass node_Data]; try reflexivity.
  destruct (add_class_first Fields cls a); reflexivity.
Qed.

Lemma no_tag_rename_div l x :
  existsb (String.eqb "div") l = false -> no_tag l (rename_div x) = true.
Proof.
  intros Hl. unfold no_tag, has_tag_in. destruct x as [ty d a kids].
  cbn [rename_div node_Data]. rewrite Hl. now rewrite andb_false_r.
Qed.

(** Tags that are not there (and are not [div]) do not appear. *)
Lemma no_tag_kept l doc :
  existsb (String.eqb "div") l = false ->
  every_below (no_tag l) doc = true ->
  every_below (no_tag l) (preprocessDocument Fields doc) = true.
Proof.
  intros Hl. apply every_below_preprocessDocument.
  - apply no_tag_label.
  - intros x _. now apply no_tag_rename_div.
  - intros x cls Hx. rewrite <- Hx.
    apply no_tag_same; [apply addClass_Type | apply addClass_Data].
  - apply (no_tag_rename_div l (mkNode ElementNode "" [mkAttr "data-trimmed-header" "1"] []) Hl).
Qed.

(** A removal loop leaves nothing below the root that its selectors match. *)
Lemma every_below_pruned (Q : Node -> bool) g n :
  (forall x y, node_Type x = node_Type y -> node_Data x = node_Data y ->
               node_Attr x = node_Attr y -> Q x = Q y) ->
  (forall parent k, matches_group g parent k = false -> Q k = true) ->
  every_below Q (prune g n) = true.
Proof.
  intros Hlabel Hg. induction n as [ty d a kids IH] using Node_ind_kids. cbn [prune].
  apply every_below_kids.
  generalize (mkNode ty d a kids) as parent. intros parent.
  induction IH as [|k ks Hk _ IHks]; cbn [flat_map]; [constructor|].
  apply Forall_app. split; [|exact IHks].
  destruct (matches_group g parent k) eqn:E; constructor; [|constructor].
  split; [|exact Hk]. rewrite <- (Hg parent k E).
  apply Hlabel; [apply prune_Type | apply prune_Data | apply prune_Attr].
Qed.

(** The renaming loop leaves no element with one of its tags. *)
Lemma every_below_renamed l n :
  existsb (String.eqb "div") l = false ->
  every_below (no_tag l) (visit_below (tags l) rename_div n) = true.
Proof.
  intros Hl. induction n as [ty d a kids IH] using Node_ind_kids. cbn [visit_below].
  apply every_below_kids.
  generalize (mkNode ty d a kids) as parent. intros parent.
  induction IH as [|k ks Hk _ IHks]; cbn [List.map]; constructor; [|exact IHks].
  rewrite matches_tags. destruct (has_tag_in l k) eqn:E.
  - split.
    + rewrite (no_tag_label l _ (rename_div k)); [now apply no_tag_rename_div | | |];
        destruct k; reflexivity.
    + rewrite (every_below_same_kids _ _ (visit_below (tags l) rename_div k)); [exact Hk|].
      destruct (visit_below (tags l) rename_div k); reflexivity.
  - split; [|exact Hk]. unfold no_tag. now rewrite has_tag_in_visit_below, E.
Qed.

Lemma neutralize_media_tree n : neutralize_media n = visit_below (tags media_tags) rename_div n.
Proof. unfold neutralize_media. apply visit_pass. intros [ty d a kids]. reflexivity. Qed.

(** The inline-wrapper pass, below the root. *)
Lemma inline_promoted_below doc p el :
  p <> [] -> node_at (normalizeInlineWrappers doc) p = Some el ->
  has_tag_in inline_tags el = true -> has_below block_tags el = false.
Proof.
  intros Hp Hel Hin. rewrite normalizeInlineWrappers_tree in Hel.
  destruct (visit_below_at _ _ _ _ _ Hp Hel) as (parent & el0 & _ & _ & ->).
  rewrite matches_inlineSel in *.
  destruct (has_tag_in inline_tags el0) eqn:Hin0.
  - rewrite has_tag_in_with_kids_of in Hin. unfold promote_inline in Hin.
    destruct (hasBlockDescendant el0) eqn:Hb.
    + rewrite rename_div_not_inline in Hin. discriminate.
    + rewrite has_below_with_kids_of, has_below_block_promoted.
      now rewrite <- hasBlockDescendant_below.
  - rewrite has_tag_in_visit_below in Hin. congruence.
Qed.

(** Pruning makes nothing appear below a node. *)
Lemma has_below_prune l g n : has_below l (prune g n) = true -> has_below l n = true.
Proof.
  induction n as [ty d a kids IH] using Node_ind_kids. cbn [prune has_below].
  generalize (mkNode ty d a kids) as parent. intros parent.
  induction IH as [|k ks Hk _ IHks]; cbn [flat_map existsb]; [discriminate|].
  rewrite existsb_app. intros H. apply orb_true_iff in H as [H|H].
  - destruct (matches_group g parent k); [discriminate|]. cbn [existsb] in H.
    rewrite orb_false_r in H. apply orb_true_iff in H as [H|H].
    + assert (E : has_tag_in l (prune g k) = has_tag_in l k) by (destruct k; reflexivity).
      rewrite E in H. now rewrite H.
    + rewrite (Hk H). now rewrite orb_true_r.
  - rewrite (IHks H). now rewrite orb_true_r.
Qed.

End PassFacts.

(** X21: [preprocessDocument] brings in no tag but [div]: for every list of tags
    without [div], if no element below the root of the document has one of
    them, then none below the root of the result has. *)
Theorem preprocessDocument_adds_only_div
  {strs : Strings} (Fields : string -> list string) (l : list string) (doc : Node) :
  existsb (String.eqb "div") l = false ->
  (forall p d, p <> [] -> node_at doc p = Some d -> has_tag_in l d = false) ->
  forall p d, p <> [] -> node_at (preprocessDocument Fields doc) p = Some d ->
              has_tag_in l d = false.
Proof.
  intros Hl Hdoc p d Hp Hd.
  assert (Hb : every_below (no_tag l) doc = true).
  { apply every_below_paths. intros q x Hq Hx. unfold no_tag. now rewrite (Hdoc q x Hq Hx). }
  apply (no_tag_kept Fields l doc Hl) in Hb.
  destruct (good_at _ _ p d Hb Hp Hd) as [Hq _]. unfold no_tag in Hq.
  now apply negb_true_iff in Hq.
Qed.

(** X22: What is true of every document that [preprocessDocument] returns: below
    its root there is no [dialog], no [object], [embed] or [iframe], no
    element with the id [filterbar-container], and no inline element with a
    block-level element below it. *)
Theorem preprocessDocument_clean
  {strs : Strings} (Fields : string -> list string) (doc : Node) (p : path) (d : Node) :
  p <> [] -> node_at (preprocessDocument Fields doc) p = Some d ->
  has_tag_in ("dialog" :: media_tags) d = false /\
  matches_simple (sel_id "filterbar-container") d = false /\
  (has_tag_in inline_tags d = true ->
   forall q d', q <> [] -> node_at d q = Some d' -> has_tag_in block_tags d' = false).
Proof.
  intros Hp Hd.
  set (d1 := remove_matches (tags ["dialog"]) doc).
  set (d2 := neutralize_media d1). set (d3 := mark_nav Fields d2).
  set (d4 := headerNormalization d3). set (d5 := normalizeInlineWrappers d4).
  assert (Hdiv : forall l, existsb (String.eqb "div") l = false ->
            forall n, every_below (no_tag l) n = true ->
            (every_below (no_tag l) (neutralize_media n) = true /\
             every_below (no_tag l) (mark_nav Fields n) = true /\
             every_below (no_tag l) (headerNormalization n) = true /\
             every_below (no_tag l) (normalizeInlineWrappers n) = true /\
             every_below (no_tag l) (fixJobTeam n) = true)).
  { intros l Hl n Hn.
    assert (H1 : forall x, no_tag l x = true -> no_tag l (rename_div x) = true)
      by (intros x _; now apply no_tag_rename_div).
    assert (H2 : forall x cls, no_tag l x = true -> no_tag l (addClass Fields x cls) = true).
    { intros x cls Hx. rewrite <- Hx.
      apply no_tag_same; [apply addClass_Type | apply addClass_Data]. }
    assert (H3 : no_tag l (mkNode ElementNode "div" [mkAttr "data-trimmed-header" "1"] []) = true)
      by apply (no_tag_rename_div l (mkNode ElementNode "" [mkAttr "data-trimmed-header" "1"] []) Hl).
    split; [apply every_below_neutralize_media; auto using no_tag_label|].
    split; [apply every_below_mark_nav; auto using no_tag_label|].
    split; [apply every_below_headerNormalization; auto using no_tag_label|].
    split; [apply every_below_inline; auto using no_tag_label|].
    apply every_below_remove_matches; auto using no_tag_label. }
  assert (Hdialog : every_below (no_tag ["dialog"]) (preprocessDocument Fields doc) = true).
  { assert (H1 : every_below (no_tag ["dialog"]) d1 = true).
    { subst d1. rewrite remove_matches_prune. apply every_below_pruned; [apply no_tag_label|].
      intros parent k. rewrite matches_tags. unfold no_tag. now intros ->. }
    pose proof (Hdiv ["dialog"] eq_refl) as K.
    apply K, K, K, K, K. exact H1. }
  assert (Hmedia : every_below (no_tag media_tags) (preprocessDocument Fields doc) = true).
  { assert (H2 : every_below (no_tag media_tags) d2 = true).
    { subst d2. rewrite neutralize_media_tree. now apply every_below_renamed. }
    pose proof (Hdiv media_tags eq_refl) as K.
    apply K, K, K, K. exact H2. }
  assert (Hid : every_below (no_id "filterbar-container") (preprocessDocument Fields doc) = true).
  { unfold preprocessDocument, fixJobTeam. cbv zeta. rewrite remove_matches_prune.
    apply every_below_pruned; [apply no_id_label|].
    intros parent k. unfold matches_group, no_id. cbn [existsb]. rewrite orb_false_r.
    now intros ->. }
  destruct (good_at _ _ p d Hdialog Hp Hd) as [Q1 _].
  destruct (good_at _ _ p d Hmedia Hp Hd) as [Q2 _].
  destruct (good_at _ _ p d Hid Hp Hd) as [Q3 _].
  unfold no_tag in Q1, Q2. unfold no_id in Q3.
  apply negb_true_iff in Q1, Q2, Q3.
  split; [|split; [exact Q3|]].
  - unfold has_tag_in in *. cbn [existsb] in *.
    destruct (is_element d); [|reflexivity]. cbn [andb] in *.
    rewrite orb_false_r in Q1. rewrite Q1. exact Q2.
  - intros Hin q d' Hq Hd'.
    unfold preprocessDocument, fixJobTeam in Hd. cbv zeta in Hd. fold d1 d2 d3 d4 d5 in Hd.
    rewrite remove_matches_prune in Hd.
    destruct (prune_at _ d5 p d Hp Hd) as (p' & par & d0 & Hp' & _ & Hd0 & _ & ->).
    assert (Hin0 : has_tag_in inline_tags d0 = true).
    { rewrite <- Hin. destruct d0; reflexivity. }
    pose proof (inline_promoted_below d4 p' d0 Hp' Hd0 Hin0) as Hb.
    apply (has_below_none block_tags (prune [sel_one (sel_id "filterbar-container")] d0) q d');
      [|exact Hq | exact Hd'].
    destruct (has_below block_tags (prune _ d0)) eqn:E; [|reflexivity].
    apply has_below_prune in E. congruence.
Qed.

(** The page with the dialog has no [script] in it, before or after; after,
    the paragraph stands where the dialog stood. *)
Lemma preprocessDocument_adds_only_div_witness :
  existsb (String.eqb "div") ["script"] = false /\
  (forall p d, p <> [] -> node_at RemoveExamples.with_dialog p = Some d ->
               has_tag_in ["script"] d = false) /\
  [0; 0; 0]%nat <> [] /\
  node_at (preprocessDocument (strs := ascii_strings) class_tokens RemoveExamples.with_dialog) [0; 0; 0]%nat
  = Some (DomExamples.el "p" [DomExamples.text "y"]) /\
  has_tag_in ["script"] (DomExamples.el "p" [DomExamples.text "y"]) = false.
Proof.
  assert (Hp : [0; 0; 0]%nat <> []) by (intros H; discriminate H).
  assert (Hdoc : forall p d, p <> [] -> node_at RemoveExamples.with_dialog p = Some d ->
                             has_tag_in ["script"] d = false).
  { intros p d Hq Hd.
    assert (Hb : every_below (no_tag ["script"]) RemoveExamples.with_dialog = true)
      by reflexivity.
    destruct (good_at _ _ p d Hb Hq Hd) as [Q1 _]. unfold no_tag in Q1.
    now apply negb_true_iff in Q1. }
  split; [reflexivity|]. split; [exact Hdoc|]. split; [exact Hp|]. split; [reflexivity|].
  exact (preprocessDocument_adds_only_div (strs := ascii_strings) class_tokens ["script"] RemoveExamples.with_dialog
           eq_refl Hdoc [0; 0; 0]%nat (DomExamples.el "p" [DomExamples.text "y"]) Hp eq_refl).
Defined.

(** The paragraph that is left is none of the things taken care of. *)
Lemma preprocessDocument_clean_witness :
  [0; 0; 0]%nat <> [] /\
  node_at (preprocessDocument (strs := ascii_strings) class_tokens RemoveExamples.with_dialog) [0; 0; 0]%nat
  = Some (DomExamples.el "p" [DomExamples.text "y"]) /\
  has_tag_in ("dialog" :: media_tags) (DomExamples.el "p" [DomExamples.text "y"]) = false.
Proof.
  assert (Hp : [0; 0; 0]%nat <> []) by (intros H; discriminate H).
  split; [exact Hp|]. split; [reflexivity|].
  exact (proj1 (preprocessDocument_clean (strs := ascii_strings) class_tokens RemoveExamples.with_dialog
                  [0; 0; 0]%nat (DomExamples.el "p" [DomExamples.text "y"]) Hp eq_refl)).
Defined.

(** ** Header normalization, seen from the tree *)

(** The document after the loop of [headerNormalization]: going down from
    the root, every child that the header selector matches (in the tree as
    it is given) and that [visit_header] replaces gives way to its wrapper,
    and nothing below it is looked at; every other node stays and its
    children are gone through in the same way. *)
Fixpoint trim_headers {strs : Strings} (n : Node) : Node :=
  let 'mkNode ty d a kids := n in
  mkNode ty d a
    (List.map (fun k => if matches_group headerSel n k && snd (visit_header k)
                        then fst (visit_header k)
                        else trim_headers k) kids).

(** No node strictly below [n] is matched by the header selector. *)
Fixpoint header_free (n : Node) : bool :=
  let 'mkNode _ _ _ kids := n in
  forallb (fun k => negb (matches_group headerSel n k) && header_free k) kids.

(** No matched header has a matched header below it. *)
Fixpoint headers_apart (n : Node) : bool :=
  let 'mkNode _ _ _ kids := n in
  forallb (fun k => if matches_group headerSel n k then header_free k else headers_apart k) kids.

Section HeaderPass.

Context {strs : Strings}.

Let step := headerNormalization_step.

Lemma visit_header_kept h : snd (visit_header h) = false -> fst (visit_header h) = h.
Proof.
  unfold visit_header. destruct (findHeading h) as [heading|]; [|reflexivity]. cbv zeta.
  destruct (shouldReplaceHeader _ _ _ _) eqn:E; [discriminate|]. intros _. cbn [fst].
  apply kept_header_no_heavy in E. apply length_zero_iff_nil in E. now rewrite E.
Qed.

Lemma below_cons i g q : below (i :: g) (i :: q) = below g q.
Proof.
  unfold below. cbn [List.length take]. f_equal.
  apply bool_decide_ext. split; [now intros [= ->] | now intros ->].
Qed.

Lemma below_other i j g q : i <> j -> below (j :: g) (i :: q) = false.
Proof.
  intros Hne. unfold below. cbn [List.length take].
  rewrite bool_decide_eq_false_2; [apply andb_false_r|]. intros [= E _]. congruence.
Qed.

Lemma below_nil q : q <> [] -> below [] q = true.
Proof. destruct q; [contradiction | reflexivity]. Qed.

(** Entries of the list of replaced headers that lie under a child before
    child [i]. *)
Definition before (i : nat) (g : path) : Prop :=
  match g with
  | [] => False
  | j :: _ => (j < i)%nat
  end.

Lemma before_not_below i q (Gout : list path) :
  Forall (before i) Gout -> existsb (fun g => below g (i :: q)) Gout = false.
Proof.
  induction 1 as [|g Gout Hg _ IH]; cbn [existsb]; [reflexivity|]. rewrite IH.
  destruct g as [|j g]; [contradiction|]. cbn in Hg. rewrite below_other by lia. reflexivity.
Qed.

(** Paths inside child [i], seen from the parent. *)
Definition under (i : nat) (G : list path) : list path := @List.map path path (cons i) G.

(** A step at a path through child [i] is the step inside that child. *)
Lemma step_child ty d a kids i k q (Gk Gout : list path) :
  kids !! i = Some k -> Forall (before i) Gout ->
  step (mkNode ty d a kids, (under i Gk ++ Gout)%list) (i :: q) =
  (mkNode ty d a (alter (fun _ => fst (step (k, Gk) q)) i kids),
   (under i (snd (step (k, Gk) q)) ++ Gout)%list).
Proof.
  intros Hk Hout. unfold step, headerNormalization_step.
  rewrite existsb_app, (before_not_below i q Gout Hout), orb_false_r.
  assert (E : existsb (fun g => below g (i :: q)) (under i Gk)
              = existsb (fun g => below g q) Gk).
  { clear. induction Gk as [|g Gk IH]; cbn [under List.map existsb]; [reflexivity|].
    fold (under i Gk). now rewrite below_cons, IH. }
  assert (Hsame : alter (fun _ : Node => k) i kids = kids).
  { apply alter_fixed. intros x Hx. congruence. }
  rewrite E. destruct (existsb (fun g => below g q) Gk); cbn [fst snd].
  - now rewrite Hsame.
  - cbn [node_at node_kids]. rewrite Hk. destruct (node_at k q) as [h|] eqn:Eh; cbn [fst snd].
    + destruct (visit_header h) as [h' replaced]. cbn [alter_at fst snd]. f_equal.
      * f_equal. apply list_alter_ext; [|reflexivity]. intros x Hx. congruence.
      * destruct replaced; reflexivity.
    + now rewrite Hsame.
Qed.

Lemma fold_child ty d a i (qs : list path) : forall kids k (Gk Gout : list path),
  kids !! i = Some k -> Forall (before i) Gout ->
  fold_left step (under i qs) (mkNode ty d a kids, (under i Gk ++ Gout)%list) =
  (mkNode ty d a (alter (fun _ => fst (fold_left step qs (k, Gk))) i kids),
   (under i (snd (fold_left step qs (k, Gk))) ++ Gout)%list).
Proof.
  induction qs as [|q qs IH]; intros kids k Gk Gout Hk Hout; cbn [under List.map fold_left fst snd].
  - f_equal. f_equal. symmetry. apply alter_fixed. intros x Hx. congruence.
  - fold (under i qs). rewrite (step_child ty d a kids i k q Gk Gout Hk Hout).
    destruct (step (k, Gk) q) as [k1 G1] eqn:E1. cbn [fst snd].
    rewrite (IH (alter (fun _ => k1) i kids) k1 G1 Gout).
    + f_equal. f_equal.
      rewrite (list_alter_alter_eq (fun _ : Node => fst (fold_left step qs (k1, G1)))
                 (fun _ : Node => k1)).
      apply list_alter_ext; reflexivity.
    + rewrite list_lookup_alter, Hk. destruct (decide (i = i)); [reflexivity | congruence].
    + exact Hout.
Qed.

(** Below a header that has been replaced nothing is done. *)
Lemma fold_skip (qs : list path) n :
  Forall (fun q => q <> []) qs -> fold_left step qs (n, [[]]) = (n, [[]]).
Proof.
  induction 1 as [|q qs Hq _ IH]; cbn [fold_left]; [reflexivity|].
  unfold step at 2, headerNormalization_step. cbn [existsb].
  rewrite (below_nil q Hq). cbn [orb]. exact IH.
Qed.

(** What the loop makes of a child. *)
Definition trimmed_child (parent k : Node) : Node :=
  if matches_group headerSel parent k && snd (visit_header k)
  then fst (visit_header k)
  else trim_headers k.

Lemma child_pass parent k :
  fst (fold_left step (QuerySelectorAll headerSel k) (k, [])) = trim_headers k ->
  fst (fold_left step ((if matches_group headerSel parent k then [[]] else [])
                         ++ QuerySelectorAll headerSel k) (k, []))
  = trimmed_child parent k.
Proof.
  intros IH. unfold trimmed_child. destruct (matches_group headerSel parent k); [|exact IH].
  cbn [app fold_left andb]. unfold step at 2, headerNormalization_step.
  cbn [existsb node_at alter_at].
  pose proof (visit_header_kept k) as Hkept.
  destruct (visit_header k) as [h' [|]]; cbn [fst snd] in *.
  - exact (f_equal fst (fold_skip _ h' (QuerySelectorAll_nonempty headerSel k))).
  - rewrite (Hkept eq_refl). exact IH.
Qed.

Lemma before_weaken i j g : (i <= j)%nat -> before i g -> before j g.
Proof. destruct g; cbn; [auto | lia]. Qed.

Lemma header_pass_kids ks :
  Forall (fun k => fst (fold_left step (QuerySelectorAll headerSel k) (k, [])) = trim_headers k)
         ks ->
  forall pre ty d a parent (Gout : list path),
    Forall (before (List.length pre)) Gout ->
    fst (fold_left step (qsa_kids headerSel parent (List.length pre) ks)
                   (mkNode ty d a (pre ++ ks), Gout))
    = mkNode ty d a (pre ++ List.map (trimmed_child parent) ks).
Proof.
  induction 1 as [|k ks Hk _ IH]; intros pre ty d a parent Gout Hout;
    cbn [qsa_kids List.map fold_left]; [reflexivity|].
  set (i := List.length pre) in *.
  assert (Hpaths : ((if matches_group headerSel parent k then [[i]] else [])
                      ++ List.map (cons i) (QuerySelectorAll headerSel k)
                      ++ qsa_kids headerSel parent (S i) ks)%list
                   = (under i ((if matches_group headerSel parent k then [[]] else [])
                                 ++ QuerySelectorAll headerSel k)
                        ++ qsa_kids headerSel parent (S i) ks)%list).
  { unfold under. rewrite map_app, <- app_assoc.
    destruct (matches_group headerSel parent k); reflexivity. }
  rewrite Hpaths, fold_left_app.
  assert (Hki : (pre ++ k :: ks)%list !! i = Some k).
  { subst i. rewrite lookup_app_r by lia. now rewrite Nat.sub_diag. }
  rewrite (fold_child ty d a i _ (pre ++ k :: ks)%list k [] Gout Hki Hout).
  subst i. rewrite alter_middle, (child_pass parent k Hk).
  replace (S (List.length pre)) with (List.length (pre ++ [trimmed_child parent k]))
    by (rewrite length_app; cbn; lia).
  replace (pre ++ trimmed_child parent k :: ks)%list
    with ((pre ++ [trimmed_child parent k]) ++ ks)%list by now rewrite <- app_assoc.
  rewrite IH; [now rewrite <- app_assoc|].
  apply Forall_app. split.
  - apply Forall_forall. intros g Hg. apply list_elem_of_In in Hg. unfold under in Hg.
    apply in_map_iff in Hg as (g' & <- & _). cbn. rewrite length_app. cbn. lia.
  - eapply Forall_impl; [exact Hout|]. intros g. apply before_weaken.
    rewrite length_app. cbn. lia.
Qed.

(** The loop, seen from the tree. *)
Lemma headerNormalization_tree n : headerNormalization n = trim_headers n.
Proof.
  unfold headerNormalization. change headerNormalization_step with step.
  induction n as [ty d a kids IH] using Node_ind_kids.
  rewrite QuerySelectorAll_unfold. cbn [node_kids trim_headers].
  exact (header_pass_kids kids IH [] ty d a (mkNode ty d a kids) [] (Forall_nil_2 _)).
Qed.

End HeaderPass.

Section HeaderTwice.

Context {strs : Strings}.

Lemma header_free_fixed n : header_free n = true -> trim_headers n = n.
Proof.
  induction n as [ty d a kids IH] using Node_ind_kids. cbn [header_free trim_headers].
  intros H. f_equal. rewrite forallb_forall in H. rewrite Forall_forall in IH.
  rewrite <- (map_id kids) at 2. apply map_ext_in. intros k Hk.
  specialize (H k Hk). apply andb_prop in H as [Hm Hf]. apply negb_true_iff in Hm.
  rewrite Hm. cbn [andb]. apply IH; [now apply list_elem_of_In | exact Hf].
Qed.

Lemma header_free_at n q c : header_free n = true -> node_at n q = Some c -> header_free c = true.
Proof.
  revert n. induction q as [|i q IH]; intros n Hn; cbn [node_at]; [now intros [= <-]|].
  destruct n as [ty d a kids]. cbn [node_kids]. destruct (kids !! i) as [k|] eqn:E; [|discriminate].
  cbn [header_free] in Hn. rewrite forallb_forall in Hn.
  assert (Hk : In k kids) by (apply list_elem_of_In; eapply list_elem_of_lookup_2; exact E).
  specialize (Hn k Hk). apply andb_prop in Hn as [_ Hf]. now apply IH.
Qed.

(** Where the parts of the wrapper come from. *)
Lemma cloneUsefulBadge_origin h b :
  cloneUsefulBadge h = Some b -> exists bp, node_at h bp = Some b.
Proof.
  unfold cloneUsefulBadge. destruct (QuerySelector _ h) as [bp|]; [|discriminate].
  destruct (node_at h bp) as [badge|] eqn:Eb; [|discriminate].
  destruct (_ || _); [discriminate|]. destruct (isGenericBadgeLabel _); [discriminate|].
  intros [= <-]. rewrite cloneNodeDeep_id. eauto.
Qed.

Lemma findSummaryParagraph_origin h sm :
  findSummaryParagraph h = Some sm -> exists pp, node_at h pp = Some sm.
Proof.
  unfold findSummaryParagraph. intros H. apply head_omap in H as (pp & _ & Hc).
  destruct (node_at h pp) as [p|] eqn:Ep; [|discriminate].
  destruct (_ || _); [discriminate|]. destruct (_ <? _)%nat; [discriminate|].
  destruct (_ || _); [|discriminate].
  injection Hc as <-. rewrite cloneNodeDeep_id. eauto.
Qed.

(** The header selector looks at the tags of the node and of its parent. *)
Lemma matches_headerSel parent k :
  matches_group headerSel parent k =
  has_tag_in ["header"] k && has_tag_in ["article"; "body"; "main"] parent.
Proof.
  unfold matches_group, headerSel, has_tag_in, matches_simple. cbn [existsb].
  destruct (is_element k), (is_element parent); cbn [andb orb];
    rewrite ?andb_false_r, ?orb_false_r; try reflexivity.
  destruct (String.eqb (node_Data k) "header"); cbn [andb orb]; reflexivity.
Qed.

Lemma trim_headers_Type n : node_Type (trim_headers n) = node_Type n.
Proof. destruct n; reflexivity. Qed.
Lemma trim_headers_Data n : node_Data (trim_headers n) = node_Data n.
Proof. destruct n; reflexivity. Qed.

Lemma has_tag_in_trim l n : has_tag_in l (trim_headers n) = has_tag_in l n.
Proof. destruct n; reflexivity. Qed.

(** The wrapper of a header that has no header below it is left alone by a
    second pass. *)
Lemma wrapper_fixed k :
  header_free k = true -> snd (visit_header k) = true ->
  trim_headers (fst (visit_header k)) = fst (visit_header k) /\
  has_tag_in ["header"] (fst (visit_header k)) = false.
Proof.
  intros Hf. unfold visit_header.
  destruct (findHeading k) as [heading|]; [|discriminate]. cbv zeta.
  pose proof (cloneUsefulBadge_origin k) as Hbadge.
  pose proof (findSummaryParagraph_origin k) as Hsum.
  destruct (shouldReplaceHeader _ _ _ _); [|discriminate]. intros _. cbn [fst].
  rewrite trimmed_wrapper_shape. split; [|reflexivity].
  cbn [trim_headers]. f_equal.
  set (w := mkNode ElementNode "div" _ _).
  assert (Hkids : Forall (fun c => header_free c = true)
                    (option_list (cloneUsefulBadge k) ++ [default k (node_at k heading)]
                       ++ option_list (findSummaryParagraph k))).
  { apply Forall_app. split; [|apply Forall_app; split].
    - destruct (cloneUsefulBadge k) as [b|]; cbn [option_list]; [|constructor].
      constructor; [|constructor]. destruct (Hbadge b eq_refl) as [bp Hb].
      exact (header_free_at k bp b Hf Hb).
    - constructor; [|constructor].
      destruct (node_at k heading) as [x|] eqn:Ex; [|exact Hf].
      exact (header_free_at k heading x Hf Ex).
    - destruct (findSummaryParagraph k) as [sm|]; cbn [option_list]; [|constructor].
      constructor; [|constructor]. destruct (Hsum sm eq_refl) as [pp Hs].
      exact (header_free_at k pp sm Hf Hs). }
  rewrite <- (map_id (option_list _ ++ _)) at 2. apply map_ext_in. intros c Hc.
  rewrite matches_headerSel. subst w. unfold has_tag_in at 2. cbn [is_element node_Type node_Data existsb].
  cbn. rewrite andb_false_r. cbn [andb].
  apply header_free_fixed. rewrite Forall_forall in Hkids. apply Hkids.
  now apply list_elem_of_In.
Qed.

Lemma trim_headers_twice n :
  headers_apart n = true -> trim_headers (trim_headers n) = trim_headers n.
Proof.
  induction n as [ty d a kids IH] using Node_ind_kids. intros Ha.
  cbn [trim_headers]. f_equal. rewrite map_map. apply map_ext_in. intros k Hk.
  set (n := mkNode ty d a kids). set (n' := mkNode ty d a (List.map _ kids)).
  cbn [headers_apart] in Ha. rewrite forallb_forall in Ha. specialize (Ha k Hk). fold n in Ha.
  rewrite Forall_forall in IH. specialize (IH k (proj2 (list_elem_of_In _ _) Hk)).
  assert (Hpar : forall c, matches_group headerSel n' c = matches_group headerSel n c).
  { intros c. rewrite !matches_headerSel. reflexivity. }
  rewrite Hpar.
  destruct (matches_group headerSel n k) eqn:Hm; cbn [andb].
  - destruct (snd (visit_header k)) eqn:Hr.
    + destruct (wrapper_fixed k Ha Hr) as [Hfix Htag].
      rewrite matches_headerSel, Htag. cbn [andb]. exact Hfix.
    + rewrite (header_free_fixed k Ha), Hm, Hr. cbn [andb]. now apply header_free_fixed.
  - rewrite matches_headerSel, has_tag_in_trim, <- matches_headerSel, Hm. cbn [andb].
    now apply IH.
Qed.

End HeaderTwice.

(** X23: Header normalization a second time.  On a document in which no header
    that the selector matches has another such header below it, a second
    run of [headerNormalization] changes nothing.  In general it does: the
    wrapper that takes the place of a header holds a copy of its heading,
    and a header inside that copy, which the first run passes over because
    its original has left the document, is trimmed by the second. *)
Theorem headerNormalization_twice {strs : Strings} :
  (forall doc, headers_apart doc = true ->
     headerNormalization (headerNormalization doc) = headerNormalization doc) /\
  headers_apart DomExamples.nested_headers = false /\
  headerNormalization (headerNormalization DomExamples.nested_headers)
  <> headerNormalization DomExamples.nested_headers.
Proof.
  split; [|split].
  - intros doc Ha. rewrite !headerNormalization_tree. now apply trim_headers_twice.
  - reflexivity.
  - intros H. vm_compute in H. discriminate H.
Qed.

(** The page with one header: a second run leaves the wrapper as it is. *)
Lemma headerNormalization_twice_witness :
  let strs := ascii_strings in
  headers_apart PageExamples.page = true /\
  headerNormalization (headerNormalization PageExamples.page)
  = headerNormalization PageExamples.page.
Proof.
  cbn zeta. split; [reflexivity|].
  exact (proj1 (headerNormalization_twice (strs := ascii_strings)) PageExamples.page eq_refl).
Defined.

(** ** The vocabulary of a query, and what a result holds *)

(** The names [parseAction] knows, [load_tab] apart. *)
Definition action_names : list string :=
  ["click"; "eval"; "hide_nav_buttons"; "listen"; "navigate"; "outer_html"; "print_to_pdf";
   "remove"; "remove_info_boxes"; "remove_info_sections"; "remove_nav_sections";
   "screenshot"; "scroll"; "sleep"].

Section Vocabulary.

Variable ParseDuration : string -> Duration * error.
Variable ParseRequestURI : string -> error.
Variable ParseFloat : string -> float * error.
Variable infoBoxSelector infoSectionSelector navButtonSelector navSectionSelector : string.

Lemma MustArgCount_one xa : MustArgCount xa [1%nat] = None -> List.length (Args xa) = 1%nat.
Proof.
  cbn [MustArgCount]. destruct (Nat.ltb_spec (List.length (Args xa)) 1); [discriminate|].
  destruct (Nat.ltb_spec 1 (List.length (Args xa))); [discriminate|]. lia.
Qed.

Local Ltac known_name H :=
  repeat match type of H with
         | context [String.eqb (Name ?xa) ?s] =>
             destruct (String.eqb_spec (Name xa) s) as [->|?];
             [first [ solve [cbn; tauto]
                    | exfalso; destruct (MustArgCount xa [1%nat]); discriminate H ] |]
         end.

(** X24: [parseAction] accepts nothing but the fourteen action names, and so
    never a [load_tab] (which is for the first place of the first block
    only, where [parseQueryBlocks] takes it away); [parseWhile] accepts
    nothing but [element_exists] and [element_visible], each with exactly
    one argument. *)
Theorem parse_vocabulary :
  (forall xa r r',
     parseAction ParseDuration ParseRequestURI ParseFloat
       infoBoxSelector infoSectionSelector navButtonSelector navSectionSelector xa r
     = Ret None r' ->
     In (Name xa) action_names) /\
  (forall xa r r',
     parseWhile (Some xa) r = Ret None r' ->
     (Name xa = "element_exists" \/ Name xa = "element_visible") /\
     List.length (Args xa) = 1%nat).
Proof.
  split.
  - intros xa r r' H. unfold parseAction in H.
    destruct (MustBeNonEmpty xa); [discriminate|]. cbv zeta in H. unfold action_names.
    known_name H. discriminate H.
  - intros xa r r'. cbv [parseWhile bind current_block get ret panic update_block modify].
    destruct (Query r !! pos r); [|discriminate].
    destruct (MustBeNonEmpty xa); [discriminate|].
    destruct (String.eqb_spec (Name xa) "element_exists") as [E|E].
    + destruct (MustArgCount xa [1%nat]) eqn:Ea; [discriminate|]. intros _.
      split; [left; exact E | now apply MustArgCount_one].
    + destruct (String.eqb_spec (Name xa) "element_visible") as [E'|E']; [|discriminate].
      destruct (MustArgCount xa [1%nat]) eqn:Ea; [discriminate|]. intros _.
      split; [right; exact E' | now apply MustArgCount_one].
Qed.

(** X25: The result that [Execute] returns for an accepted request has one
    output slot for each block and an [err] entry for each block, and every
    [err] entry is the empty string: nothing ever writes to them. *)
Theorem returned_result_slots
  (Browser : Type) (drive : option nat -> drvCall -> Browser -> Browser * drvReply)
  (decode_err : error) (r r' : Request) (now : Z) (st : registry) (b : Browser)
  (result : Result) :
  ParseRequest ParseDuration ParseRequestURI ParseFloat
    infoBoxSelector infoSectionSelector navButtonSelector navSectionSelector decode_err r
  = Ret None r' ->
  ret_res (Execute Browser drive now r' st b) = Some result ->
  res_Err result = replicate (List.length (Query r')) "" /\
  List.length (res_Out result) = List.length (Query r').
Proof.
  intros H Hres. apply ParseRequest_steps in H as (_ & _ & r1 & r2 & r3 & _ & _ & _ & H).
  destruct (parseQueryBlocks_ready _ _ _ _ _ _ _ _ _ H) as (_ & Hready & Hout & Herr).
  destruct (Execute_ready Browser drive now r' st b Hready) as (_ & _ & He & Ho & Hr).
  rewrite (Hr result Hres). split; congruence.
Qed.

End Vocabulary.

(** The two clicks went well: the result has one slot of each kind. *)
Lemma returned_result_slots_witness :
  let r := Examples.click_twice in
  let e := Execute nat Examples.drive_ok 0 (Examples.parsed r) (registry_init (fun _ => 0)) 0%nat in
  ParseRequest Examples.ParseDuration_seconds Examples.ParseRequestURI_any
    Examples.ParseFloat_zero "#info-box" "#info-section" "#nav-button" "#nav-section" None r
  = Ret None (Examples.parsed r) /\
  ret_res e = Some (res (end_req e)) /\
  res_Err (res (end_req e)) = replicate (List.length (Query (Examples.parsed r))) "".
Proof.
  cbn zeta.
  assert (H : ParseRequest Examples.ParseDuration_seconds Examples.ParseRequestURI_any
                Examples.ParseFloat_zero "#info-box" "#info-section" "#nav-button"
                "#nav-section" None Examples.click_twice
              = Ret None (Examples.parsed Examples.click_twice)) by (vm_compute; reflexivity).
  assert (Hr : ret_res (Execute nat Examples.drive_ok 0 (Examples.parsed Examples.click_twice)
                          (registry_init (fun _ => 0)) 0%nat)
               = Some (res (end_req (Execute nat Examples.drive_ok 0
                                       (Examples.parsed Examples.click_twice)
                                       (registry_init (fun _ => 0)) 0%nat))))
    by (vm_compute; reflexivity).
  split; [exact H|]. split; [exact Hr|].
  exact (proj1 (returned_result_slots Examples.ParseDuration_seconds
                  Examples.ParseRequestURI_any Examples.ParseFloat_zero
                  "#info-box" "#info-section" "#nav-button" "#nav-section"
                  nat Examples.drive_ok None Examples.click_twice
                  (Examples.parsed Examples.click_twice) 0 (registry_init (fun _ => 0)) 0%nat
                  _ H Hr)).
Defined.

(** A click is an action, and it was accepted. *)
Lemma parse_vocabulary_witness :
  In (Name ["click"; "button.more"]) action_names.
Proof.
  refine (proj1 (parse_vocabulary Examples.ParseDuration_seconds
                   Examples.ParseRequestURI_any Examples.ParseFloat_zero
                   "#info-box" "#info-section" "#nav-button" "#nav-section")
                ["click"; "button.more"]
                (Examples.request [Examples.block [] None None] "1s" "" "" false) _ _).
  vm_compute. reflexivity.
Defined.
